(** * Aussie_Property_Predictor: the retrieval and extraction pipeline

    A shallow embedding of [Domain_Scraper.py] (fetch client and listing
    enumerator) and [Domain_Parser.py] (field extractor and persistence
    sink), with the properties of the specification stated over it.

    Python values are modelled as the interpreter has them: a [str] is a
    sequence of Unicode code points, an [int] is an unbounded integer, a
    [dict] is a finite map, a [float] is a binary64 number, an exception is
    an explicit [Raise] result.  The interpreter's limit on the length of a
    decimal literal passed to [int()] is a start-up setting and is not part
    of the model. *)

From Stdlib Require Import ZArith NArith QArith Qpower Qround Qabs Lqa.
From Stdlib Require Import List String Ascii Lia DecimalString.
From stdpp Require Import base option list strings gmap.

(* ===================================================================== *)
(** * The Python runtime: [str], [int()], [re]                            *)
(* ===================================================================== *)

Module Py.

(** A [str] is a list of code points. *)
Abbreviation str := (list N).

(** [o is not None] *)
Definition is_some {A} (o : option A) : bool :=
  match o with Some _ => true | None => false end.

(** Source literals are written as UTF-8 text and decoded to code points. *)
Fixpoint utf8_decode (bs : list N) : str :=
  match bs with
  | [] => []
  | b :: r =>
    if (b <? 128)%N then b :: utf8_decode r
    else if (b <? 224)%N then
      match r with
      | b1 :: r1 => ((b - 192) * 64 + (b1 - 128))%N :: utf8_decode r1
      | _ => []
      end
    else if (b <? 240)%N then
      match r with
      | b1 :: b2 :: r2 =>
        ((b - 224) * 4096 + (b1 - 128) * 64 + (b2 - 128))%N :: utf8_decode r2
      | _ => []
      end
    else
      match r with
      | b1 :: b2 :: b3 :: r3 =>
        ((b - 240) * 262144 + (b1 - 128) * 4096 + (b2 - 128) * 64 + (b3 - 128))%N
          :: utf8_decode r3
      | _ => []
      end
  end.

Definition u (s : string) : str :=
  utf8_decode (List.map N_of_ascii (list_ascii_of_string s)).

(** ** The Unicode character database

    The properties of a code point that the interpreter looks up:
    [Py_UNICODE_TODECIMAL], [Py_UNICODE_ISDIGIT], [Py_UNICODE_ISSPACE] and
    [Py_UNICODE_ISALNUM].  The database is a parameter of the development;
    [UnicodeLaws] records what is used of it. *)
Class UnicodeData := {
  to_decimal : N -> option N;
  is_digit : N -> bool;
  is_space : N -> bool;
  is_alnum : N -> bool
}.

Definition ascii_decimal (c : N) : option N :=
  if ((48 <=? c) && (c <=? 57))%N then Some (c - 48)%N else None.

Definition ascii_space (c : N) : bool :=
  ((9 <=? c) && (c <=? 13) || (28 <=? c) && (c <=? 32))%N.

Definition ascii_alnum (c : N) : bool :=
  ((48 <=? c) && (c <=? 57) || (65 <=? c) && (c <=? 90)
   || (97 <=? c) && (c <=? 122))%N.

Class UnicodeLaws `{UnicodeData} : Prop := {
  ascii_to_decimal : forall c, (c < 128)%N -> to_decimal c = ascii_decimal c;
  ascii_is_digit : forall c, (c < 128)%N -> is_digit c = is_some (ascii_decimal c);
  ascii_is_space : forall c, (c < 128)%N -> is_space c = ascii_space c;
  ascii_is_alnum : forall c, (c < 128)%N -> is_alnum c = ascii_alnum c;
  decimal_range : forall c d, to_decimal c = Some d -> (d < 10)%N;
  decimal_is_digit : forall c d, to_decimal c = Some d -> is_digit c = true;
  digit_is_alnum : forall c, is_digit c = true -> is_alnum c = true;
  space_not_alnum : forall c, is_space c = true -> is_alnum c = false
}.

(** The database restricted to Latin-1 (code points below 256); code points
    outside that block carry no property in this instance. *)
Definition in_ranges (rs : list (N * N)) (c : N) : bool :=
  existsb (fun r => (fst r <=? c) && (c <=? snd r))%N rs.

Definition latin1 : UnicodeData := {|
  to_decimal := ascii_decimal;
  is_digit := in_ranges [(48, 57); (178, 179); (185, 185)]%N;
  is_space := in_ranges [(9, 13); (28, 32); (133, 133); (160, 160)]%N;
  is_alnum := in_ranges [(48, 57); (65, 90); (97, 122); (170, 170); (178, 179);
                         (181, 181); (185, 186); (188, 190); (192, 214);
                         (216, 246); (248, 255)]%N
|}.

Section Str.
Context `{UnicodeData}.

Definition is_decimal (c : N) : bool := is_some (to_decimal c).

(** [str.isdigit()] *)
Definition isdigit (s : str) : bool :=
  match s with [] => false | _ => forallb is_digit s end.

Fixpoint drop_while (p : N -> bool) (s : str) : str :=
  match s with
  | [] => []
  | c :: s' => if p c then drop_while p s' else s
  end.

Fixpoint take_while (p : N -> bool) (s : str) : str :=
  match s with
  | [] => []
  | c :: s' => if p c then c :: take_while p s' else []
  end.

(** [str.strip()] *)
Definition lstrip (s : str) : str := drop_while is_space s.
Definition rstrip (s : str) : str := rev (drop_while is_space (rev s)).
Definition strip (s : str) : str := rstrip (lstrip s).

(** [str.split()]: the maximal runs of non-whitespace characters. *)
Definition emit (cur : str) (l : list str) : list str :=
  match cur with [] => l | _ => cur :: l end.

Fixpoint split_ws (cur : str) (s : str) : list str :=
  match s with
  | [] => emit cur []
  | c :: s' =>
    if is_space c then emit cur (split_ws [] s') else split_ws (cur ++ [c]) s'
  end.

Definition split (s : str) : list str := split_ws [] s.

End Str.

(** [s.startswith(p)] and [sub in s] *)
Fixpoint startswith (s p : str) {struct p} : bool :=
  match p, s with
  | [], _ => true
  | a :: p', b :: s' => (a =? b)%N && startswith s' p'
  | _ :: _, [] => false
  end.

Fixpoint contains (sub s : str) : bool :=
  startswith s sub || match s with [] => false | _ :: s' => contains sub s' end.

(** [s.replace(old, new)]: every non-overlapping occurrence, left to right.
    [skip] counts the characters of an occurrence still to be passed over. *)
Fixpoint replace_go (old new : str) (skip : nat) (s : str) : str :=
  match s with
  | [] => []
  | c :: s' =>
    match skip with
    | S k => replace_go old new k s'
    | O =>
      if startswith s old then new ++ replace_go old new (List.length old - 1) s'
      else c :: replace_go old new 0 s'
    end
  end.

Definition replace (s old new : str) : str :=
  match old with
  | [] => new ++ flat_map (fun c => c :: new) s
  | _ => replace_go old new 0 s
  end.

(** [s[-n:]] for a positive [n] *)
Definition slice_last (n : nat) (s : str) : str := drop (List.length s - n) s.

(** ** Values: [None], an [int] or a [str] *)
Inductive value :=
  | VNone
  | VInt (n : Z)
  | VStr (s : str).

Definition of_str (o : option str) : value :=
  match o with Some s => VStr s | None => VNone end.

Definition of_int (o : option Z) : value :=
  match o with Some n => VInt n | None => VNone end.

(** ** Exceptions *)
Inductive exn :=
  | ValueError (literal : str)   (* invalid literal for int() with base 10 *)
  | IndexError                   (* list index out of range *)
  | OverflowError                (* Python int too large to convert to SQLite INTEGER *)
  | ProgrammingError             (* a named parameter has no binding *)
  | OperationalError.            (* no such table, no such column *)

Inductive result (A : Type) :=
  | Ok (a : A)
  | Raise (e : exn).
Arguments Ok {A} a.
Arguments Raise {A} e.

#[global] Instance result_ret : MRet result := fun A a => Ok a.
#[global] Instance result_bind : MBind result := fun A B f m =>
  match m with Ok a => f a | Raise e => Raise e end.
#[global] Instance result_fmap : FMap result := fun A B f m =>
  match m with Ok a => Ok (f a) | Raise e => Raise e end.

(** [l[0]] *)
Definition index0 {A} (l : list A) : result A :=
  match l with x :: _ => Ok x | [] => Raise IndexError end.

(** ** [int(s)] for a [str] argument, base 10 *)
Section Int.
Context `{UnicodeData}.

(** Whitespace of the C locale, as [PyLong_FromString] skips it. *)
Definition ctype_space (c : N) : bool := ((9 <=? c) && (c <=? 13) || (c =? 32))%N.

(** Decimal digits of any script become ASCII digits and Unicode spaces
    become a blank; what is neither becomes a question mark. *)
Definition to_ascii (c : N) : N :=
  if (c <? 127)%N then c
  else if is_space c then 32%N
  else match to_decimal c with Some d => (48 + d)%N | None => 63%N end.

(** Digits, with single underscores allowed between them. *)
Fixpoint digits_acc (acc : Z) (prev_digit : bool) (s : list N) : option Z :=
  match s with
  | [] => if prev_digit then Some acc else None
  | c :: s' =>
    if ((48 <=? c) && (c <=? 57))%N
    then digits_acc (10 * acc + Z.of_N (c - 48)) true s'
    else if (c =? 95)%N && prev_digit then digits_acc acc false s'
    else None
  end.

Definition int_of_str (s : str) : result Z :=
  let t := rev (drop_while ctype_space (rev (drop_while ctype_space (List.map to_ascii s)))) in
  let '(neg, body) :=
    match t with
    | c :: b => if (c =? 43)%N then (false, b)
                else if (c =? 45)%N then (true, b) else (false, t)
    | [] => (false, t)
    end in
  match digits_acc 0 false body with
  | Some v => Ok (if neg then (- v)%Z else v)
  | None => Raise (ValueError s)
  end.

End Int.

(** ** [float]

    A finite float is modelled as the rational number it denotes.  An
    operation gives the exact result rounded to the nearest binary64
    number, a tie going to the even significand; below 2^-1022 the floats
    are the multiples of 2^-1074.  Overflow is outside the model: the
    program's floats are sums of a power of two and a fraction of a
    second, and [time.sleep] rejects such a sum long before it could
    overflow. *)

(** The exponent of a positive number: the largest [e] with [2^e <= q]. *)
Definition ilog2 (q : Q) : Z :=
  let t := (Z.log2 (Qnum q) - Z.log2 (Z.pos (Qden q)))%Z in
  if Qle_bool (2 ^ t) q then t else (t - 1)%Z.

(** The nearest integer, a tie going to the even one. *)
Definition nearest_even (y : Q) : Z :=
  let f := Qfloor y in
  match Qcompare (y - inject_Z f) (1 # 2) with
  | Lt => f
  | Gt => (f + 1)%Z
  | Eq => if Z.even f then f else (f + 1)%Z
  end.

(** The distance between the floats around [q]: 53 significant bits. *)
Definition ulp (q : Q) : Q := (2 ^ (Z.max (ilog2 (Qabs q)) (-1022) - 52))%Q.

(** The float nearest to [q]. *)
Definition round (q : Q) : Q :=
  Qred (inject_Z (nearest_even (q / ulp q)) * ulp q).

(** [float(n)] for an [int], as the mixed sum [n + x] converts it *)
Definition float_of_int (n : Z) : Q := round (inject_Z n).

(** [x + y] and [x * y] for floats *)
Definition float_add (x y : Q) : Q := round (x + y).
Definition float_mul (x y : Q) : Q := round (x * y).

(** ** [re]: the fragment of the pattern language the program uses

    A pattern is a sequence of items: a single character of a class, a
    greedy bounded repetition of a class, the word boundary and the end
    anchor.  Matching backtracks as [sre] does: a repetition first takes
    the longest run and gives characters back one at a time. *)
Module re.

Inductive cls :=
  | Digit          (* \d *)
  | Word           (* \w *)
  | Lit (c : N).

Inductive item :=
  | One (k : cls)
  | Rep (k : cls) (lo : nat) (hi : option nat)   (* k{lo,hi}, greedy *)
  | Boundary                                     (* \b *)
  | EndAnchor.                                   (* $ *)

Abbreviation regex := (list item).

Section Engine.
Context `{UnicodeData}.

Definition is_word (c : N) : bool := is_alnum c || (c =? 95)%N.

Definition in_cls (k : cls) (c : N) : bool :=
  match k with
  | Digit => is_decimal c
  | Word => is_word c
  | Lit x => (c =? x)%N
  end.

Definition word_at (o : option N) : bool :=
  match o with Some c => is_word c | None => false end.

Definition boundary (prev : option N) (s : str) : bool :=
  xorb (word_at prev) (word_at (head s)).

(** [$] matches at the end and before a newline that ends the string. *)
Definition at_end (s : str) : bool :=
  match s with
  | [] => true
  | [c] => (c =? 10)%N
  | _ => false
  end.

Definition run (k : cls) (hi : option nat) (s : str) : nat :=
  let n := List.length (take_while (in_cls k) s) in
  match hi with Some h => Nat.min h n | None => n end.

Definition prev_after (prev : option N) (m : str) : option N :=
  match last m with Some c => Some c | None => prev end.

(** Tries [lo + d], [lo + d - 1], ..., [lo]. *)
Fixpoint first_down {A} (f : nat -> option A) (lo d : nat) : option A :=
  match f (lo + d)%nat with
  | Some a => Some a
  | None => match d with O => None | S d' => first_down f lo d' end
  end.

(** The text matched at the current position, [prev] being the character
    before it. *)
Fixpoint match_here (r : regex) (prev : option N) (s : str) : option str :=
  match r with
  | [] => Some []
  | One k :: r' =>
    match s with
    | c :: s' => if in_cls k c then cons c <$> match_here r' (Some c) s' else None
    | [] => None
    end
  | Rep k lo hi :: r' =>
    let n := run k hi s in
    if (n <? lo)%nat then None
    else first_down
           (fun j => app (take j s)
                       <$> match_here r' (prev_after prev (take j s)) (drop j s))
           lo (n - lo)
  | Boundary :: r' => if boundary prev s then match_here r' prev s else None
  | EndAnchor :: r' => if at_end s then match_here r' prev s else None
  end.

(** [pattern.search(s)]: the leftmost match, as (start, group). *)
Fixpoint search_from (r : regex) (pos : nat) (prev : option N) (s : str)
  : option (nat * str) :=
  match match_here r prev s with
  | Some m => Some (pos, m)
  | None =>
    match s with
    | [] => None
    | c :: s' => search_from r (S pos) (Some c) s'
    end
  end.

Definition search (r : regex) (s : str) : option (nat * str) :=
  search_from r 0 None s.

End Engine.
End re.

(** [str(n)] for an [int] *)
Definition str_of_int (n : Z) : str :=
  List.map N_of_ascii (list_ascii_of_string (NilZero.string_of_int (Z.to_int n))).

End Py.

Import Py.

(* ===================================================================== *)
(** * The parsed document ([selectolax])                                  *)
(* ===================================================================== *)

(** The extractor sees the markup through the parser's queries only: a
    document answers [css_first], a node has its text, its attributes and
    answers [css].  An attribute written without a value maps to [None]. *)
Module Selectolax.

#[warnings="-register-all"]
Inductive Node :=
  mkNode (text : str) (attributes : gmap string (option str))
         (css : string -> list Node).

Definition text (n : Node) : str := let 'mkNode t _ _ := n in t.
Definition attributes (n : Node) : gmap string (option str) :=
  let 'mkNode _ a _ := n in a.
Definition css (n : Node) : string -> list Node := let 'mkNode _ _ q := n in q.

Record HTMLParser := { css_first : string -> option Node }.

End Selectolax.

(* ===================================================================== *)
(** * The relational store ([sqlite3])                                    *)
(* ===================================================================== *)

(** Tables hold rows of storage-class values; a column has a type affinity
    that is applied when a value is stored.  The records the sink receives
    hold [None], [int] and [str] only, so the storage classes are NULL,
    INTEGER and TEXT.  How the engine converts a text stored under INTEGER
    affinity is the parameter [numeric]; [EngineLaws] records the two cases
    used: an integer literal in range becomes that integer, a text with a
    character no number is written with stays as it is. *)
Module Sqlite.

Inductive sqlval :=
  | Null
  | Integer (n : Z)
  | Text (s : str).

Inductive affinity := INTEGER | TEXT.

Record column := { cname : string; ctype : affinity; autoincrement : bool }.

(** [sequence] is the largest row id the table has handed out. *)
Record table := {
  columns : list column;
  sequence : Z;
  rows : list (list sqlval)
}.

Inductive stmt :=
  | CreateTableIfNotExists (name : string) (cols : list column)
  | InsertInto (name : string) (cols : list string) (params : list string)
  | SelectAll (name : string).

Class Engine := { numeric : str -> sqlval }.

Definition int64 (n : Z) : bool := ((- 2 ^ 63 <=? n) && (n <? 2 ^ 63))%Z.

Definition ascii_digits (s : str) : bool :=
  match s with [] => false | _ => forallb (fun c => (48 <=? c) && (c <=? 57))%N s end.

Definition decimal_value (s : str) : Z :=
  fold_left (fun a c => (10 * a + Z.of_N (c - 48))%Z) s 0%Z.

(** The characters a numeric literal and the blanks around it are made of. *)
Definition numeric_char (c : N) : bool :=
  ((48 <=? c) && (c <=? 57) || (9 <=? c) && (c <=? 13) || (c =? 32)
   || (c =? 43) || (c =? 45) || (c =? 46) || (c =? 69) || (c =? 101))%N.

Class EngineLaws `{Engine} : Prop := {
  numeric_integer : forall s,
    ascii_digits s = true -> int64 (decimal_value s) = true ->
    numeric s = Integer (decimal_value s);
  numeric_text : forall s,
    forallb numeric_char s = false -> numeric s = Text s
}.

(** An engine that converts the integer literals written with digits only
    and keeps every other text. *)
Definition digits_engine : Engine := {|
  numeric s :=
    if ascii_digits s && int64 (decimal_value s) then Integer (decimal_value s)
    else Text s
|}.

Section Store.
Context `{Engine}.

(** Binding a Python value to a statement parameter. *)
Definition bind (v : value) : result sqlval :=
  match v with
  | VNone => Ok Null
  | VInt n => if int64 n then Ok (Integer n) else Raise OverflowError
  | VStr s => Ok (Text s)
  end.

(** What a fetch hands back to Python. *)
Definition fetch (v : sqlval) : value :=
  match v with
  | Null => VNone
  | Integer n => VInt n
  | Text s => VStr s
  end.

(** Column affinity, applied on storing. *)
Definition store (a : affinity) (v : sqlval) : sqlval :=
  match a, v with
  | INTEGER, Text s => numeric s
  | TEXT, Integer n => Text (str_of_int n)
  | _, _ => v
  end.

Fixpoint bind_all (params : list string) (d : gmap string value)
  : result (list sqlval) :=
  match params with
  | [] => mret []
  | p :: ps =>
    match d !! p with
    | Some v => x ← bind v; xs ← bind_all ps d; mret (x :: xs)
    | None => Raise ProgrammingError
    end
  end.

Fixpoint assoc (c : string) (cols : list string) (vals : list sqlval)
  : option sqlval :=
  match cols, vals with
  | c' :: cols', v :: vals' => if String.eqb c c' then Some v else assoc c cols' vals'
  | _, _ => None
  end.

Definition has_column (t : table) (c : string) : bool :=
  existsb (fun k => String.eqb (cname k) c) (columns t).

(** The row an insert makes: the row id for the auto-increment column, the
    bound value under the column's affinity for a listed column, NULL for
    the others. *)
Definition new_row (t : table) (cols : list string) (vals : list sqlval)
  : list sqlval :=
  List.map (fun k =>
         if autoincrement k then Integer (sequence t + 1)
         else match assoc (cname k) cols vals with
              | Some v => store (ctype k) v
              | None => Null
              end) (columns t).

Definition insert_row (t : table) (cols : list string) (vals : list sqlval)
  : table :=
  {| columns := columns t;
     sequence := (sequence t + 1)%Z;
     rows := rows t ++ [new_row t cols vals] |}.

(** [cursor.execute(stmt, d)]: the database after it and the rows fetched. *)
Definition execute (q : stmt) (d : gmap string value) (db : gmap string table)
  : result (gmap string table * list (list value)) :=
  match q with
  | CreateTableIfNotExists name cols =>
    match db !! name with
    | Some _ => mret (db, [])
    | None => mret (<[name := {| columns := cols; sequence := 0; rows := [] |}]> db, [])
    end
  | InsertInto name cols params =>
    match db !! name with
    | None => Raise OperationalError
    | Some t =>
      if forallb (has_column t) cols && (List.length cols =? List.length params)%nat
      then vals ← bind_all params d;
           mret (<[name := insert_row t cols vals]> db, [])
      else Raise OperationalError
    end
  | SelectAll name =>
    match db !! name with
    | None => Raise OperationalError
    | Some t => mret (db, List.map (List.map fetch) (rows t))
    end
  end.

(** [cursor.executemany(stmt, data)] *)
Fixpoint executemany (q : stmt) (data : list (gmap string value))
    (db : gmap string table) : result (gmap string table) :=
  match data with
  | [] => mret db
  | d :: data' => r ← execute q d db; executemany q data' (fst r)
  end.

End Store.
End Sqlite.

(* ===================================================================== *)
(** * Domain_Parser.py                                                    *)
(* ===================================================================== *)

Module Domain_Parser.
Import Selectolax.

(** What the extractor prints. *)
Inductive line :=
  | Error_parsing_HTML (e : exn).

(** r"\b\d{4}\b$" *)
Definition postcode_regex : re.regex :=
  [re.Boundary; re.Rep re.Digit 4 (Some 4); re.Boundary; re.EndAnchor].

(** r"\d{1,2} \w{3} \d{4}" *)
Definition sale_date_regex : re.regex :=
  [re.Rep re.Digit 1 (Some 2); re.One (re.Lit 32); re.Rep re.Word 3 (Some 3);
   re.One (re.Lit 32); re.Rep re.Digit 4 (Some 4)].

(** r"\d+" *)
Definition area_regex : re.regex := [re.Rep re.Digit 1 None].

(** The loop variables [bedrooms, baths, parking, area] of the property
    details. *)
Abbreviation details := (option Z * option Z * option Z * option Z)%type.

Section Extractor.
Context `{UnicodeData}.

Definition parse_address (address : str) : str * option str :=
  let address := replace address (u "Â") [] in
  let last_four_chars := slice_last 4 address in
  let postcode_match := re.search postcode_regex address in
  let postcode :=
    if isdigit last_four_chars then Some last_four_chars
    else match postcode_match with
         | Some (_, group) => Some group
         | None => None
         end in
  (address, postcode).

Definition parse_sale_info (html : HTMLParser) : option str * option str :=
  let sale_info_elem :=
    css_first html "div.css-rxp4mi div.css-1h8fpgv div.css-tmtv67 span.css-1nj9ymt" in
  match sale_info_elem with
  | Some elem =>
    let sale_info_text := strip (text elem) in
    match re.search sale_date_regex sale_info_text with
    | Some (_, sale_date) =>
      (Some (strip (replace sale_info_text sale_date [])), Some sale_date)
    | None => (Some sale_info_text, None)
    end
  | None => (None, None)
  end.

Definition parse_price (html : HTMLParser) : result (option Z) :=
  let price_elem :=
    css_first html "div.css-rxp4mi div.css-1gkcyyc div.css-qrqvvg p.css-mgq8yx" in
  match price_elem with
  | Some elem =>
    let price_text :=
      strip (replace (replace (text elem) (u "$") []) (u ",") []) in
    if isdigit price_text then n ← int_of_str price_text; mret (Some n)
    else mret None
  | None => mret None
  end.

(** [int(t.split()[0]) if t.split()[0].isdigit() else None] *)
Definition leading_int (feature_text : str) : result (option Z) :=
  token ← index0 (split feature_text);
  if isdigit token
  then token ← index0 (split feature_text); n ← int_of_str token; mret (Some n)
  else mret None.

(** One iteration of the loop over the feature elements. *)
Definition feature_step (st : details) (feature_text : str) : result details :=
  let '(bedrooms, baths, parking, area) := st in
  if contains (u "Beds") feature_text then
    bedrooms ← leading_int feature_text; mret (bedrooms, baths, parking, area)
  else if contains (u "Bath") feature_text then
    baths ← leading_int feature_text; mret (bedrooms, baths, parking, area)
  else if contains (u "Parking") feature_text then
    parking ← leading_int feature_text; mret (bedrooms, baths, parking, area)
  else if contains (u "m²") feature_text then
    match re.search area_regex feature_text with
    | Some (_, group) =>
      n ← int_of_str group; mret (bedrooms, baths, parking, Some n)
    | None => mret (bedrooms, baths, parking, None)
    end
  else mret st.

Fixpoint for_features (feature_texts : list str) (st : details) : result details :=
  match feature_texts with
  | [] => mret st
  | feature_text :: rest => st ← feature_step st feature_text; for_features rest st
  end.

Definition parse_property_details (html : HTMLParser) : result details :=
  let features_wrapper :=
    css_first html "div[data-testid='property-features-wrapper']" in
  let feature_elements :=
    match features_wrapper with
    | Some w => css w "span[data-testid='property-features-feature']"
    | None => []
    end in
  for_features (List.map text feature_elements) (None, None, None, None).

Definition parse_sales_page (html : HTMLParser) : option str :=
  let sales_page_elem :=
    css_first html "div.css-qrqvvg a.address.is-two-lines.css-1y2bib4" in
  match sales_page_elem with
  | Some elem =>
    match attributes elem !! "href" with
    | Some v => v
    | None => Some (u "N/A")
    end
  | None => None
  end.

(** The dictionary [parse_html] starts from. *)
Definition default_record : gmap string value :=
  <["sales_page_href" := VNone]> (<["area" := VNone]> (<["parking" := VNone]>
  (<["baths" := VNone]> (<["bedrooms" := VNone]> (<["postcode" := VNone]>
  (<["address" := VNone]> (<["price" := VNone]> (<["sale_date" := VNone]>
  (<["sale_type" := VNone]> ∅))))))))).

(** The body of the [try] block: the dictionary is updated in place, so an
    exception leaves it as the statements before it made it. *)
Definition try_extract (html : HTMLParser) (extracted_data : gmap string value)
  : gmap string value * option exn :=
  let '(sale_type, sale_date) := parse_sale_info html in
  let extracted_data := <["sale_type" := of_str sale_type]> extracted_data in
  let extracted_data := <["sale_date" := of_str sale_date]> extracted_data in
  match parse_price html with
  | Raise e => (extracted_data, Some e)
  | Ok price =>
    let extracted_data := <["price" := of_int price]> extracted_data in
    let address_elem :=
      css_first html
        "div.css-qrqvvg a.address.is-two-lines.css-1y2bib4 h2.css-bqbbuf" in
    let extracted_data :=
      match address_elem with
      | Some elem =>
        let '(address, postcode) := parse_address (text elem) in
        <["postcode" := of_str postcode]>
          (<["address" := VStr address]> extracted_data)
      | None => extracted_data
      end in
    match parse_property_details html with
    | Raise e => (extracted_data, Some e)
    | Ok (bedrooms, baths, parking, area) =>
      let extracted_data := <["bedrooms" := of_int bedrooms]> extracted_data in
      let extracted_data := <["baths" := of_int baths]> extracted_data in
      let extracted_data := <["parking" := of_int parking]> extracted_data in
      let extracted_data := <["area" := of_int area]> extracted_data in
      let extracted_data :=
        <["sales_page_href" := of_str (parse_sales_page html)]> extracted_data in
      (extracted_data, None)
    end
  end.

(** [parse_html], from the parsed document on: the record and what was
    printed.  The [except Exception] clause catches whatever the [try] block
    raises, so the function returns on every document. *)
Definition parse_html (html : HTMLParser) : gmap string value * list line :=
  match try_extract html default_record with
  | (extracted_data, Some e) => (extracted_data, [Error_parsing_HTML e])
  | (extracted_data, None) => (extracted_data, [])
  end.

End Extractor.
Section Sink.
Import Sqlite.
Context `{Engine}.

Definition create_table_sql : stmt :=
  CreateTableIfNotExists "Domain"
    [ {| cname := "id"; ctype := INTEGER; autoincrement := true |};
      {| cname := "sale_type"; ctype := TEXT; autoincrement := false |};
      {| cname := "sale_date"; ctype := TEXT; autoincrement := false |};
      {| cname := "price"; ctype := INTEGER; autoincrement := false |};
      {| cname := "address"; ctype := TEXT; autoincrement := false |};
      {| cname := "postcode"; ctype := INTEGER; autoincrement := false |};
      {| cname := "bedrooms"; ctype := INTEGER; autoincrement := false |};
      {| cname := "baths"; ctype := INTEGER; autoincrement := false |};
      {| cname := "parking"; ctype := INTEGER; autoincrement := false |};
      {| cname := "area"; ctype := INTEGER; autoincrement := false |};
      {| cname := "sales_page_href"; ctype := TEXT; autoincrement := false |} ].

Definition insert_sql : stmt :=
  InsertInto "Domain"
    ["sale_type"; "sale_date"; "price"; "address"; "postcode"; "bedrooms";
     "baths"; "parking"; "area"; "sales_page_href"]
    ["sale_type"; "sale_date"; "price"; "address"; "postcode"; "bedrooms";
     "baths"; "parking"; "area"; "sales_page_href"].

Definition create_table (db : gmap string table) : result (gmap string table) :=
  fst <$> execute create_table_sql ∅ db.

Definition insert_data (db : gmap string table) (data : list (gmap string value))
  : result (gmap string table) :=
  executemany insert_sql data db.

(** "SELECT * FROM Domain", as the modelling script reads the table. *)
Definition select_domain (db : gmap string table) : result (list (list value)) :=
  snd <$> execute (SelectAll "Domain") ∅ db.

End Sink.

(** What [main] prints: the lines of [parse_html] and, after each chunk,
    the progress line with the chunk size it states. *)
Inductive message :=
  | Parsing (l : line)
  | Processed_a_chunk_of_size (n : Z).

Section Main.
Import Sqlite.
Context `{UnicodeData} `{Engine}.

(** [HTMLParser(html_content)]: the parser library turns the markup of a
    row into a document.  The rows are the cells of the "html" column as
    the CSV reader hands them over, chunk by chunk; every cell is taken to
    be a string.  A cell the reader hands over as a number, or as missing,
    makes the parser raise [TypeError] before the [try] block is entered;
    the run on such a file is not modelled. *)
Context (document : str -> HTMLParser).

Definition chunk_size : Z := 10000.

(** The loop over the rows of a chunk. *)
Fixpoint for_rows (rows : list str) (all_data : list (gmap string value))
    (out : list message) : list (gmap string value) * list message :=
  match rows with
  | [] => (all_data, out)
  | html_content :: rows' =>
    let '(extracted_data, printed) := parse_html (document html_content) in
    for_rows rows' (all_data ++ [extracted_data]) (out ++ (Parsing <$> printed))
  end.

(** The loop over the chunks.  [db] is the database as last committed: an
    exception of [insert_data] leaves [main] before the commit, and what
    the open transaction holds is dropped with the connection. *)
Fixpoint for_chunks (chunks : list (list str)) (all_data : list (gmap string value))
    (db : gmap string table) (out : list message)
  : gmap string table * list message * option exn :=
  match chunks with
  | [] => (db, out, None)
  | chunk :: chunks' =>
    let '(all_data, out) := for_rows chunk all_data out in
    match insert_data db all_data with
    | Raise e => (db, out, Some e)
    | Ok db' =>
      let out := out ++ [Processed_a_chunk_of_size chunk_size] in
      let all_data : list (gmap string value) := [] in
      for_chunks chunks' all_data db' out
    end
  end.

(** [main]: the database file as it is left, what was printed, and the
    exception that ended the run, if any. *)
Definition main (chunks : list (list str)) (db : gmap string table)
  : gmap string table * list message * option exn :=
  match create_table db with
  | Raise e => (db, [], Some e)
  | Ok db =>
    let all_data : list (gmap string value) := [] in
    for_chunks chunks all_data db []
  end.

End Main.
End Domain_Parser.

(* ===================================================================== *)
(** * Domain_Scraper.py                                                   *)
(* ===================================================================== *)

Module Domain_Scraper.

(** The two exceptions the fetch client catches. *)
Inductive http_exc := RequestError | HTTPStatusError.

(** What [client.get(url)] followed by [raise_for_status()] comes to: the
    response text, or one of the two exceptions.  Any other exception would
    leave the fetch client uncaught and is outside the model. *)
Inductive outcome :=
  | Success (text : str)
  | Failure (exc : http_exc).

(** The world outside the program: the HTTP client answers a request and
    [random()] draws a float, each from the current state of the world. *)
Class Runtime (W : Type) := {
  client_get : W -> str -> outcome * W;
  random : W -> Q * W
}.

(** [random()] returns a number in [0, 1). *)
Class RuntimeLaws `{Runtime W} : Prop := {
  random_range : forall w, (0 <= fst (random w))%Q /\ (fst (random w) < 1)%Q
}.

(** What the fetch client does that is visible outside it. *)
Inductive event :=
  | Get (url : str) (o : outcome)
  | Print_retry (attempt : Z) (url : str) (wait : Q) (exc : http_exc)
  | Sleep (wait : Q)
  | Print_failed (url : str) (retries : Z).

(** What the enumerator does: a call of the fetch client, with what it did
    and returned, and the message that ends a combination. *)
Inductive step :=
  | Fetch (url : str) (events : list event) (response_text : option str)
  | Print_no_more_matches (postcode beds bath park page : Z).

(** [range(a, b)] *)
Definition range (a b : Z) : list Z := seqZ a (b - a).

(** Truth value of [response_text]: neither [None] nor empty. *)
Definition truthy (response_text : option str) : bool :=
  match response_text with
  | Some (_ :: _) => true
  | _ => false
  end.

(** The enumerator's state: the list being built, what it has done so far
    and the world. *)
Abbreviation state W := (list str * list step * W)%type.

Section Scraper.
Context `{Runtime W}.

(** The [while attempt < retries] loop; [fuel] is [retries - attempt].  The
    delay is the float [(2 ** attempt) + (random.random() * 0.1)]: the
    literal and the product are floats, and the sum converts the power to
    one.  [time.sleep] takes a delay below 2^63 nanoseconds, which every
    delay up to the 33rd is; it raises [OverflowError] on the 34th, a case
    the model does not follow: no caller asks for more than 5 attempts. *)
Fixpoint fetch_loop (fuel : nat) (url : str) (retries attempt : Z) (w : W)
  : option str * list event * W :=
  match fuel with
  | O => (None, [Print_failed url retries], w)
  | S fuel' =>
    let '(o, w) := client_get w url in
    match o with
    | Success text => (Some text, [Get url o], w)
    | Failure exc =>
      let attempt := (attempt + 1)%Z in
      let '(x, w) := random w in
      let wait := float_add (float_of_int (2 ^ attempt))
                            (float_mul x (round (1 # 10))) in
      let '(r, evs, w) := fetch_loop fuel' url retries attempt w in
      (r, Get url o :: Print_retry attempt url wait exc :: Sleep wait :: evs, w)
    end
  end.

(** [retries] defaults to 5, which is what the enumerator calls it with. *)
Definition fetch_property_data (url : str) (retries : Z) (w : W)
  : option str * list event * W :=
  fetch_loop (Z.to_nat retries) url retries 0 w.

Definition search_url (postcode beds bath park page : Z) : str :=
  u "https://www.domain.com.au/sold-listings/?ptype=free-standing&bedrooms="
    ++ str_of_int beds ++ u "&bathrooms=" ++ str_of_int bath
    ++ u "&carspaces=" ++ str_of_int park ++ u "&ssubs=0&postcode="
    ++ str_of_int postcode ++ u "&page=" ++ str_of_int page.

(** The loop over the pages of one combination. *)
Fixpoint page_loop (postcode beds bath park : Z) (pages : list Z)
    (found_no_matches : bool) (st : state W) : state W :=
  match pages with
  | [] => st
  | page :: pages' =>
    if found_no_matches then st
    else
      let '(property_html, steps, w) := st in
      let url := search_url postcode beds bath park page in
      let '(response_text, evs, w) := fetch_property_data url 5 w in
      let steps := steps ++ [Fetch url evs response_text] in
      if truthy response_text then
        let text := default [] response_text in
        if contains (u "No exact matches") text then
          (property_html,
           steps ++ [Print_no_more_matches postcode beds bath park page], w)
        else
          page_loop postcode beds bath park pages' false
                    (property_html ++ [text], steps, w)
      else page_loop postcode beds bath park pages' false (property_html, steps, w)
  end.

Definition for_in {A S} (xs : list A) (body : A -> S -> S) (s : S) : S :=
  fold_left (fun s x => body x s) xs s.

Definition enumerate (postcode : Z) (st : state W) : state W :=
  for_in (range 1 6) (fun beds =>
    for_in (range 0 6) (fun bath =>
      for_in (range 0 6) (fun park =>
        page_loop postcode beds bath park (range 1 50) false))) st.

Definition fetch_postcode_data (postcode : Z) (w : W) : state W :=
  enumerate postcode ([], [], w).

End Scraper.
End Domain_Scraper.

(* ===================================================================== *)
(** * Supplementary_Tables.py                                             *)
(* ===================================================================== *)

(** Of the loaders, the reading of the Valuer General files is the
    program's own code; the tables are built and written by the data-frame
    library, which is not modelled. *)
Module Supplementary_Tables.

(** [line.split(sep)] for a separator of one character: the pieces between
    its occurrences, the empty ones included. *)
Fixpoint split_on (sep : N) (cur line : str) {struct line} : list str :=
  match line with
  | [] => [cur]
  | c :: line' =>
    if (c =? sep)%N then cur :: split_on sep [] line'
    else split_on sep (cur ++ [c]) line'
  end.

(** The loop over the lines of a file. *)
Fixpoint for_lines (lines : list str) (filtered_data : list (list str))
  : result (list (list str)) :=
  match lines with
  | [] => mret filtered_data
  | line :: lines' =>
    let row := split_on 59 [] line in
    first ← index0 row;
    if bool_decide (first = u "B")
    then for_lines lines' (filtered_data ++ [row])
    else for_lines lines' filtered_data
  end.

(** The loop over the files of the data directory, in the order
    [os.listdir] gives them; a file is the list of its lines, each with its
    line end. *)
Fixpoint for_files (files : list (list str)) (filtered_data : list (list str))
  : result (list (list str)) :=
  match files with
  | [] => mret filtered_data
  | file :: files' =>
    filtered_data ← for_lines file filtered_data;
    for_files files' filtered_data
  end.

(** The rows [load_valuer_general_data] makes its table from. *)
Definition filtered_data (files : list (list str)) : result (list (list str)) :=
  for_files files [].

End Supplementary_Tables.

(* ===================================================================== *)
(** * Fixtures: documents and worlds to evaluate the program on           *)
(* ===================================================================== *)

Module Fixtures.
Import Selectolax Domain_Parser Domain_Scraper.

Definition leaf (t : str) : Node := mkNode t ∅ (fun _ => []).

(** A listing card given by what its five queries find: the texts of the
    sale-info, price and address elements, the texts of the feature chips
    under the features wrapper, and the attributes of the address anchor. *)
Definition card (sale price address : option str) (chips : option (list str))
    (anchor : option (gmap string (option str))) : HTMLParser :=
  {| css_first q :=
       if String.eqb q "div.css-rxp4mi div.css-1h8fpgv div.css-tmtv67 span.css-1nj9ymt"
       then leaf <$> sale
       else if String.eqb q "div.css-rxp4mi div.css-1gkcyyc div.css-qrqvvg p.css-mgq8yx"
       then leaf <$> price
       else if String.eqb q "div.css-qrqvvg a.address.is-two-lines.css-1y2bib4 h2.css-bqbbuf"
       then leaf <$> address
       else if String.eqb q "div[data-testid='property-features-wrapper']"
       then (fun l => mkNode [] ∅ (fun _ => leaf <$> l)) <$> chips
       else if String.eqb q "div.css-qrqvvg a.address.is-two-lines.css-1y2bib4"
       then (fun a => mkNode [] a (fun _ => [])) <$> anchor
       else None |}.

(** A world in which every request has the same outcome and [random()]
    always draws 0. *)
Definition always (o : outcome) : Runtime unit :=
  {| client_get _ _ := (o, tt); random _ := (0%Q, tt) |}.

(** A world in which every request fails and [random()] always draws [x]. *)
Definition failing (x : Q) : Runtime unit :=
  {| client_get _ _ := (Failure RequestError, tt); random _ := (x, tt) |}.

End Fixtures.

(* ===================================================================== *)
(** * The vocabulary of the specification                                 *)
(* ===================================================================== *)

(** ** Text *)

Section Vocabulary.
Context `{UnicodeData}.
Import re.

(** The first whitespace-delimited token of a string. *)
Definition leading_token (s : str) : str :=
  take_while (fun c => negb (is_space c)) (drop_while is_space s).

(** The integer a string of decimal digits denotes. *)
Definition digit_of (c : N) : Z := Z.of_N (default 0%N (to_decimal c)).

Definition int_value (s : str) : Z :=
  fold_left (fun a c => (10 * a + digit_of c)%Z) s 0%Z.

(** The upper bound of a repetition, if it has one. *)
Definition within (hi : option nat) (n : nat) : Prop :=
  match hi with Some h => n <= h | None => True end.

(** What a pattern denotes: [matches r prev s m] says that [m] is a prefix
    of [s] the pattern [r] can match, [prev] being the character before. *)
Fixpoint matches (r : regex) (prev : option N) (s m : str) : Prop :=
  match r with
  | [] => m = []
  | One k :: r' =>
    exists c s' m', s = c :: s' /\ m = c :: m' /\ in_cls k c = true
                    /\ matches r' (Some c) s' m'
  | Rep k lo hi :: r' =>
    exists m1 s' m2, s = m1 ++ s' /\ m = m1 ++ m2
      /\ lo <= length m1 /\ within hi (length m1)
      /\ Forall (fun c => in_cls k c = true) m1
      /\ matches r' (prev_after prev m1) s' m2
  | Boundary :: r' => boundary prev s = true /\ matches r' prev s m
  | EndAnchor :: r' => at_end s = true /\ matches r' prev s m
  end.

(** A date as the sale-info pattern reads it: one or two decimal digits, a
    blank, three word characters, a blank, four decimal digits. *)
Definition date_shape (d : str) : Prop :=
  exists dd mon yr, d = dd ++ 32%N :: mon ++ 32%N :: yr
    /\ (length dd = 1 \/ length dd = 2)
    /\ Forall (fun c => is_decimal c = true) dd
    /\ length mon = 3 /\ Forall (fun c => is_word c = true) mon
    /\ length yr = 4 /\ Forall (fun c => is_decimal c = true) yr.

(** A token of four decimal digits that ends the string but for a final
    newline, no word character before it. *)
Definition token_before_newline (a d : str) : Prop :=
  exists pre, a = pre ++ d ++ [10%N] /\ length d = 4
    /\ Forall (fun c => is_decimal c = true) d /\ word_at (last pre) = false.

(** The first maximal run of decimal digits of a string. *)
Definition first_digit_run (s : str) : str :=
  take_while is_decimal (drop_while (fun c => negb (is_decimal c)) s).

End Vocabulary.

(** The month abbreviations a date D[D] MMM YYYY is written with. *)
Definition month_abbreviations : list str :=
  [u "Jan"; u "Feb"; u "Mar"; u "Apr"; u "May"; u "Jun";
   u "Jul"; u "Aug"; u "Sep"; u "Oct"; u "Nov"; u "Dec"].

(** ** Feature chips *)

(** The four details a feature chip can set, in the order the extractor
    tests for them. *)
Inductive field := Bedrooms | Baths | Parking | Area.

Definition get (f : field) (st : Domain_Parser.details) : option Z :=
  let '(bedrooms, baths, parking, area) := st in
  match f with
  | Bedrooms => bedrooms
  | Baths => baths
  | Parking => parking
  | Area => area
  end.

(** The keyword of each detail, and the detail a chip is classified as:
    the first whose keyword the chip's text contains, testing "Beds", then
    "Bath", then "Parking", then "m²". *)
Definition keyword (f : field) : str :=
  match f with
  | Bedrooms => u "Beds"
  | Baths => u "Bath"
  | Parking => u "Parking"
  | Area => u "m²"
  end.

Definition classify (chip : str) : option field :=
  List.find (fun f => contains (keyword f) chip) [Bedrooms; Baths; Parking; Area].

Definition set (f : field) (v : option Z) (st : Domain_Parser.details)
  : Domain_Parser.details :=
  let '(bedrooms, baths, parking, area) := st in
  match f with
  | Bedrooms => (v, baths, parking, area)
  | Baths => (bedrooms, v, parking, area)
  | Parking => (bedrooms, baths, v, area)
  | Area => (bedrooms, baths, parking, v)
  end.

(** The texts of the feature chips of a document, in document order; none
    when the document has no features wrapper. *)
Definition feature_texts (html : Selectolax.HTMLParser) : list str :=
  match Selectolax.css_first html "div[data-testid='property-features-wrapper']" with
  | Some wrapper =>
    Selectolax.text
      <$> Selectolax.css wrapper "span[data-testid='property-features-feature']"
  | None => []
  end.

(** No detail is a negative number. *)
Definition nonneg (st : Domain_Parser.details) : Prop :=
  forall f n, get f st = Some n -> (0 <= n)%Z.

(** ** Requests and responses *)

(** The no-results marker, and what the enumerator does with a response. *)
Definition marker : str := u "No exact matches".

Definition has_marker (response_text : option str) : bool :=
  Domain_Scraper.truthy response_text && contains marker (default [] response_text).

Definition keeps (response_text : option str) : bool :=
  Domain_Scraper.truthy response_text
  && negb (contains marker (default [] response_text)).

(** The requests in a run of the enumerator, with what each returned, and
    the texts of the responses it keeps. *)
Definition responses (steps : list Domain_Scraper.step) : list (str * option str) :=
  omap (fun s => match s with
                 | Domain_Scraper.Fetch url _ r => Some (url, r)
                 | _ => None
                 end) steps.

Definition kept_texts (steps : list Domain_Scraper.step) : list str :=
  omap (fun s => match s with
                 | Domain_Scraper.Fetch _ _ r => if keeps r then r else None
                 | _ => None
                 end) steps.

(** The combinations, in the order the three loops go through them. *)
Definition combinations : list (Z * Z * Z) :=
  beds ← Domain_Scraper.range 1 6; bath ← Domain_Scraper.range 0 6;
  park ← Domain_Scraper.range 0 6; [(beds, bath, park)].

(** What the page loop of one combination requests: the first [k] of the
    given pages, in order; no response before the last has the marker; the
    loop stops short of the last page only on a response with the marker. *)
Definition requests_ok (postcode : Z) (pages : list Z) (c : Z * Z * Z)
    (new : list Domain_Scraper.step) : Prop :=
  let '(beds, bath, park) := c in
  exists k, k <= length pages /\ (pages ≠ [] -> 1 <= k)
    /\ (responses new).*1
       = Domain_Scraper.search_url postcode beds bath park <$> take k pages
    /\ (forall i r, (responses new).*2 !! i = Some r -> S i < k ->
          has_marker r = false)
    /\ (k < length pages ->
        exists r, (responses new).*2 !! (k - 1) = Some r /\ has_marker r = true).

(** The events of a fetch: the requests made and the delays slept. *)
Definition gets (evs : list Domain_Scraper.event) : list str :=
  omap (fun e => match e with Domain_Scraper.Get url _ => Some url | _ => None end) evs.

Definition sleeps (evs : list Domain_Scraper.event) : list Q :=
  omap (fun e => match e with Domain_Scraper.Sleep wait => Some wait | _ => None end) evs.

(** The claim that every fetched page is appended, in the words of the
    specification: whatever text a fetch returned is in the list. *)
Definition appends_every_fetched_page {W} (st : Domain_Scraper.state W) : Prop :=
  let '(property_html, steps, _) := st in
  forall url text, In (url, Some text) (responses steps) -> In text property_html.

(** What the page loop of one combination requests, the pages being 1 to 49:
    pages 1 to [k] in increasing order, [k] at most 49; a response with the
    marker is the last one; the loop stops before page 49 only on the
    marker; after a fetch that returned null the next page is requested. *)
Definition pages_ok (postcode : Z) (c : Z * Z * Z)
    (new : list Domain_Scraper.step) : Prop :=
  let '(beds, bath, park) := c in
  exists k : nat, 1 <= k <= 49
    /\ (responses new).*1
       = Domain_Scraper.search_url postcode beds bath park <$> seqZ 1 (Z.of_nat k)
    /\ (forall i r, (responses new).*2 !! i = Some r -> has_marker r = true ->
          S i = k)
    /\ (k < 49 ->
        exists r, (responses new).*2 !! (k - 1) = Some r /\ has_marker r = true)
    /\ (forall i, (responses new).*2 !! i = Some None -> S i < 49 -> S i < k).

(** ** Rows *)

(** A record with all ten fields populated, as the extractor types them. *)
Record listing := {
  sale_type : str;
  sale_date : str;
  price : Z;
  address : str;
  postcode : str;
  bedrooms : Z;
  baths : Z;
  parking : Z;
  area : Z;
  sales_page_href : str
}.

Definition populated (d : gmap string value) (l : listing) : Prop :=
  d !! "sale_type" = Some (VStr (sale_type l))
  /\ d !! "sale_date" = Some (VStr (sale_date l))
  /\ d !! "price" = Some (VInt (price l))
  /\ d !! "address" = Some (VStr (address l))
  /\ d !! "postcode" = Some (VStr (postcode l))
  /\ d !! "bedrooms" = Some (VInt (bedrooms l))
  /\ d !! "baths" = Some (VInt (baths l))
  /\ d !! "parking" = Some (VInt (parking l))
  /\ d !! "area" = Some (VInt (area l))
  /\ d !! "sales_page_href" = Some (VStr (sales_page_href l)).

(** The integers fit the 64 bits of an INTEGER, and the postcode is either
    written with ASCII digits only or holds a character no number is
    written with. *)
Definition storable (l : listing) : Prop :=
  Sqlite.int64 (price l) = true /\ Sqlite.int64 (bedrooms l) = true
  /\ Sqlite.int64 (baths l) = true /\ Sqlite.int64 (parking l) = true
  /\ Sqlite.int64 (area l) = true
  /\ (Sqlite.ascii_digits (postcode l) = true
      /\ Sqlite.int64 (Sqlite.decimal_value (postcode l)) = true
      \/ forallb Sqlite.numeric_char (postcode l) = false).

(** The postcode as it is read back: under the INTEGER affinity of its
    column the digits have become the integer they denote. *)
Definition postcode_read (p : str) : value :=
  if Sqlite.ascii_digits p then VInt (Sqlite.decimal_value p) else VStr p.

(** The row read back for a listing inserted with row id [id]. *)
Definition row_read (id : Z) (l : listing) : list value :=
  [VInt id; VStr (sale_type l); VStr (sale_date l); VInt (price l);
   VStr (address l); postcode_read (postcode l); VInt (bedrooms l);
   VInt (baths l); VInt (parking l); VInt (area l); VStr (sales_page_href l)].

Definition domain_columns : list Sqlite.column :=
  match Domain_Parser.create_table_sql with
  | Sqlite.CreateTableIfNotExists _ cols => cols
  | _ => []
  end.

(** ** Cards and records to evaluate the extractor and the sink on *)

Section Cards.
Import Selectolax Fixtures.

(** A sale-info text and a price whose last character is a superscript
    two: [isdigit()] accepts it, [int()] does not. *)
Definition card_superscript_price : HTMLParser :=
  card (Some (u "Sold 12 Jan 2023")) (Some (u "$1,250,000²")) None None None.

(** A card with every field present, given the text of its price. *)
Definition card_full (price_text : str) : HTMLParser :=
  card (Some (u "Sold 12 Jan 2023")) (Some price_text)
       (Some (u "12 Smith St, Ultimo 2007"))
       (Some [u "3 Beds"; u "2 Bath"; u "1 Parking"; u "120m²"])
       (Some {["href" := Some (u "/12-smith-st-ultimo-nsw-2007")]}).

Definition listing_full : listing := {|
  sale_type := u "Sold"; sale_date := u "12 Jan 2023"; price := 1250000;
  address := u "12 Smith St, Ultimo 2007"; postcode := u "2007";
  bedrooms := 3; baths := 2; parking := 1; area := 120;
  sales_page_href := u "/12-smith-st-ultimo-nsw-2007"
|}.

End Cards.

(** ** Records as the extractor types them *)

(** The fields of a record, in the order of the INSERT statement. *)
Definition domain_fields : list string :=
  match Domain_Parser.insert_sql with
  | Sqlite.InsertInto _ _ params => params
  | _ => []
  end.

Definition int_field (k : string) : bool :=
  existsb (String.eqb k) ["price"; "bedrooms"; "baths"; "parking"; "area"].

(** A field holds null or a value of its type: an integer for the price and
    the four counts, a string for the others. *)
Definition well_typed (k : string) (v : value) : bool :=
  match v with
  | VNone => true
  | VInt _ => int_field k
  | VStr _ => negb (int_field k)
  end.

Definition typed (d : gmap string value) : Prop :=
  Forall (fun k => exists v, d !! k = Some v /\ well_typed k v = true) domain_fields.

(** A record as the extractor makes it: it has the ten fields and no other
    key, every field is null or of its type, and no integer is negative. *)
Definition field_ok (k : string) (v : value) : Prop :=
  well_typed k v = true /\ forall n, v = VInt n -> (0 <= n)%Z.

Definition extracted (d : gmap string value) : Prop :=
  (forall k, is_Some (d !! k) <-> In k domain_fields) /\ map_Forall field_ok d.

(** The integers of a record fit the 64 bits of an INTEGER, and its
    postcode, if it has one, is written with ASCII digits only or holds a
    character no number is written with. *)
Definition fits (d : gmap string value) : Prop :=
  (forall k n, d !! k = Some (VInt n) -> Sqlite.int64 n = true)
  /\ (forall p, d !! "postcode" = Some (VStr p) ->
        Sqlite.ascii_digits p = true
        /\ Sqlite.int64 (Sqlite.decimal_value p) = true
        \/ forallb Sqlite.numeric_char p = false).

(** A field as it is read back, and the row read back for a record
    inserted with row id [id]. *)
Definition as_read (k : string) (v : value) : value :=
  match v with
  | VStr p => if String.eqb k "postcode" then postcode_read p else v
  | _ => v
  end.

Definition row_of (id : Z) (d : gmap string value) : list value :=
  VInt id :: ((fun k => as_read k (default VNone (d !! k))) <$> domain_fields).

(** A database [main] can work on: it has no Domain table yet, or one with
    the columns of the CREATE statement. *)
Definition domain_ready (db : gmap string Sqlite.table) : Prop :=
  match db !! "Domain" with
  | Some t => Sqlite.columns t = domain_columns
  | None => True
  end.

(** The records extracted from the rows of a chunk, and the lines printed
    while extracting them. *)
Section Chunks.
Context `{UnicodeData} (document : str -> Selectolax.HTMLParser).

Definition records (rows : list str) : list (gmap string value) :=
  (fun html_content => fst (Domain_Parser.parse_html (document html_content)))
    <$> rows.

Definition errors (rows : list str) : list Domain_Parser.message :=
  flat_map (fun html_content =>
              Domain_Parser.Parsing
                <$> snd (Domain_Parser.parse_html (document html_content))) rows.

(** What [main] prints for the chunks it completes: the lines of each
    chunk's rows, then the chunk's progress line. *)
Definition report (chunks : list (list str)) : list Domain_Parser.message :=
  flat_map (fun chunk =>
              errors chunk
              ++ [Domain_Parser.Processed_a_chunk_of_size Domain_Parser.chunk_size])
           chunks.

End Chunks.

(** ** Traces of the fetch client *)

(** A failed attempt as it shows in the trace: the request, the message and
    the sleep.  [attempt] is the counter before the loop was entered. *)
Definition retry_round (url : str) (attempt : Z) (i : nat)
    (x : Domain_Scraper.http_exc * Q) : list Domain_Scraper.event :=
  [Domain_Scraper.Get url (Domain_Scraper.Failure x.1);
   Domain_Scraper.Print_retry (attempt + Z.of_nat i + 1) url x.2 x.1;
   Domain_Scraper.Sleep x.2].

Definition retry_trace (url : str) (attempt : Z)
    (rounds : list (Domain_Scraper.http_exc * Q)) : list Domain_Scraper.event :=
  concat (imap (retry_round url attempt) rounds).

(** How a fetch ends: the successful request, or the message of failure. *)
Definition last_event (url : str) (retries : Z) (response_text : option str)
  : Domain_Scraper.event :=
  match response_text with
  | Some text => Domain_Scraper.Get url (Domain_Scraper.Success text)
  | None => Domain_Scraper.Print_failed url retries
  end.

(** The time slept, in seconds. *)
Definition total (waits : list Q) : Q := fold_right Qplus 0%Q waits.

(** The longest delay after the failure of the given attempt: the float sum
    of the power of two and 0.1. *)
Definition longest_wait (attempt : Z) : Q :=
  float_add (float_of_int (2 ^ attempt)) (round (1 # 10)).

(** A step of the enumerator that is a fetch is a call of the fetch client
    with the default number of retries, from some state of the world. *)
Definition fetched {W} `{Domain_Scraper.Runtime W} (s : Domain_Scraper.step) : Prop :=
  match s with
  | Domain_Scraper.Fetch url evs response_text =>
    exists w0 w1,
      Domain_Scraper.fetch_property_data url 5 w0 = (response_text, evs, w1)
  | _ => True
  end.

(** The HTTP requests of a run of the enumerator, retries included. *)
Definition requests (steps : list Domain_Scraper.step) : list str :=
  flat_map (fun s => match s with
                     | Domain_Scraper.Fetch _ evs _ => gets evs
                     | _ => []
                     end) steps.

(** The part of a search URL that names the combination. *)
Definition combination_part (c : Z * Z * Z) : str :=
  let '(beds, bath, park) := c in
  u "https://www.domain.com.au/sold-listings/?ptype=free-standing&bedrooms="
    ++ str_of_int beds ++ u "&bathrooms=" ++ str_of_int bath
    ++ u "&carspaces=" ++ str_of_int park ++ u "&ssubs=0&postcode=".

(** ** Lines of the Valuer General files *)

(** A line whose first field is "B": the line "B" itself, or one that
    starts with "B;". *)
Definition B_record (line : str) : bool :=
  bool_decide (line = u "B") || startswith line (u "B;").

(** ** More cards *)

Section MoreCards.
Import Selectolax Fixtures.

(** A chip whose leading token is a superscript two. *)
Definition card_superscript_beds : HTMLParser :=
  card None None None (Some [u "² Beds"]) None.

(** A sale-info text with blanks around it. *)
Definition card_padded_sale : HTMLParser :=
  card (Some (u "  Sold at auction 12 Jan 2023  ")) None None None None.

(** A document in which no query finds an element. *)
Definition card_empty : HTMLParser := card None None None None None.

(** A parser under which the markup of a row is the price text of a full
    card, and chunks of such rows: in the second list one price is 2^63. *)
Definition priced (html_content : str) : HTMLParser := card_full html_content.

Definition chunks_fine : list (list str) := [[u "$1"; u "$2"]; [u "$3"]].

Definition chunks_overflow : list (list str) :=
  [[u "$1"]; [u "$2"; u "$9,223,372,036,854,775,808"]; [u "$3"]].

(** A database that holds the Domain table as [create_table] makes it. *)
Definition fresh_table : Sqlite.table :=
  {| Sqlite.columns := domain_columns; Sqlite.sequence := 0; Sqlite.rows := [] |}.

Definition fresh_db : gmap string Sqlite.table := <["Domain" := fresh_table]> ∅.

(** A record with a sale type and a price, its other fields null. *)
Definition record_sparse : gmap string value :=
  <["price" := VInt 1250000]>
    (<["sale_type" := VStr (u "Sold")]> Domain_Parser.default_record).

End MoreCards.

(** ** Proof steps used throughout *)

Ltac unfold_result :=
  unfold mbind, mret, fmap, result_bind, result_ret, result_fmap in *.

Ltac side :=
  solve [ done
        | simpl; lia
        | repeat (simpl; rewrite <- ?app_assoc, ?app_nil_r); done ].

(** A key is one of the ten fields. *)
Ltac is_field := unfold domain_fields; cbn [Domain_Parser.insert_sql In]; tauto.


(* ===================================================================== *)
(** * The character database: the Latin-1 instance is lawful              *)
(* ===================================================================== *)

Lemma below_forallb (n : nat) (P : N -> bool) :
  forallb P (List.map N.of_nat (seq 0 n)) = true ->
  forall c, (c < N.of_nat n)%N -> P c = true.
Proof.
  intros Hall c Hc.
  rewrite forallb_forall in Hall. apply Hall.
  apply in_map_iff. exists (N.to_nat c). split; [lia|].
  apply in_seq. lia.
Qed.

Lemma in_ranges_above (rs : list (N * N)) (bound c : N) :
  forallb (fun r => (snd r <? bound)%N) rs = true ->
  (bound <= c)%N -> in_ranges rs c = false.
Proof.
  unfold in_ranges. induction rs as [|[lo hi] rs IH]; simpl; [done|].
  intros Hb Hc. apply andb_prop in Hb as [Hhi Hrs].
  apply N.ltb_lt in Hhi. simpl in Hhi.
  rewrite IH by done.
  replace (c <=? hi)%N with false by (symmetry; apply N.leb_gt; lia).
  by rewrite andb_false_r.
Qed.

Lemma ascii_decimal_Some c d :
  ascii_decimal c = Some d -> (48 <= c <= 57)%N /\ d = (c - 48)%N.
Proof.
  unfold ascii_decimal.
  destruct (N.leb_spec 48 c), (N.leb_spec c 57); simpl; intros; simplify_eq; lia.
Qed.

Lemma ascii_decimal_digit c :
  (48 <= c <= 57)%N -> ascii_decimal c = Some (c - 48)%N.
Proof.
  intros [H1 H2]. unfold ascii_decimal.
  apply N.leb_le in H1, H2. by rewrite H1, H2.
Qed.

#[global] Instance latin1_laws : @UnicodeLaws latin1.
Proof.
  split.
  - done.
  - intros c Hc. apply Bool.eqb_prop.
    by apply (below_forallb 128
                (fun c => Bool.eqb (is_digit (UnicodeData := latin1) c)
                                   (is_some (ascii_decimal c)))).
  - intros c Hc. apply Bool.eqb_prop.
    by apply (below_forallb 128
                (fun c => Bool.eqb (is_space (UnicodeData := latin1) c)
                                   (ascii_space c))).
  - intros c Hc. apply Bool.eqb_prop.
    by apply (below_forallb 128
                (fun c => Bool.eqb (is_alnum (UnicodeData := latin1) c)
                                   (ascii_alnum c))).
  - intros c d Hd. apply ascii_decimal_Some in Hd. lia.
  - intros c d Hd. apply ascii_decimal_Some in Hd as [Hc _].
    pose proof (below_forallb 58
      (fun c => (c <? 48)%N || is_digit (UnicodeData := latin1) c)
      eq_refl c ltac:(lia)) as Hb.
    apply orb_prop in Hb as [Hb|Hb]; [apply N.ltb_lt in Hb; lia|done].
  - intros c Hc.
    destruct (N.lt_ge_cases c 256) as [Hlt|Hge].
    + pose proof (below_forallb 256
         (fun c => implb (is_digit (UnicodeData := latin1) c)
                         (is_alnum (UnicodeData := latin1) c)) eq_refl c Hlt) as Hb.
      cbv beta in Hb. by rewrite Hc in Hb.
    + exfalso. apply (eq_true_false_abs _ Hc).
      by apply (in_ranges_above _ 256 c).
  - intros c Hc.
    destruct (N.lt_ge_cases c 256) as [Hlt|Hge].
    + pose proof (below_forallb 256
         (fun c => implb (is_space (UnicodeData := latin1) c)
                         (negb (is_alnum (UnicodeData := latin1) c))) eq_refl c Hlt) as Hb.
      cbv beta in Hb. rewrite Hc in Hb. by apply negb_true_iff in Hb.
    + exfalso. apply (eq_true_false_abs _ Hc).
      by apply (in_ranges_above _ 256 c).
Qed.

(* ===================================================================== *)
(** * Strings                                                             *)
(* ===================================================================== *)

Section StrLemmas.
Context `{UnicodeLaws}.

Lemma startswith_spec (s p : str) :
  startswith s p = true <-> exists post, s = p ++ post.
Proof.
  revert s. induction p as [|a p IH]; intros s; simpl.
  - split; [by exists s|done].
  - destruct s as [|b s].
    + split; [done|]. by intros [post Hp].
    + rewrite andb_true_iff, N.eqb_eq, IH. split.
      * intros [-> [post ->]]. by exists post.
      * intros [post Hp]. simplify_eq/=. split; [done|by exists post].
Qed.

Lemma contains_spec (sub s : str) :
  contains sub s = true <-> exists pre post, s = pre ++ sub ++ post.
Proof.
  induction s as [|c s IH]; simpl.
  - rewrite orb_false_r, startswith_spec. split.
    + intros [post Hp]. exists [], post. done.
    + intros (pre & post & Hp). symmetry in Hp.
      apply app_eq_nil in Hp as [-> Hp]. apply app_eq_nil in Hp as [-> ->].
      by exists [].
  - rewrite orb_true_iff, startswith_spec, IH. split.
    + intros [[post Hp]|(pre & post & ->)].
      * exists [], post. done.
      * exists (c :: pre), post. done.
    + intros (pre & post & Hp). destruct pre as [|c' pre]; simpl in Hp.
      * left. eauto.
      * right. simplify_eq. eauto.
Qed.

Lemma drop_while_none (p : N -> bool) (s : str) :
  head (List.map p s) ≠ Some true -> drop_while p s = s.
Proof. destruct s as [|c s]; simpl; [done|]. by destruct (p c). Qed.

Lemma take_drop_while (p : N -> bool) (s : str) :
  take_while p s ++ drop_while p s = s.
Proof. induction s as [|c s IH]; simpl; [done|]. destruct (p c); simpl; congruence. Qed.

Lemma take_while_Forall (p : N -> bool) (s : str) :
  Forall (fun c => p c = true) (take_while p s).
Proof.
  induction s as [|c s IH]; simpl; [constructor|].
  destruct (p c) eqn:E; by constructor.
Qed.

Lemma drop_while_head (p : N -> bool) (s : str) c :
  head (drop_while p s) = Some c -> p c = false.
Proof.
  induction s as [|a s IH]; simpl; [done|].
  destruct (p a) eqn:E; simpl; [done|]. by intros [= <-].
Qed.

Lemma take_while_app (p : N -> bool) (a b : str) :
  Forall (fun c => p c = true) a -> head (List.map p b) ≠ Some true ->
  take_while p (a ++ b) = a.
Proof.
  induction 1 as [|c a Hc _ IH]; simpl; intros Hb.
  - destruct b as [|c b]; simpl in *; [done|]. by destruct (p c).
  - rewrite Hc. f_equal. by apply IH.
Qed.

Lemma drop_while_app (p : N -> bool) (a b : str) :
  Forall (fun c => p c = true) a -> head (List.map p b) ≠ Some true ->
  drop_while p (a ++ b) = b.
Proof.
  induction 1 as [|c a Hc _ IH]; simpl; intros Hb.
  - by apply drop_while_none.
  - rewrite Hc. by apply IH.
Qed.

Lemma take_take_while (p : N -> bool) (s : str) :
  take (List.length (take_while p s)) s = take_while p s.
Proof.
  induction s as [|c s IH]; simpl; [done|].
  destruct (p c); simpl; [by rewrite IH|done].
Qed.

Lemma split_ws_emit (cur s : str) :
  split_ws cur s =
  emit (cur ++ take_while (fun c => negb (is_space c)) s)
       (split_ws [] (drop_while (fun c => negb (is_space c)) s)).
Proof.
  revert cur. induction s as [|c s IH]; intros cur; simpl.
  - by rewrite app_nil_r.
  - destruct (is_space c) eqn:E; simpl.
    + by rewrite E, app_nil_r.
    + rewrite IH. by rewrite <- app_assoc.
Qed.

Lemma split_lstrip (s : str) : split s = split (drop_while is_space s).
Proof.
  unfold split. induction s as [|c s IH]; simpl; [done|].
  destruct (is_space c) eqn:E; simpl; [done|]. by rewrite E.
Qed.

Lemma index0_split (s : str) :
  index0 (split s) =
  match leading_token s with [] => Raise IndexError | t => Ok t end.
Proof.
  rewrite split_lstrip. unfold split, leading_token.
  rewrite split_ws_emit. simpl.
  destruct (drop_while is_space s) as [|c t] eqn:E; simpl; [done|].
  assert (is_space c = false) as ->.
  { apply (drop_while_head is_space s). by rewrite E. }
  done.
Qed.

Lemma index0_split_ok (s : str) :
  leading_token s ≠ [] -> index0 (split s) = Ok (leading_token s).
Proof. rewrite index0_split. by destruct (leading_token s). Qed.

Lemma leading_token_nonempty (s : str) c :
  In c s -> is_space c = false -> leading_token s ≠ [].
Proof.
  unfold leading_token. induction s as [|a s IH]; simpl; [done|].
  intros Hin Hc. destruct (is_space a) eqn:E.
  - destruct Hin as [->|Hin]; [congruence|]. by apply IH.
  - simpl. by rewrite E.
Qed.

Lemma contains_leading_token (kw s : str) k :
  contains kw s = true -> head kw = Some k -> is_space k = false ->
  leading_token s ≠ [].
Proof.
  intros (pre & post & ->)%contains_spec Hk Hs.
  destruct kw as [|k' kw]; simplify_eq/=.
  apply (leading_token_nonempty _ k); [|done].
  apply in_app_iff. right. by left.
Qed.

Lemma isdigit_false (s : str) c :
  In c s -> is_digit c = false -> isdigit s = false.
Proof.
  intros Hin Hc. destruct s as [|a s]; [done|]. unfold isdigit.
  apply not_true_is_false. intros Hall.
  rewrite forallb_forall in Hall. specialize (Hall c Hin). congruence.
Qed.

Lemma isdigit_decimal (s : str) :
  s ≠ [] -> Forall (fun c => is_decimal c = true) s -> isdigit s = true.
Proof.
  intros Hne Hall. destruct s as [|a s]; [done|]. unfold isdigit.
  apply forallb_forall. intros c Hc.
  rewrite Forall_forall in Hall. specialize (Hall c).
  rewrite <- list_elem_of_In in Hc. specialize (Hall Hc).
  unfold is_decimal in Hall. destruct (to_decimal c) as [d|] eqn:E; [|done].
  by eapply decimal_is_digit.
Qed.

(** ** [int()] on a string of decimal digits *)

Lemma to_ascii_decimal c d :
  to_decimal c = Some d -> to_ascii c = (48 + d)%N /\ (d < 10)%N.
Proof.
  intros Hd. split; [|by eapply decimal_range].
  unfold to_ascii. destruct (N.ltb_spec c 127) as [Hc|Hc].
  - rewrite ascii_to_decimal in Hd by lia.
    apply ascii_decimal_Some in Hd. lia.
  - destruct (is_space c) eqn:E.
    + apply space_not_alnum in E.
      erewrite digit_is_alnum in E; [done|]. by eapply decimal_is_digit.
    + by rewrite Hd.
Qed.

Lemma digits_acc_digits (t : list N) (acc : Z) (b : bool) :
  Forall (fun c => (48 <= c <= 57)%N) t -> t ≠ [] \/ b = true ->
  digits_acc acc b t =
  Some (fold_left (fun a c => (10 * a + Z.of_N (c - 48))%Z) t acc).
Proof.
  intros Hall. revert acc b. induction Hall as [|c t Hc _ IH]; intros acc b Hne; simpl.
  - by destruct Hne as [? | ->].
  - replace ((48 <=? c)%N && (c <=? 57)%N) with true
      by (symmetry; apply andb_true_iff; split; apply N.leb_le; lia).
    apply IH. by right.
Qed.

Lemma int_of_str_decimal (s : str) :
  s ≠ [] -> Forall (fun c => is_decimal c = true) s ->
  int_of_str s = Ok (int_value s).
Proof.
  intros Hne Hall.
  assert (Forall (fun c => (48 <= c <= 57)%N) (List.map to_ascii s)) as Hasc.
  { apply Forall_map. eapply Forall_impl; [done|]. intros c Hc. simpl.
    unfold is_decimal in Hc. destruct (to_decimal c) as [d|] eqn:E; [|done].
    apply to_ascii_decimal in E as [-> ?]. lia. }
  assert (forall t : list N, Forall (fun c => (48 <= c <= 57)%N) t ->
            drop_while ctype_space t = t) as Hdrop.
  { intros t Ht. apply drop_while_none. destruct Ht as [|c t Hc _]; simpl; [done|].
    unfold ctype_space.
    destruct (N.leb_spec 9 c), (N.leb_spec c 13), (N.eqb_spec c 32); simpl; try done; lia. }
  unfold int_of_str. rewrite (Hdrop _ Hasc).
  rewrite Hdrop by (by apply Forall_rev). rewrite rev_involutive.
  destruct (List.map to_ascii s) as [|c t] eqn:Et.
  { by destruct s. }
  assert (48 <= c <= 57)%N as Hc by (by inversion Hasc).
  destruct (N.eqb_spec c 43); [lia|]. destruct (N.eqb_spec c 45); [lia|].
  rewrite digits_acc_digits by (done || by left). f_equal.
  unfold int_value. rewrite <- Et. clear -Hall H0.
  generalize 0%Z. induction Hall as [|a s Ha _ IH]; intros acc; simpl; [done|].
  rewrite IH. do 2 f_equal. unfold digit_of, is_decimal in *.
  destruct (to_decimal a) as [d|] eqn:E; [|done].
  apply to_ascii_decimal in E as [-> ?]. simpl. lia.
Qed.

End StrLemmas.

(* ===================================================================== *)
(** * The pattern matcher                                                 *)
(* ===================================================================== *)

Section RegexLemmas.
Context `{UnicodeData}.
Import re.

Lemma matches_prefix r prev s m : matches r prev s m -> exists post, s = m ++ post.
Proof.
  revert prev s m. induction r as [|[k|k lo hi| |] r IH]; intros prev s m; simpl.
  - intros ->. by exists s.
  - intros (c & s' & m' & -> & -> & _ & Hm).
    apply IH in Hm as [post ->]. by exists post.
  - intros (m1 & s' & m2 & -> & -> & _ & _ & _ & Hm).
    apply IH in Hm as [post ->]. exists post. by rewrite <- app_assoc.
  - intros [_ Hm]. by eapply IH.
  - intros [_ Hm]. by eapply IH.
Qed.

Lemma first_down_Some {A} (f : nat -> option A) lo d a :
  first_down f lo d = Some a -> exists j, lo <= j <= lo + d /\ f j = Some a.
Proof.
  induction d as [|d IH]; simpl.
  - destruct (f (lo + 0)) eqn:E; [|done]. intros [= ->]. exists (lo + 0). split; [lia|done].
  - destruct (f (lo + S d)) eqn:E.
    + intros [= ->]. exists (lo + S d). split; [lia|done].
    + intros (j & Hj & Hf)%IH. exists j. split; [lia|done].
Qed.

Lemma first_down_None {A} (f : nat -> option A) lo d :
  first_down f lo d = None -> forall j, lo <= j <= lo + d -> f j = None.
Proof.
  induction d as [|d IH]; simpl.
  - destruct (f (lo + 0)) eqn:E; [done|]. intros _ j Hj.
    by replace j with (lo + 0) by lia.
  - destruct (f (lo + S d)) eqn:E; [done|]. intros Hd j Hj.
    destruct (decide (j = lo + S d)) as [->|Hne]; [done|].
    apply IH; [done|lia].
Qed.

Lemma take_while_length_app (p : N -> bool) (m1 s' : str) :
  Forall (fun c => p c = true) m1 ->
  length m1 <= length (take_while p (m1 ++ s')).
Proof.
  induction 1 as [|c m1 Hc _ IH]; simpl; [lia|]. rewrite Hc. simpl. lia.
Qed.

Lemma run_take k hi s j :
  j <= run k hi s ->
  length (take j s) = j /\ within hi j
  /\ Forall (fun c => in_cls k c = true) (take j s).
Proof.
  unfold run. intros Hj.
  set (tw := take_while (in_cls k) s) in *.
  assert (j <= length tw) as Hjt by (destruct hi; lia).
  assert (s = tw ++ drop_while (in_cls k) s) as Hs
    by (symmetry; apply take_drop_while).
  split_and!.
  - rewrite length_take. rewrite Hs, length_app. lia.
  - destruct hi; simpl; [lia|done].
  - rewrite Hs, take_app_le by done. apply Forall_take, take_while_Forall.
Qed.

Lemma run_ge k hi m1 s' :
  Forall (fun c => in_cls k c = true) m1 -> within hi (length m1) ->
  length m1 <= run k hi (m1 ++ s').
Proof.
  intros Hall Hhi. unfold run.
  pose proof (take_while_length_app (in_cls k) m1 s' Hall).
  destruct hi; simpl in *; lia.
Qed.

Theorem match_here_sound r prev s m :
  match_here r prev s = Some m -> matches r prev s m.
Proof.
  revert prev s m. induction r as [|[k|k lo hi| |] r IH]; intros prev s m; simpl.
  - by intros [= <-].
  - destruct s as [|c s']; [done|].
    destruct (in_cls k c) eqn:E; [|done].
    destruct (match_here r (Some c) s') as [m'|] eqn:Em; [|done].
    intros [= <-]. exists c, s', m'. split_and!; try done. by apply IH.
  - destruct (Nat.ltb_spec (run k hi s) lo) as [|Hlo]; [done|].
    intros (j & Hj & Hf)%first_down_Some.
    destruct (match_here r _ (drop j s)) as [m2|] eqn:Em; [|done].
    simpl in Hf. injection Hf as <-.
    destruct (run_take k hi s j) as (Hlen & Hhi & Hall); [lia|].
    exists (take j s), (drop j s), m2. rewrite Hlen.
    split_and!; [by rewrite take_drop|done|lia|done|done|by apply IH].
  - destruct (boundary prev s); [|done]. intros Hm. split; [done|by apply IH].
  - destruct (at_end s); [|done]. intros Hm. split; [done|by apply IH].
Qed.

Theorem match_here_complete r prev s m :
  matches r prev s m -> is_Some (match_here r prev s).
Proof.
  revert prev s m. induction r as [|[k|k lo hi| |] r IH]; intros prev s m; simpl.
  - done.
  - intros (c & s' & m' & -> & -> & Hc & Hm). rewrite Hc.
    apply IH in Hm as [m'' ->]. done.
  - intros (m1 & s' & m2 & -> & -> & Hlo & Hhi & Hall & Hm).
    pose proof (run_ge k hi m1 s' Hall Hhi) as Hrun.
    destruct (Nat.ltb_spec (run k hi (m1 ++ s')) lo) as [|_]; [lia|].
    match goal with |- is_Some (first_down ?f _ _) =>
      destruct (first_down f lo (run k hi (m1 ++ s') - lo)) as [a|] eqn:E
    end; [done|].
    eapply first_down_None in E; [|split; [exact Hlo|lia]].
    rewrite take_app_length, drop_app_length in E.
    apply IH in Hm as [m'' Hm]. by rewrite Hm in E.
  - intros [-> Hm]. by eapply IH.
  - intros [-> Hm]. by eapply IH.
Qed.

Lemma prev_after_cons prev c pre :
  prev_after prev (c :: pre) = prev_after (Some c) pre.
Proof. unfold prev_after. rewrite last_cons. by destruct (last pre). Qed.

Lemma search_from_Some r pos prev s i m :
  search_from r pos prev s = Some (i, m) ->
  exists pre post, s = pre ++ m ++ post /\ i = pos + length pre
    /\ match_here r (prev_after prev pre) (m ++ post) = Some m
    /\ forall pre' suf, s = pre' ++ suf -> length pre' < length pre ->
         match_here r (prev_after prev pre') suf = None.
Proof.
  revert pos prev. induction s as [|c s IH]; intros pos prev; simpl.
  - destruct (match_here r prev []) as [m'|] eqn:E; [|done].
    intros [= <- <-]. pose proof (match_here_sound _ _ _ _ E) as [post Hp]%matches_prefix.
    symmetry in Hp. apply app_eq_nil in Hp as [-> ->].
    exists [], []. split_and!; simpl; try done; lia.
  - destruct (match_here r prev (c :: s)) as [m'|] eqn:E.
    + intros [= <- <-].
      pose proof (match_here_sound _ _ _ _ E) as [post Hp]%matches_prefix.
      exists [], post. rewrite <- Hp. split_and!; simpl; try done; lia.
    + intros (pre & post & -> & -> & Hm & Hbefore)%IH.
      exists (c :: pre), post. split_and!; simpl.
      * done.
      * lia.
      * by rewrite prev_after_cons.
      * intros pre' suf Hs Hlen. destruct pre' as [|c' pre']; simpl in *.
        { by subst suf. }
        injection Hs as <- Hs. rewrite prev_after_cons.
        apply Hbefore; [done|lia].
Qed.

Lemma search_from_None r pos prev s :
  search_from r pos prev s = None ->
  forall pre suf, s = pre ++ suf -> match_here r (prev_after prev pre) suf = None.
Proof.
  revert pos prev. induction s as [|c s IH]; intros pos prev; simpl.
  - destruct (match_here r prev []) eqn:E; [done|]. intros _ pre suf Hs.
    symmetry in Hs. apply app_eq_nil in Hs as [-> ->]. done.
  - destruct (match_here r prev (c :: s)) eqn:E; [done|].
    intros Hs pre suf Hp. destruct pre as [|c' pre]; simpl in *.
    + by subst suf.
    + injection Hp as <- Hp. rewrite prev_after_cons. by eapply IH.
Qed.

(** The leftmost match: [search] finds the first position at which the
    pattern can match. *)
Theorem search_leftmost r s pre m post :
  s = pre ++ m ++ post ->
  matches r (prev_after None pre) (m ++ post) m ->
  (forall pre' suf m', s = pre' ++ suf -> length pre' < length pre ->
     ~ matches r (prev_after None pre') suf m') ->
  exists m', search r s = Some (length pre, m')
             /\ matches r (prev_after None pre) (m ++ post) m'.
Proof.
  intros Hs Hm Hleft. unfold search.
  destruct (search_from r 0 None s) as [[i m']|] eqn:E.
  - apply search_from_Some in E as (pre1 & post1 & Hs1 & -> & Hm1 & Hbefore).
    destruct (Nat.lt_trichotomy (length pre) (length pre1)) as [Hlt|[Heq|Hgt]].
    + specialize (Hbefore pre (m ++ post) Hs Hlt).
      apply match_here_complete in Hm as [? Hm]. congruence.
    + rewrite Hs in Hs1. apply app_inj_1 in Hs1 as [-> Hs1]; [|done].
      exists m'. rewrite Hs1. split; [done|]. by apply match_here_sound.
    + exfalso. eapply (Hleft pre1 (m' ++ post1) m'); [done|done|].
      by apply match_here_sound.
  - eapply search_from_None in E; [|exact Hs].
    apply match_here_complete in Hm as [? Hm]. congruence.
Qed.

Theorem search_None r s :
  (forall pre suf m, s = pre ++ suf -> ~ matches r (prev_after None pre) suf m) ->
  search r s = None.
Proof.
  intros Hno. unfold search.
  destruct (search_from r 0 None s) as [[i m]|] eqn:E; [|done].
  apply search_from_Some in E as (pre & post & Hs & _ & Hm & _).
  exfalso. eapply Hno; [exact Hs|]. by apply match_here_sound.
Qed.

End RegexLemmas.

(* ===================================================================== *)
(** * The three patterns of the extractor                                 *)
(* ===================================================================== *)

Section PatternLemmas.
Context `{UnicodeLaws}.
Import re Domain_Parser.

Lemma blank_not_decimal : is_decimal 32 = false.
Proof. unfold is_decimal. by rewrite ascii_to_decimal. Qed.

Lemma matches_date prev s m :
  matches sale_date_regex prev s m <-> date_shape m /\ exists post, s = m ++ post.
Proof.
  split.
  - intros Hm. split; [|by eapply matches_prefix].
    simpl in Hm.
    destruct Hm as (dd & s1 & m1 & -> & -> & Hlo & Hhi & Hdd & Hm).
    destruct Hm as (c1 & s2 & m2 & -> & -> & Hc1 & Hm).
    destruct Hm as (mon & s3 & m3 & -> & -> & Hlo3 & Hhi3 & Hmon & Hm).
    destruct Hm as (c2 & s4 & m4 & -> & -> & Hc2 & Hm).
    destruct Hm as (yr & s5 & m5 & -> & -> & Hlo5 & Hhi5 & Hyr & ->).
    apply N.eqb_eq in Hc1 as ->. apply N.eqb_eq in Hc2 as ->.
    exists dd, mon, yr. rewrite app_nil_r.
    split_and!; try done; simpl in *; lia.
  - intros [(dd & mon & yr & -> & Hdd & Hdec & Hmon & Hword & Hyr & Hydec) [post ->]].
    simpl.
    exists dd, (32%N :: mon ++ 32%N :: yr ++ post), (32%N :: mon ++ 32%N :: yr).
    split_and!; try side.
    exists 32%N, (mon ++ 32%N :: yr ++ post), (mon ++ 32%N :: yr).
    split_and!; try side.
    exists mon, (32%N :: yr ++ post), (32%N :: yr).
    split_and!; try side.
    exists 32%N, (yr ++ post), yr. split_and!; try side.
    exists yr, post, []. split_and!; try side.
Qed.

(** At a given position there is at most one date. *)
Lemma date_shape_unique d1 d2 p1 p2 :
  date_shape d1 -> date_shape d2 -> d1 ++ p1 = d2 ++ p2 -> d1 = d2.
Proof.
  intros (dd1 & mon1 & yr1 & -> & Hl1 & Hd1 & Hm1 & _ & Hy1 & _).
  intros (dd2 & mon2 & yr2 & -> & Hl2 & Hd2 & Hm2 & _ & Hy2 & _) Heq.
  assert (length dd1 = length dd2) as Hlen.
  { destruct dd1 as [|a1 [|b1 [|]]], dd2 as [|a2 [|b2 [|]]];
      simpl in *; try lia; simplify_eq/=.
    - inversion Hd2 as [|? ? _ Hb]. inversion Hb as [|? ? Hb' _].
      by rewrite blank_not_decimal in Hb'.
    - inversion Hd1 as [|? ? _ Hb]. inversion Hb as [|? ? Hb' _].
      by rewrite blank_not_decimal in Hb'. }
  apply app_inj_1 in Heq as [Heq _]; [done|].
  rewrite !length_app. simpl. rewrite !length_app. simpl. lia.
Qed.

Lemma search_date_found (t pre d post : str) :
  t = pre ++ d ++ post -> date_shape d ->
  (forall pre' d' post', t = pre' ++ d' ++ post' -> date_shape d' ->
     length pre <= length pre') ->
  search sale_date_regex t = Some (length pre, d).
Proof.
  intros Ht Hd Hleft.
  destruct (search_leftmost sale_date_regex t pre d post) as (m' & -> & Hm'); try done.
  - apply matches_date. split; [done|by exists post].
  - intros pre' suf m' Hs Hlt [Hd' [post' ->]]%matches_date.
    specialize (Hleft pre' m' post' Hs Hd'). lia.
  - apply matches_date in Hm' as [Hd' [post' Hp]].
    do 2 f_equal. symmetry. by eapply date_shape_unique.
Qed.

Lemma search_date_none (t : str) :
  (forall pre d post, t = pre ++ d ++ post -> ~ date_shape d) ->
  search sale_date_regex t = None.
Proof.
  intros Hno. apply search_None.
  intros pre suf m Hs [Hd [post ->]]%matches_date. by eapply Hno.
Qed.

(** What the search for a date returns: the leftmost date of the text, or
    nothing when the text holds no date. *)
Lemma search_date_spec (t : str) :
  match search sale_date_regex t with
  | Some (i, d) =>
    exists pre post, t = pre ++ d ++ post /\ length pre = i /\ date_shape d
      /\ forall pre' d' post', t = pre' ++ d' ++ post' -> date_shape d' ->
           length pre <= length pre'
  | None => forall pre d post, t = pre ++ d ++ post -> ~ date_shape d
  end.
Proof.
  unfold search. destruct (search_from sale_date_regex 0 None t) as [[i d]|] eqn:E.
  - apply search_from_Some in E as (pre & post & Ht & -> & Hm & Hbefore).
    exists pre, post. split_and!; try done.
    + by apply match_here_sound, matches_date in Hm as [Hd _].
    + intros pre' d' post' Ht' Hd'.
      destruct (decide (length pre <= length pre')) as [|Hlt]; [done|].
      assert (is_Some (match_here sale_date_regex (prev_after None pre') (d' ++ post')))
        as [? Hsome].
      { eapply match_here_complete, matches_date. split; [done|by exists post']. }
      rewrite (Hbefore pre' (d' ++ post')) in Hsome; [done|done|lia].
  - intros pre d post Ht Hd.
    eapply search_from_None in E; [|exact Ht].
    assert (is_Some (match_here sale_date_regex (prev_after None pre) (d ++ post)))
      as [? Hsome].
    { eapply match_here_complete, matches_date. split; [done|by exists post]. }
    congruence.
Qed.

Lemma decimal_is_word c : is_decimal c = true -> is_word c = true.
Proof.
  unfold is_decimal, is_word. destruct (to_decimal c) as [d|] eqn:E; [|done].
  intros _. erewrite digit_is_alnum; [done|]. by eapply decimal_is_digit.
Qed.

Lemma newline_not_word : is_word 10 = false.
Proof. unfold is_word. by rewrite ascii_is_alnum. Qed.

Lemma matches_postcode prev s m :
  matches postcode_regex prev s m <->
  length m = 4 /\ Forall (fun c => is_decimal c = true) m
  /\ (s = m \/ s = m ++ [10%N]) /\ word_at prev = false.
Proof.
  split.
  - simpl. intros (Hb & m1 & s' & m2 & -> & -> & Hlo & Hhi & Hall & Hb' & Hend & ->).
    rewrite app_nil_r. simpl in Hhi.
    destruct m1 as [|c1 [|c2 [|c3 [|c4 [|]]]]]; simpl in *; try lia.
    inversion Hall as [|? ? Hc1 _]; subst.
    apply decimal_is_word in Hc1. unfold boundary in Hb. simpl in Hb.
    rewrite Hc1 in Hb. split_and!; try done.
    + destruct s' as [|x [|]]; simpl in *; try done; [by left|].
      apply N.eqb_eq in Hend as ->. by right.
    + by destruct (word_at prev).
  - intros (Hlen & Hall & Hs & Hprev).
    destruct m as [|c1 [|c2 [|c3 [|c4 [|]]]]]; simpl in *; try lia.
    assert (is_word c1 = true) as Hc1.
    { apply decimal_is_word. rewrite !Forall_cons in Hall. tauto. }
    assert (is_word c4 = true) as Hc4.
    { apply decimal_is_word.
      rewrite !Forall_cons in Hall. tauto. }
    split.
    { unfold boundary. destruct Hs as [-> | ->]; simpl; by rewrite Hprev, Hc1. }
    exists [c1; c2; c3; c4], (drop 4 s), [].
    split_and!; try done; try (simpl; lia).
    + by destruct Hs as [-> | ->].
    + unfold boundary, prev_after. simpl.
      destruct Hs as [-> | ->]; simpl; rewrite Hc4; [done|].
      by rewrite newline_not_word.
    + by destruct Hs as [-> | ->].
Qed.
Lemma drop_while_app_stop (p : N -> bool) (a b : str) :
  head (List.map p b) = Some false -> drop_while p (a ++ b) = drop_while p a ++ b.
Proof.
  intros Hb. induction a as [|c a IH]; simpl.
  - apply drop_while_none. by rewrite Hb.
  - by destruct (p c).
Qed.

Lemma decimal_not_space c : is_decimal c = true -> is_space c = false.
Proof.
  intros Hc. destruct (is_space c) eqn:E; [|done].
  apply space_not_alnum in E.
  unfold is_decimal in Hc. destruct (to_decimal c) as [d|] eqn:Ed; [|done].
  erewrite digit_is_alnum in E; [done|]. by eapply decimal_is_digit.
Qed.

Lemma date_shape_ends d :
  date_shape d ->
  exists c1 c2, head d = Some c1 /\ last d = Some c2
    /\ is_space c1 = false /\ is_space c2 = false.
Proof.
  intros (dd & mon & yr & -> & Hl & Hdd & _ & _ & Hy & Hyr).
  destruct dd as [|c1 dd]; [simpl in Hl; lia|].
  destruct (last yr) as [c2|] eqn:Elast.
  - exists c1, c2. split_and!.
    + done.
    + rewrite app_comm_cons, last_app, last_cons, last_app, last_cons, Elast. done.
    + apply decimal_not_space. by inversion Hdd.
    + apply decimal_not_space. apply last_Some in Elast as [yr' ->].
      rewrite Forall_app, Forall_singleton in Hyr. tauto.
  - apply last_None in Elast. subst. simpl in Hy. lia.
Qed.

Lemma strip_around (pre d post : str) c1 c2 :
  head d = Some c1 -> last d = Some c2 ->
  is_space c1 = false -> is_space c2 = false ->
  strip (pre ++ d ++ post) = lstrip pre ++ d ++ rstrip post.
Proof.
  intros Hh Hl Hc1 Hc2. unfold strip, lstrip, rstrip.
  rewrite drop_while_app_stop.
  2:{ destruct d as [|x d]; simplify_eq/=. by rewrite Hc1. }
  rewrite !rev_app_distr, <- !app_assoc.
  rewrite drop_while_app_stop.
  2:{ apply last_Some in Hl as [d' ->]. rewrite rev_app_distr. simpl. by rewrite Hc2. }
  by rewrite !rev_app_distr, !rev_involutive, <- !app_assoc.
Qed.

Lemma strip_inside (s : str) : exists l r, s = l ++ strip s ++ r.
Proof.
  exists (take_while is_space s), (rev (take_while is_space (rev (lstrip s)))).
  unfold strip, rstrip.
  rewrite <- rev_app_distr, take_drop_while, rev_involutive.
  unfold lstrip. by rewrite take_drop_while.
Qed.

(** A text contains a date exactly when the trimmed text does. *)
Lemma date_in_trimmed (s : str) :
  (exists pre d post, s = pre ++ d ++ post /\ date_shape d) <->
  (exists pre d post, strip s = pre ++ d ++ post /\ date_shape d).
Proof.
  split.
  - intros (pre & d & post & -> & Hd).
    destruct (date_shape_ends d Hd) as (c1 & c2 & Hh & Hl & Hc1 & Hc2).
    exists (lstrip pre), d, (rstrip post). split; [|done].
    by eapply strip_around.
  - intros (pre & d & post & Hs & Hd).
    destruct (strip_inside s) as (l & r & Hlr).
    exists (l ++ pre), d, (post ++ r). split; [|done].
    rewrite Hlr at 1. rewrite Hs. by rewrite <- !app_assoc.
Qed.
Lemma prev_after_None (pre : str) : prev_after None pre = last pre.
Proof. unfold prev_after. by destruct (last pre). Qed.

Lemma search_postcode_token (a d : str) :
  token_before_newline a d ->
  exists i, search postcode_regex a = Some (i, d).
Proof.
  intros (pre & Ha & Hlen & Hall & Hprev).
  destruct (search_leftmost postcode_regex a pre d [10%N]) as (m & Hs & Hm).
  - done.
  - apply matches_postcode. rewrite prev_after_None. split_and!; try done. by right.
  - intros pre' suf m' Ha' Hlt (Hlen' & _ & Hsuf & _)%matches_postcode.
    apply (f_equal length) in Ha'. rewrite Ha, !length_app in Ha'. simpl in Ha'.
    destruct Hsuf as [-> | ->]; rewrite ?length_app in Ha'; simpl in Ha'; lia.
  - exists (length pre). rewrite Hs. do 2 f_equal.
    apply matches_postcode in Hm as (Hlen' & _ & Hsuf & _).
    destruct Hsuf as [Hsuf | Hsuf].
    + apply (f_equal length) in Hsuf. rewrite length_app in Hsuf. simpl in Hsuf. lia.
    + apply app_inj_2 in Hsuf as [Hsuf _]; [done|done].
Qed.

Lemma slice_last_app (pre m : str) (n : nat) :
  length m = n -> slice_last n (pre ++ m) = m.
Proof.
  intros Hlen. unfold slice_last. apply drop_app_length'.
  rewrite length_app. lia.
Qed.

Lemma search_postcode_none (a : str) :
  isdigit (slice_last 4 a) = false ->
  (forall d, ~ token_before_newline a d) ->
  search postcode_regex a = None.
Proof.
  intros Hlast Hno. apply search_None.
  intros pre suf m Ha (Hlen & Hall & Hsuf & Hprev)%matches_postcode.
  rewrite prev_after_None in Hprev. destruct Hsuf as [-> | ->].
  - rewrite Ha, slice_last_app in Hlast by done.
    rewrite isdigit_decimal in Hlast; [done| |done]. by destruct m.
  - apply (Hno m). by exists pre.
Qed.

(** ** [replace] at the first occurrence *)

Lemma replace_go_skip (old new a b : str) :
  replace_go old new (length a) (a ++ b) = replace_go old new 0 b.
Proof.
  induction a as [|c a IH]; simpl; [|done].
  by destruct b.
Qed.

Lemma replace_first (t old new pre post : str) :
  old ≠ [] -> t = pre ++ old ++ post ->
  (forall pre' post', t = pre' ++ old ++ post' -> length pre <= length pre') ->
  replace t old new = pre ++ new ++ replace post old new.
Proof.
  intros Hne -> Hfirst. destruct old as [|o old]; [done|]. unfold replace.
  induction pre as [|c pre IH].
  - cbn [app replace_go].
    replace (startswith (o :: old ++ post) (o :: old)) with true
      by (symmetry; apply startswith_spec; by exists post).
    f_equal. cbn [length]. rewrite Nat.sub_succ, Nat.sub_0_r.
    apply replace_go_skip.
  - cbn [app replace_go].
    destruct (startswith _ _) eqn:E.
    + apply startswith_spec in E as [post' E].
      specialize (Hfirst [] post' E). simpl in Hfirst. lia.
    + f_equal. apply IH. intros pre' post' E'.
      specialize (Hfirst (c :: pre') post').
      cbn [app length] in Hfirst, E'. rewrite <- E' in Hfirst.
      specialize (Hfirst eq_refl). lia.
Qed.

(** ** The first run of decimal digits *)

Lemma first_down_top {A} (f : nat -> option A) lo d a :
  f (lo + d) = Some a -> first_down f lo d = Some a.
Proof. intros Hf. destruct d; simpl; by rewrite Hf. Qed.

Lemma match_here_area prev (s : str) :
  match_here area_regex prev s =
  match take_while is_decimal s with [] => None | m => Some m end.
Proof.
  unfold area_regex. cbn [match_here]. unfold run.
  change (in_cls Digit) with is_decimal.
  pose proof (take_take_while is_decimal s) as Htake.
  destruct (take_while is_decimal s) as [|c m] eqn:E; [by simpl|].
  cbv zeta. cbn [length]. replace (S (length m) <? 1) with false
    by (symmetry; apply Nat.ltb_ge; lia).
  apply first_down_top.
  replace (1 + (S (length m) - 1)) with (S (length m)) by lia.
  cbn [length] in Htake. rewrite Htake. simpl. by rewrite app_nil_r.
Qed.

Lemma search_from_area pos prev (s : str) :
  search_from area_regex pos prev s =
  match first_digit_run s with
  | [] => None
  | m => Some (pos + length (take_while (fun c => negb (is_decimal c)) s), m)
  end.
Proof.
  unfold first_digit_run.
  revert pos prev. induction s as [|c s IH]; intros pos prev.
  - done.
  - cbn [search_from]. rewrite match_here_area. cbn [take_while drop_while].
    destruct (is_decimal c) eqn:E; cbn [negb].
    + cbn [take_while]. rewrite E. simpl. do 2 f_equal. lia.
    + rewrite IH. destruct (take_while _ (drop_while _ s)); [done|].
      simpl. do 2 f_equal. lia.
Qed.

Lemma search_area (s : str) :
  snd <$> search area_regex s =
  match first_digit_run s with [] => None | m => Some m end.
Proof.
  unfold search. rewrite search_from_area.
  by destruct (first_digit_run s).
Qed.

Lemma first_digit_run_decimal (s : str) :
  Forall (fun c => is_decimal c = true) (first_digit_run s).
Proof. apply take_while_Forall. Qed.

End PatternLemmas.

(* ===================================================================== *)
(** * The field extractor                                                 *)
(* ===================================================================== *)

Section FeatureLemmas.
Context `{UnicodeLaws}.
Import re Domain_Parser.

Lemma leading_int_decimal (chip : str) :
  leading_token chip ≠ [] ->
  Forall (fun c => is_decimal c = true) (leading_token chip) ->
  leading_int chip = Ok (Some (int_value (leading_token chip))).
Proof.
  intros Hne Hall. unfold leading_int. rewrite index0_split_ok by done.
  cbn [mbind result_bind]. rewrite isdigit_decimal by done.
  cbn [mbind result_bind]. by rewrite int_of_str_decimal.
Qed.

Lemma leading_int_nondigit (chip : str) c :
  In c (leading_token chip) -> is_digit c = false ->
  leading_int chip = Ok None.
Proof.
  intros Hin Hc. unfold leading_int.
  rewrite index0_split_ok by (by destruct (leading_token chip)).
  cbn [mbind result_bind]. by rewrite (isdigit_false _ c).
Qed.

Lemma keyword_token (f : field) (chip : str) :
  f ≠ Area -> contains (keyword f) chip = true -> leading_token chip ≠ [].
Proof.
  intros Hf Hc.
  destruct f; try done;
    (eapply contains_leading_token; [exact Hc|reflexivity|];
     by rewrite ascii_is_space).
Qed.

(** The area branch never raises: the digits the pattern finds convert. *)
Lemma area_value (chip : str) :
  match search area_regex chip with
  | Some (_, group) => n ← int_of_str group; mret (Some n)
  | None => mret None
  end =
  Ok (match first_digit_run chip with [] => None | m => Some (int_value m) end).
Proof.
  pose proof (search_area chip) as Hs.
  pose proof (first_digit_run_decimal chip) as Hd.
  destruct (search area_regex chip) as [[i g]|]; simpl in Hs.
  - destruct (first_digit_run chip) as [|c m] eqn:E; [done|].
    injection Hs as ->. by rewrite int_of_str_decimal.
  - by destruct (first_digit_run chip).
Qed.

(** What one chip does, by the detail it is classified as. *)
Lemma feature_step_classified (st : details) (chip : str) :
  feature_step st chip =
  let '(bedrooms, baths, parking, area) := st in
  match classify chip with
  | Some Bedrooms => v ← leading_int chip; mret (v, baths, parking, area)
  | Some Baths => v ← leading_int chip; mret (bedrooms, v, parking, area)
  | Some Parking => v ← leading_int chip; mret (bedrooms, baths, v, area)
  | Some Area =>
    Ok (bedrooms, baths, parking,
        match first_digit_run chip with [] => None | m => Some (int_value m) end)
  | None => Ok st
  end.
Proof.
  destruct st as [[[bedrooms baths] parking] area].
  unfold feature_step, classify. cbn [List.find keyword].
  destruct (contains (u "Beds") chip); [done|].
  destruct (contains (u "Bath") chip); [done|].
  destruct (contains (u "Parking") chip); [done|].
  destruct (contains (u "m²") chip); [|done].
  pose proof (area_value chip) as Ha.
  destruct (search area_regex chip) as [[i g]|]; unfold_result.
  - destruct (int_of_str g); [|done]. by injection Ha as <-.
  - by injection Ha as <-.
Qed.

Lemma feature_step_other (st st' : details) (chip : str) (f : field) :
  feature_step st chip = Ok st' -> classify chip ≠ Some f -> get f st' = get f st.
Proof.
  rewrite feature_step_classified.
  destruct st as [[[bedrooms baths] parking] area].
  destruct (classify chip) as [[]|]; unfold_result;
    try destruct (leading_int chip);
    intros Hs Hf; simplify_eq; by destruct f.
Qed.

Lemma for_features_app (l1 l2 : list str) (st : details) :
  for_features (l1 ++ l2) st = st1 ← for_features l1 st; for_features l2 st1.
Proof.
  revert st. induction l1 as [|c l1 IH]; intros st; simpl; [done|].
  unfold_result. destruct (feature_step st c); [apply IH|done].
Qed.

Lemma for_features_snoc (l : list str) (chip : str) (st : details) :
  for_features (l ++ [chip]) st = st1 ← for_features l st; feature_step st1 chip.
Proof.
  rewrite for_features_app. unfold_result.
  destruct (for_features l st) as [st1|]; [|done]. cbn [for_features].
  unfold_result. by destruct (feature_step st1 chip).
Qed.

(** The extractor runs the loop over the chips of the document, from four
    nulls. *)
Lemma parse_property_details_chips (html : Selectolax.HTMLParser) :
  parse_property_details html
  = for_features (feature_texts html) (None, None, None, None).
Proof.
  unfold parse_property_details, feature_texts.
  by destruct (Selectolax.css_first html _).
Qed.

Lemma for_features_other (l : list str) (st st' : details) (f : field) :
  for_features l st = Ok st' ->
  Forall (fun c => classify c ≠ Some f) l -> get f st' = get f st.
Proof.
  revert st. induction l as [|c l IH]; intros st; simpl.
  - by intros [= ->].
  - unfold_result. destruct (feature_step st c) as [st1|] eqn:E; [|done].
    intros Hl Hall. inversion Hall; subst.
    erewrite IH by done. by eapply feature_step_other.
Qed.

End FeatureLemmas.

(* ===================================================================== *)
(** * Properties of the field extractor                                   *)
(* ===================================================================== *)

Section ExtractorProperties.
Context `{UnicodeLaws}.
Import re Selectolax Domain_Parser.

Lemma date_leftmost_after_nondigits (pre rest : str) :
  Forall (fun c => is_decimal c = false) pre ->
  forall pre' d' post', pre ++ rest = pre' ++ d' ++ post' -> date_shape d' ->
    length pre <= length pre'.
Proof.
  intros Hpre pre'. revert pre Hpre.
  induction pre' as [|x pre' IH]; intros pre Hpre d' post' Heq Hd.
  - destruct pre as [|c pre]; [done|]. exfalso.
    destruct Hd as (dd & mon & yr & -> & Hl & Hdd & _).
    destruct dd as [|a dd]; [simpl in Hl; lia|].
    simplify_eq/=. inversion Hpre; inversion Hdd; congruence.
  - destruct pre as [|c pre]; [simpl; lia|].
    simplify_eq/=. inversion Hpre; subst.
    enough (length pre <= length pre') by lia. by eapply IH.
Qed.


(** Where the price extraction does what is said of it: a residue of
    decimal digits is returned as the integer it denotes; a residue with a
    character that is no digit, and an absent element, give null. *)
Lemma parse_price_decimal (html : HTMLParser) elem :
  css_first html "div.css-rxp4mi div.css-1gkcyyc div.css-qrqvvg p.css-mgq8yx"
  = Some elem ->
  let residue := strip (replace (replace (text elem) (u "$") []) (u ",") []) in
  residue ≠ [] -> Forall (fun c => is_decimal c = true) residue ->
  parse_price html = Ok (Some (int_value residue)).
Proof.
  intros Helem residue Hne Hall. unfold parse_price. rewrite Helem.
  fold residue. rewrite isdigit_decimal by done.
  unfold_result. by rewrite int_of_str_decimal.
Qed.

Lemma parse_price_nondigit (html : HTMLParser) elem c :
  css_first html "div.css-rxp4mi div.css-1gkcyyc div.css-qrqvvg p.css-mgq8yx"
  = Some elem ->
  let residue := strip (replace (replace (text elem) (u "$") []) (u ",") []) in
  In c residue -> is_digit c = false ->
  parse_price html = Ok None.
Proof.
  intros Helem residue Hin Hc. unfold parse_price. rewrite Helem.
  fold residue. by rewrite (isdigit_false _ c).
Qed.

Lemma parse_price_absent (html : HTMLParser) :
  css_first html "div.css-rxp4mi div.css-1gkcyyc div.css-qrqvvg p.css-mgq8yx"
  = None ->
  parse_price html = Ok None.
Proof. intros Helem. unfold parse_price. by rewrite Helem. Qed.

(** Where the postcode extraction does what is said of it: four trailing
    digits of an address of at least four characters are the postcode. *)
Lemma parse_address_trailing_digits (address : str) :
  let stripped := replace address (u "Â") [] in
  4 <= length stripped -> isdigit (slice_last 4 stripped) = true ->
  parse_address address = (stripped, Some (slice_last 4 stripped))
  /\ length (slice_last 4 stripped) = 4.
Proof.
  intros stripped Hlen Hd. unfold parse_address. fold stripped. rewrite Hd.
  split; [done|]. unfold slice_last. rewrite length_drop. lia.
Qed.

(** The rest of the postcode extraction: when the last characters are not
    all digits, the postcode is the four-digit token before a final newline,
    and null when there is none. *)
Lemma parse_address_token (address : str) d :
  let stripped := replace address (u "Â") [] in
  isdigit (slice_last 4 stripped) = false ->
  token_before_newline stripped d ->
  parse_address address = (stripped, Some d).
Proof.
  intros stripped Hlast Htoken. unfold parse_address. fold stripped.
  rewrite Hlast. by destruct (search_postcode_token stripped d) as [i ->].
Qed.

Lemma parse_address_none (address : str) :
  let stripped := replace address (u "Â") [] in
  isdigit (slice_last 4 stripped) = false ->
  (forall d, ~ token_before_newline stripped d) ->
  parse_address address = (stripped, None).
Proof.
  intros stripped Hlast Hno. unfold parse_address. fold stripped.
  by rewrite Hlast, search_postcode_none.
Qed.

(** What one chip does to the details, by its first keyword. *)
Lemma feature_step_by_keyword (st : details) (chip : str) :
  (forall f, f ≠ Area -> classify chip = Some f ->
     Forall (fun c => is_decimal c = true) (leading_token chip) ->
     feature_step st chip = Ok (set f (Some (int_value (leading_token chip))) st))
  /\ (forall f c, f ≠ Area -> classify chip = Some f ->
        In c (leading_token chip) -> is_digit c = false ->
        feature_step st chip = Ok (set f None st))
  /\ (classify chip = Some Area ->
        feature_step st chip =
        Ok (set Area (match first_digit_run chip with
                      | [] => None
                      | m => Some (int_value m)
                      end) st))
  /\ (classify chip = None -> feature_step st chip = Ok st).
Proof.
  rewrite feature_step_classified.
  destruct st as [[[bedrooms baths] parking] area].
  split_and!.
  - intros f Hf Hc Hall. rewrite Hc.
    assert (leading_token chip ≠ []) as Hne.
    { apply (keyword_token f); [done|].
      unfold classify in Hc. by apply find_some in Hc as [_ Hc]. }
    rewrite leading_int_decimal by done.
    by destruct f.
  - intros f c Hf Hc Hin Hd. rewrite Hc.
    rewrite (leading_int_nondigit _ c) by done. by destruct f.
  - by intros ->.
  - by intros ->.
Qed.

(** What the extractor returns for a document with one more chip, given
    what it returns without that chip. *)
Lemma parse_property_details_snoc (html0 html : HTMLParser) (chip : str)
    (st : details) :
  feature_texts html = feature_texts html0 ++ [chip] ->
  parse_property_details html0 = Ok st ->
  parse_property_details html = feature_step st chip.
Proof.
  rewrite !parse_property_details_chips. intros -> Hst.
  by rewrite for_features_snoc, Hst.
Qed.

(** C8 (as amended). The extractor classifies a chip by the first keyword
    its text contains, testing "Beds", "Bath", "Parking", "m²" in that
    order.  Take a document whose chips are those of another document and
    then one more chip, the other document giving the details [st].  If
    the chip is classified by one of the first three keywords and its
    leading token is N, of at most 4300 decimal digits, the document gives
    [st] with that detail set to N; if the leading token holds a character
    that is no digit, [st] with that detail set to null.  If the chip is
    classified by "m²", the document gives [st] with the area set to the
    first run of decimal digits in the chip's text, of at most 4300 digits
    (null when there is none).  If the chip has none of the keywords, the
    document gives [st], and nothing is raised.  (Beyond 4300 digits
    [int()] raises [ValueError].) *)
Theorem parse_property_details_first_keyword (html0 html : HTMLParser)
    (chip : str) (st : details) :
  feature_texts html = feature_texts html0 ++ [chip] ->
  parse_property_details html0 = Ok st ->
  (forall f, f ≠ Area -> classify chip = Some f ->
     Forall (fun c => is_decimal c = true) (leading_token chip) ->
     length (leading_token chip) <= 4300 ->
     parse_property_details html
     = Ok (set f (Some (int_value (leading_token chip))) st))
  /\ (forall f c, f ≠ Area -> classify chip = Some f ->
        In c (leading_token chip) -> is_digit c = false ->
        parse_property_details html = Ok (set f None st))
  /\ (classify chip = Some Area ->
      length (first_digit_run chip) <= 4300 ->
        parse_property_details html =
        Ok (set Area (match first_digit_run chip with
                      | [] => None
                      | m => Some (int_value m)
                      end) st))
  /\ (classify chip = None -> parse_property_details html = Ok st).
Proof.
  intros Hchips Hst.
  rewrite (parse_property_details_snoc html0 html chip st Hchips Hst).
  destruct (feature_step_by_keyword st chip) as (Hint & Hnull & Harea & Hnone).
  split_and!.
  - intros f Hf Hc Hall _. by apply Hint.
  - exact Hnull.
  - intros Hc _. by apply Harea.
  - exact Hnone.
Qed.


End ExtractorProperties.

Section RecordProperties.
Context `{UnicodeData}.
Import Selectolax Domain_Parser.

(** C1 (as amended). From the parsed document on, [parse_html] never
    raises.  An exception raised during extraction is caught and printed
    with its cause, and the record returned keeps the fields assigned
    before the failing step and has null in every field from the failing
    step on: the sale type and date are always those extracted; when the
    price fails, the other eight fields are null; when the property details
    fail, the price, address and postcode are those extracted and the last
    five fields are null. *)
Theorem parse_html_keeps_earlier_fields (html : HTMLParser) :
  let '(record, printed) := parse_html html in
  record !! "sale_type" = Some (of_str (fst (parse_sale_info html)))
  /\ record !! "sale_date" = Some (of_str (snd (parse_sale_info html)))
  /\ match parse_price html with
     | Raise e =>
       printed = [Error_parsing_HTML e]
       /\ Forall (fun k => record !! k = Some VNone)
            ["price"; "address"; "postcode"; "bedrooms"; "baths"; "parking";
             "area"; "sales_page_href"]
     | Ok price =>
       record !! "price" = Some (of_int price)
       /\ match css_first html
                  "div.css-qrqvvg a.address.is-two-lines.css-1y2bib4 h2.css-bqbbuf" with
          | Some elem =>
            record !! "address" = Some (VStr (fst (parse_address (text elem))))
            /\ record !! "postcode" = Some (of_str (snd (parse_address (text elem))))
          | None =>
            record !! "address" = Some VNone /\ record !! "postcode" = Some VNone
          end
       /\ match parse_property_details html with
          | Raise e =>
            printed = [Error_parsing_HTML e]
            /\ Forall (fun k => record !! k = Some VNone)
                 ["bedrooms"; "baths"; "parking"; "area"; "sales_page_href"]
          | Ok (bedrooms, baths, parking, area) =>
            printed = []
            /\ record !! "bedrooms" = Some (of_int bedrooms)
            /\ record !! "baths" = Some (of_int baths)
            /\ record !! "parking" = Some (of_int parking)
            /\ record !! "area" = Some (of_int area)
            /\ record !! "sales_page_href" = Some (of_str (parse_sales_page html))
          end
     end.
Proof.
  unfold parse_html, try_extract, default_record.
  destruct (parse_sale_info html) as [sale_type sale_date].
  destruct (parse_price html) as [price|e].
  - destruct (parse_property_details html) as [[[[bedrooms baths] parking] area]|e];
      destruct (css_first html _) as [elem|];
      try destruct (parse_address (text elem)) as [address postcode];
      cbn [fst snd]; repeat split; repeat constructor; by simplify_map_eq.
  - cbn [fst snd]. repeat split; repeat constructor; by simplify_map_eq.
Qed.

End RecordProperties.

(* ===================================================================== *)
(** * The extractor on concrete cards                                     *)
(* ===================================================================== *)

Section CardLemmas.
Import Selectolax Domain_Parser Fixtures.

(** C1, as stated, fails: the price raises, the error is printed, and the
    record returned is not the all-null default (the sale type and date
    extracted before the error are kept). *)
Lemma parse_html_error_not_all_null :
  let result := parse_html (H := latin1) card_superscript_price in
  snd result = [Error_parsing_HTML (ValueError (u "1250000²"))]
  /\ fst result !! "sale_type" = Some (VStr (u "Sold"))
  /\ fst result ≠ default_record.
Proof.
  intros result.
  assert (fst result !! "sale_type" = Some (VStr (u "Sold"))) as Hsale
    by (vm_compute; reflexivity).
  split_and!.
  - vm_compute. reflexivity.
  - exact Hsale.
  - intros Heq. rewrite Heq in Hsale. vm_compute in Hsale. discriminate.
Qed.

(** C5. The price text "$1,250,000²" leaves the residue "1250000²", which
    is no number; the extractor raises [ValueError] instead of returning
    null. *)
Lemma parse_price_superscript_raises :
  parse_price (H := latin1) card_superscript_price
  = Raise (ValueError (u "1250000²")).
Proof. vm_compute. reflexivity. Qed.

(** C6. An address of three digits has no four trailing characters and no
    run of four digits, yet it is returned as its own postcode. *)
Lemma parse_address_short_digits :
  parse_address (H := latin1) (u "123") = (u "123", Some (u "123")).
Proof. vm_compute. reflexivity. Qed.

(** C8, as stated, fails: the chip "2 Beds 1 Bath" contains "Bath" and its
    leading token is the integer 2, but baths is not set. *)
Lemma feature_chip_bath_after_beds :
  contains (u "Bath") (u "2 Beds 1 Bath") = true
  /\ leading_int (H := latin1) (u "2 Beds 1 Bath") = Ok (Some 2%Z)
  /\ parse_property_details (H := latin1)
       (card None None None (Some [u "2 Beds 1 Bath"]) None)
     = Ok (Some 2%Z, None, None, None).
Proof. vm_compute. done. Qed.


(** The examples of the specification. *)
Example price_example :
  parse_price (H := latin1)
    (card None (Some (u "$1,250,000")) None None None) = Ok (Some 1250000%Z)
  /\ parse_price (H := latin1)
       (card None (Some (u "Contact Agent")) None None None) = Ok None
  /\ parse_price (H := latin1) (card None None None None None) = Ok None.
Proof. vm_compute. done. Qed.

Example postcode_example :
  parse_address (H := latin1) (u "12 Smith St, Ultimo 2007")
  = (u "12 Smith St, Ultimo 2007", Some (u "2007"))
  /\ snd (parse_address (H := latin1) (u "Ultimo 2007" ++ [10%N])) = Some (u "2007")
  /\ snd (parse_address (H := latin1) (u "Ultimo NSW")) = None.
Proof. vm_compute. done. Qed.

Example sale_info_example :
  parse_sale_info (H := latin1)
    (card (Some (u "Sold 12 Jan 2023")) None None None None)
  = (Some (u "Sold"), Some (u "12 Jan 2023")).
Proof. vm_compute. reflexivity. Qed.

Example features_example :
  parse_property_details (H := latin1)
    (card None None None (Some [u "3 Beds"; u "2 Bath"; u "120m²"; u "Pool"]) None)
  = Ok (Some 3%Z, Some 2%Z, None, Some 120%Z).
Proof. vm_compute. reflexivity. Qed.


(** A card whose one chip is "3 Beds" has 3 bedrooms, as C8 says. *)
Lemma parse_property_details_first_keyword_witness :
  parse_property_details (H := latin1)
    (card None None None (Some [u "3 Beds"]) None)
  = Ok (Some 3%Z, None, None, None).
Proof.
  destruct (parse_property_details_first_keyword (H0 := latin1_laws)
              (card None None None None None)
              (card None None None (Some [u "3 Beds"]) None)
              (u "3 Beds") (None, None, None, None)) as [Hset _].
  - vm_compute. reflexivity.
  - vm_compute. reflexivity.
  - rewrite (Hset Bedrooms).
    + vm_compute. reflexivity.
    + done.
    + vm_compute. reflexivity.
    + vm_compute. repeat constructor.
    + vm_compute. lia.
Defined.


End CardLemmas.

(* ===================================================================== *)
(** * Float arithmetic                                                    *)
(* ===================================================================== *)

Section FloatLemmas.
Open Scope Q_scope.

Lemma pow2_pos (e : Z) : 0 < 2 ^ e.
Proof. apply Qpower_0_lt. reflexivity. Qed.

Lemma pow2_succ (e : Z) : 2 ^ (e + 1) == 2 * 2 ^ e.
Proof. rewrite Qpower_plus by discriminate. rewrite Qpower_1_r. ring. Qed.

Lemma pow2_Z (n : Z) : (0 <= n)%Z -> inject_Z (2 ^ n) == 2 ^ n.
Proof. intros Hn. by rewrite Zpower_Qpower. Qed.

(** [ilog2] is the exponent: [2^e <= q < 2^(e+1)]. *)
Lemma ilog2_spec (q : Q) : 0 < q -> 2 ^ ilog2 q <= q /\ q < 2 ^ (ilog2 q + 1).
Proof.
  intros Hq. unfold ilog2.
  destruct q as [n d]. unfold Qlt in Hq. cbn in Hq. rewrite Z.mul_1_r in Hq.
  cbn [Qnum Qden].
  set (a := Z.log2 n). set (b := Z.log2 (Z.pos d)).
  destruct (Z.log2_spec n Hq) as [Ha1 Ha2]. fold a in Ha1, Ha2.
  destruct (Z.log2_spec (Z.pos d) eq_refl) as [Hb1 Hb2]. fold b in Hb1, Hb2.
  assert (0 <= a)%Z as Ha0 by apply Z.log2_nonneg.
  assert (0 <= b)%Z as Hb0 by apply Z.log2_nonneg.
  assert (2 ^ a <= inject_Z n) as HA1
    by (rewrite <- pow2_Z by done; by rewrite <- Zle_Qle).
  assert (inject_Z n < 2 * 2 ^ a) as HA2.
  { rewrite <- pow2_succ, <- pow2_Z by lia. rewrite <- Zlt_Qlt.
    by replace (a + 1)%Z with (Z.succ a) by lia. }
  assert (2 ^ b <= inject_Z (Z.pos d)) as HB1
    by (rewrite <- pow2_Z by done; by rewrite <- Zle_Qle).
  assert (inject_Z (Z.pos d) < 2 * 2 ^ b) as HB2.
  { rewrite <- pow2_succ, <- pow2_Z by lia. rewrite <- Zlt_Qlt.
    by replace (b + 1)%Z with (Z.succ b) by lia. }
  assert (2 ^ a == 2 ^ (a - b) * 2 ^ b) as Hab.
  { rewrite <- Qpower_plus by discriminate. by replace (a - b + b)%Z with a by lia. }
  assert ((n # d) * inject_Z (Z.pos d) == inject_Z n) as Hnd.
  { unfold Qeq, Qmult, inject_Z. cbn. lia. }
  pose proof (pow2_pos (a - b)) as Ht. pose proof (pow2_pos b) as HB.
  pose proof (pow2_pos a) as HA.
  assert (0 < n # d) as Hq' by (unfold Qlt; cbn; lia).
  set (x := n # d) in *. set (D := inject_Z (Z.pos d)) in *.
  set (N := inject_Z n) in *. set (T := 2 ^ (a - b)) in *.
  set (A := 2 ^ a) in *. set (B := 2 ^ b) in *.
  destruct (Qle_bool T x) eqn:Hle.
  - apply Qle_bool_iff in Hle. split; [done|].
    rewrite pow2_succ. fold T.
    apply Qnot_le_lt. intros Hc.
    assert (2 * T * B <= x * D) by nra. nra.
  - assert (x < T) as Hlt.
    { apply Qnot_le_lt. intros Hc. apply Qle_bool_iff in Hc. congruence. }
    replace (a - b - 1 + 1)%Z with (a - b)%Z by lia. fold T. split; [|done].
    assert (T == 2 * 2 ^ (a - b - 1)) as HT.
    { unfold T. rewrite <- pow2_succ.
      by replace (a - b - 1 + 1)%Z with (a - b)%Z by lia. }
    pose proof (pow2_pos (a - b - 1)) as Ht'.
    set (T' := 2 ^ (a - b - 1)) in *.
    apply Qnot_lt_le. intros Hc.
    assert (x * D < T' * (2 * B)) by nra. nra.
Qed.

Lemma ilog2_le (x y : Q) : 0 < x -> x <= y -> (ilog2 x <= ilog2 y)%Z.
Proof.
  intros Hx Hxy.
  destruct (ilog2_spec x Hx) as [Hx1 _].
  destruct (ilog2_spec y) as [_ Hy2]; [lra|].
  assert (2 ^ ilog2 x < 2 ^ (ilog2 y + 1)) as Hlt by lra.
  apply Qpower_lt_compat_l_inv in Hlt; [lia|reflexivity].
Qed.

Lemma nearest_even_Z (z : Z) : nearest_even (inject_Z z) = z.
Proof.
  unfold nearest_even. rewrite Qfloor_Z.
  destruct (Qcompare_spec (inject_Z z - inject_Z z) (1 # 2)) as [He|Hl|Hg];
    [lra|done|lra].
Qed.

Lemma nearest_even_bounds (y : Q) :
  (Qfloor y <= nearest_even y <= Qfloor y + 1)%Z.
Proof.
  unfold nearest_even. destruct (Qcompare _ _); [destruct (Z.even _)|..]; lia.
Qed.

Lemma nearest_even_le (a b : Q) : a <= b -> (nearest_even a <= nearest_even b)%Z.
Proof.
  intros Hab. pose proof (Qfloor_resp_le _ _ Hab) as Hf.
  destruct (Z.eq_dec (Qfloor a) (Qfloor b)) as [He|Hne].
  - unfold nearest_even. rewrite He.
    destruct (Qcompare_spec (a - inject_Z (Qfloor b)) (1 # 2)) as [Ha|Ha|Ha];
      destruct (Qcompare_spec (b - inject_Z (Qfloor b)) (1 # 2)) as [Hb|Hb|Hb];
      try destruct (Z.even _); try lia; lra.
  - pose proof (nearest_even_bounds a). pose proof (nearest_even_bounds b). lia.
Qed.

Lemma nearest_even_comp (a b : Q) : a == b -> nearest_even a = nearest_even b.
Proof. intros Hab. apply Z.le_antisymm; apply nearest_even_le; lra. Qed.

Lemma Qabs_nonneg_eq (x : Q) : 0 <= x -> Qabs x = x.
Proof.
  destruct x as [n d]. unfold Qle. cbn. intros Hn.
  f_equal. apply Z.abs_eq. lia.
Qed.

Lemma ulp_pos (q : Q) : 0 < ulp q.
Proof. apply pow2_pos. Qed.

Lemma round_eq (q : Q) : round q == inject_Z (nearest_even (q / ulp q)) * ulp q.
Proof. unfold round. apply Qred_correct. Qed.

Lemma round_nonneg (y : Q) : 0 <= y -> 0 <= round y.
Proof.
  intros Hy. rewrite round_eq. pose proof (ulp_pos y) as Hu.
  apply Qmult_le_0_compat; [|lra].
  assert (nearest_even (inject_Z 0) <= nearest_even (y / ulp y))%Z as Hn.
  { apply nearest_even_le. apply Qle_shift_div_l; [done|].
    change (inject_Z 0) with 0. lra. }
  rewrite nearest_even_Z in Hn. rewrite Zle_Qle in Hn. exact Hn.
Qed.

(** Rounding is monotone.  Two numbers of one binade are rounded on the
    same grid; of two numbers of different binades, the smaller is rounded
    to at most the power of two between them, and the larger to at least
    it. *)
Lemma round_le (x y : Q) : 0 <= x -> x <= y -> round x <= round y.
Proof.
  intros Hx0 Hxy.
  destruct (Qlt_le_dec 0 x) as [Hx|Hx].
  2:{ apply Qle_trans with 0; [|apply round_nonneg; lra].
      rewrite round_eq. rewrite (nearest_even_comp _ (inject_Z 0)), nearest_even_Z.
      - change (inject_Z 0) with 0. lra.
      - assert (x == 0) as Hz by lra. change (inject_Z 0) with 0.
        unfold Qdiv. generalize (/ ulp x). intros v. rewrite Hz. ring. }
  assert (0 < y) as Hy by lra.
  rewrite !round_eq. unfold ulp.
  rewrite (Qabs_nonneg_eq x), (Qabs_nonneg_eq y) by lra.
  pose proof (ilog2_le x y Hx Hxy) as He.
  destruct (ilog2_spec x Hx) as [Hx1 Hx2]. destruct (ilog2_spec y Hy) as [Hy1 Hy2].
  set (ex := Z.max (ilog2 x) (-1022)). set (ey := Z.max (ilog2 y) (-1022)).
  assert (ex <= ey)%Z as Hee by lia.
  pose proof (pow2_pos (ex - 52)) as Hux. pose proof (pow2_pos (ey - 52)) as Huy.
  destruct (Z.eq_dec ex ey) as [Heq|Hne].
  - rewrite Heq. apply Qmult_le_compat_r; [|lra].
    rewrite <- Zle_Qle. apply nearest_even_le.
    apply Qmult_le_compat_r; [done|]. by apply Qlt_le_weak, Qinv_lt_0_compat.
  - assert (ey = ilog2 y) as Hey by lia.
    assert (ex + 1 <= ey)%Z as Hlt by lia.
    apply Qle_trans with (2 ^ ey).
    + apply Qle_trans with (2 ^ (ex + 1));
        [|apply Qpower_le_compat_l; [done|discriminate]].
      assert (2 ^ (ex + 1) == inject_Z (2 ^ 53) * 2 ^ (ex - 52)) as ->.
      { rewrite pow2_Z by lia. rewrite <- Qpower_plus by discriminate.
        by replace (53 + (ex - 52))%Z with (ex + 1)%Z by lia. }
      apply Qmult_le_compat_r; [|lra].
      rewrite <- Zle_Qle. rewrite <- (nearest_even_Z (2 ^ 53)).
      apply nearest_even_le. apply Qle_shift_div_r; [done|].
      rewrite pow2_Z by lia. rewrite <- Qpower_plus by discriminate.
      replace (53 + (ex - 52))%Z with (ex + 1)%Z by lia.
      apply Qle_trans with (2 ^ (ilog2 x + 1)); [lra|].
      apply Qpower_le_compat_l; [lia|discriminate].
    + assert (2 ^ ey == inject_Z (2 ^ 52) * 2 ^ (ey - 52)) as ->.
      { rewrite pow2_Z by lia. rewrite <- Qpower_plus by discriminate.
        by replace (52 + (ey - 52))%Z with ey by lia. }
      apply Qmult_le_compat_r; [|lra].
      rewrite <- Zle_Qle. rewrite <- (nearest_even_Z (2 ^ 52)) at 1.
      apply nearest_even_le. apply Qle_shift_div_l; [done|].
      rewrite pow2_Z by lia. rewrite <- Qpower_plus by discriminate.
      replace (52 + (ey - 52))%Z with ey by lia. by rewrite Hey.
Qed.

(** A power of two is a float. *)
Lemma float_of_pow2 (e : Z) :
  (0 <= e)%Z -> float_of_int (2 ^ e) == inject_Z (2 ^ e).
Proof.
  intros He. unfold float_of_int.
  pose proof (pow2_Z e He) as Hq. pose proof (pow2_pos e) as Hpos.
  set (q := inject_Z (2 ^ e)) in *.
  assert (0 < q) as Hq0 by lra.
  destruct (ilog2_spec q Hq0) as [Hlo Hhi].
  assert (ilog2 q = e) as Hk.
  { assert (2 ^ ilog2 q <= 2 ^ e) as H1 by lra.
    assert (2 ^ e < 2 ^ (ilog2 q + 1)) as H2 by lra.
    apply Qpower_le_compat_l_inv in H1; [|reflexivity].
    apply Qpower_lt_compat_l_inv in H2; [|reflexivity]. lia. }
  rewrite round_eq. unfold ulp. rewrite Qabs_nonneg_eq by lra. rewrite Hk.
  replace (Z.max e (-1022)) with e by lia.
  pose proof (pow2_pos (e - 52)) as Hu.
  assert (q == inject_Z (2 ^ 52) * 2 ^ (e - 52)) as Hsplit.
  { rewrite Hq, pow2_Z by lia. rewrite <- Qpower_plus by discriminate.
    by replace (52 + (e - 52))%Z with e by lia. }
  rewrite (nearest_even_comp _ (inject_Z (2 ^ 52))), nearest_even_Z; [by rewrite Hsplit|].
  apply Qmult_inj_r with (2 ^ (e - 52)); [lra|].
  rewrite <- Hsplit. field. lra.
Qed.

(** The delay of the fetch client after the failure of an attempt: at
    least the power of two, at most the float sum of it and 0.1. *)
Lemma wait_bounds (attempt : Z) (x : Q) :
  (0 <= attempt)%Z -> 0 <= x -> x < 1 ->
  let wait := float_add (float_of_int (2 ^ attempt)) (float_mul x (round (1 # 10))) in
  inject_Z (2 ^ attempt) <= wait /\ wait <= longest_wait attempt.
Proof.
  intros Ha Hx0 Hx1. cbn zeta. unfold longest_wait, float_add, float_mul.
  pose proof (float_of_pow2 attempt Ha) as Hp.
  assert (1 <= inject_Z (2 ^ attempt)) as Hone.
  { change 1 with (inject_Z 1). rewrite <- Zle_Qle.
    pose proof (Z.pow_pos_nonneg 2 attempt). lia. }
  set (P := float_of_int (2 ^ attempt)) in *.
  set (c := round (1 # 10)).
  assert (0 < c) as Hc by (vm_compute; reflexivity).
  assert (round c <= c) as Hcc by (vm_compute; discriminate).
  assert (0 <= round (x * c)) as Hr0.
  { apply round_nonneg. apply Qmult_le_0_compat; lra. }
  assert (round (x * c) <= c) as Hr1.
  { apply Qle_trans with (round c); [|done].
    apply round_le; [apply Qmult_le_0_compat; lra|]. nra. }
  split.
  - apply Qle_trans with (round (inject_Z (2 ^ attempt))).
    + fold (float_of_int (2 ^ attempt)). fold P. lra.
    + apply round_le; lra.
  - apply round_le; lra.
Qed.

(** Up to the 33rd attempt the longest delay exceeds the power of two by
    less than a tenth of a second and a microsecond. *)
Lemma longest_wait_bound (attempt : Z) :
  (0 <= attempt <= 33)%Z ->
  longest_wait attempt < inject_Z (2 ^ attempt) + (1 # 10) + (1 # 1000000).
Proof.
  intros Ha.
  assert (exists n, attempt = Z.of_nat n /\ (n <= 33)%nat) as (n & -> & Hn)
    by (exists (Z.to_nat attempt); lia).
  do 34 (destruct n as [|n]; [vm_compute; reflexivity|]). lia.
Qed.

End FloatLemmas.

(* ===================================================================== *)
(** * Properties of the fetch client and the enumerator                   *)
(* ===================================================================== *)

Section ScraperLemmas.
Context `{Domain_Scraper.Runtime W}.
Import Domain_Scraper.

Lemma page_loop_segment postcode beds bath park pages property_html steps w :
  exists new w',
    page_loop postcode beds bath park pages false (property_html, steps, w)
    = (property_html ++ kept_texts new, steps ++ new, w')
    /\ requests_ok postcode pages (beds, bath, park) new.
Proof.
  revert property_html steps w.
  induction pages as [|page pages IH]; intros property_html steps w.
  - exists [], w. split; [by rewrite !app_nil_r|].
    exists 0. split_and!; try done; simpl; lia.
  - cbn [page_loop].
    destruct (fetch_property_data _ 5 w) as [[r evs] w1] eqn:Ef.
    set (url := search_url postcode beds bath park page) in *.
    destruct (truthy r) eqn:Et; [destruct (contains _ (default [] r)) eqn:Em|].
    + exists [Fetch url evs r; Print_no_more_matches postcode beds bath park page], w1.
      assert (has_marker r = true) as Hm
        by (unfold has_marker, marker; by rewrite Et, Em).
      split.
      * unfold kept_texts, keeps, marker. simpl. rewrite Et, Em. simpl.
        by rewrite app_nil_r, <- app_assoc.
      * exists 1.
        split; [simpl; lia|]. split; [done|]. split; [done|].
        split; [intros i r' _ Hi; lia|].
        intros _. by exists r.
    + destruct (IH (property_html ++ [default [] r]) (steps ++ [Fetch url evs r]) w1)
        as (new & w' & -> & k & Hk & Hk1 & Hurls & Hbefore & Hstop).
      exists (Fetch url evs r :: new), w'.
      assert (has_marker r = false) as Hm
        by (unfold has_marker, marker; by rewrite Et, Em).
      split.
      * unfold kept_texts at 2, keeps, marker. simpl. rewrite Et, Em. simpl.
        destruct r as [text|]; [|done]. simpl.
        by rewrite <- !app_assoc.
      * exists (S k).
        split; [simpl; lia|]. split; [intros _; lia|].
        change (responses (Fetch url evs r :: new))
          with ((url, r) :: responses new).
        rewrite !fmap_cons. cbn [fst snd firstn].
        split; [by rewrite Hurls|].
        split.
        -- intros [|i] r' Hr Hi; simplify_eq/=; [done|].
           apply (Hbefore i); [done|lia].
        -- intros Hlt. cbn [length] in Hlt.
           destruct Hstop as (r' & Hr' & Hm'); [lia|].
           assert (1 <= k) by (apply Hk1; destruct pages; simpl in *; [lia|done]).
           exists r'. split; [|done].
           destruct k; [lia|]. cbn [Nat.sub] in *.
           by rewrite Nat.sub_0_r in *.
    + destruct (IH property_html (steps ++ [Fetch url evs r]) w1)
        as (new & w' & -> & k & Hk & Hk1 & Hurls & Hbefore & Hstop).
      exists (Fetch url evs r :: new), w'.
      assert (has_marker r = false) as Hm by (unfold has_marker; by rewrite Et).
      split.
      * unfold kept_texts at 2, keeps. simpl. rewrite Et. simpl.
        by rewrite <- !app_assoc.
      * exists (S k).
        split; [simpl; lia|]. split; [intros _; lia|].
        change (responses (Fetch url evs r :: new))
          with ((url, r) :: responses new).
        rewrite !fmap_cons. cbn [fst snd firstn].
        split; [by rewrite Hurls|].
        split.
        -- intros [|i] r' Hr Hi; simplify_eq/=; [done|].
           apply (Hbefore i); [done|lia].
        -- intros Hlt. cbn [length] in Hlt.
           destruct Hstop as (r' & Hr' & Hm'); [lia|].
           assert (1 <= k) by (apply Hk1; destruct pages; simpl in *; [lia|done]).
           exists r'. split; [|done].
           destruct k; [lia|]. cbn [Nat.sub] in *.
           by rewrite Nat.sub_0_r in *.
Qed.

Lemma kept_texts_app l1 l2 : kept_texts (l1 ++ l2) = kept_texts l1 ++ kept_texts l2.
Proof. apply omap_app. Qed.

Lemma enumerate_combinations postcode (st : state W) :
  enumerate postcode st
  = fold_left (fun st '(beds, bath, park) =>
                 page_loop postcode beds bath park (range 1 50) false st)
              combinations st.
Proof. reflexivity. Qed.

Lemma fold_segments postcode (cs : list (Z * Z * Z)) property_html steps w :
  exists segments w',
    fold_left (fun st '(beds, bath, park) =>
                 page_loop postcode beds bath park (range 1 50) false st)
              cs (property_html, steps, w)
    = (property_html ++ kept_texts (concat segments), steps ++ concat segments, w')
    /\ Forall2 (requests_ok postcode (range 1 50)) cs segments.
Proof.
  revert property_html steps w.
  induction cs as [|[[beds bath] park] cs IH]; intros property_html steps w.
  - exists [], w. split; [by rewrite !app_nil_r|constructor].
  - cbn [fold_left].
    destruct (page_loop_segment postcode beds bath park (range 1 50)
                property_html steps w) as (new & w1 & -> & Hok).
    destruct (IH (property_html ++ kept_texts new) (steps ++ new) w1)
      as (segments & w' & -> & Hall).
    exists (new :: segments), w'. split; [|by constructor].
    cbn [concat]. by rewrite kept_texts_app, <- !app_assoc.
Qed.

End ScraperLemmas.

Section ScraperProperties.
Context `{Domain_Scraper.RuntimeLaws W}.
Import Domain_Scraper.

Lemma take_range_pages (k : nat) :
  k <= 49 -> take k (range 1 50) = seqZ 1 (Z.of_nat k).
Proof.
  intros Hk. unfold range.
  replace (50 - 1)%Z with (Z.of_nat k + (49 - Z.of_nat k))%Z by lia.
  rewrite seqZ_app by lia. apply take_app_length'.
  rewrite length_seqZ. lia.
Qed.

Lemma requests_ok_pages postcode c new :
  requests_ok postcode (range 1 50) c new -> pages_ok postcode c new.
Proof.
  destruct c as [[beds bath] park].
  intros (k & Hk & Hk1 & Hurls & Hbefore & Hstop).
  assert (length (range 1 50) = 49) as Hlen by done.
  rewrite Hlen in *. rewrite take_range_pages in Hurls by done.
  assert (1 <= k) by (by apply Hk1).
  assert (length (responses new) = k) as Hresp.
  { rewrite <- (length_fmap fst), Hurls, length_fmap, length_seqZ. lia. }
  exists k. split_and!; try done.
  - intros i r Hr Hm.
    assert (i < k).
    { rewrite <- Hresp, <- (length_fmap snd). by eapply lookup_lt_Some. }
    destruct (decide (S i < k)) as [Hlt|]; [|lia].
    rewrite (Hbefore i r Hr Hlt) in Hm. done.
  - intros i Hr Hi.
    assert (i < k).
    { rewrite <- Hresp, <- (length_fmap snd). by eapply lookup_lt_Some. }
    destruct (decide (S i < k)) as [|Hge]; [done|].
    destruct Hstop as (r & Hr' & Hm); [lia|].
    replace (k - 1) with i in Hr' by lia. by simplify_eq.
Qed.

(** C3. For every combination the pages are requested in increasing order
    from page 1 and never beyond page 49; once a fetched page has the
    no-results marker no further page is requested for the combination; a
    fetch that returns null does not stop the paging. *)
Theorem pages_requested_in_order (postcode : Z) (w : W) :
  exists segments,
    (fetch_postcode_data postcode w).1.2 = concat segments
    /\ Forall2 (pages_ok postcode) combinations segments.
Proof.
  unfold fetch_postcode_data. rewrite enumerate_combinations.
  destruct (fold_segments postcode combinations [] [] w)
    as (segments & w' & -> & Hall).
  exists segments. split; [done|].
  eapply Forall2_impl; [exact Hall|]. intros c new. apply requests_ok_pages.
Qed.

(** C2 (as amended). The list returned holds, in the order of the requests,
    the text of every fetched page that is not empty and does not contain
    the no-results marker, whatever combination and page it came from. *)
Theorem property_html_is_kept_texts (postcode : Z) (w : W) :
  let '(property_html, steps, _) := fetch_postcode_data postcode w in
  property_html = kept_texts steps.
Proof.
  unfold fetch_postcode_data. rewrite enumerate_combinations.
  destruct (fold_segments postcode combinations [] [] w)
    as (segments & w' & -> & _).
  done.
Qed.

Lemma fetch_loop_all_fail fuel url retries attempt w :
  (0 <= attempt)%Z ->
  (forall w', exists exc w'', client_get w' url = (Failure exc, w'')) ->
  exists evs w',
    fetch_loop fuel url retries attempt w = (None, evs, w')
    /\ gets evs = replicate fuel url
    /\ length (sleeps evs) = fuel
    /\ last evs = Some (Print_failed url retries)
    /\ (forall i wait, sleeps evs !! i = Some wait ->
          (inject_Z (2 ^ (attempt + 1 + Z.of_nat i)) <= wait)%Q
          /\ (wait <= longest_wait (attempt + 1 + Z.of_nat i))%Q).
Proof.
  intros Hatt Hfail. revert attempt w Hatt.
  induction fuel as [|fuel IH]; intros attempt w Hatt.
  - exists [Print_failed url retries], w. split_and!; try done.
  - cbn [fetch_loop]. destruct (Hfail w) as (exc & w1 & ->).
    pose proof (random_range w1) as [Hlo Hhi].
    destruct (random w1) as [x w2]. cbn [fst] in Hlo, Hhi.
    destruct (IH (attempt + 1)%Z w2)
      as (evs & w' & -> & Hgets & Hlen & Hlast & Hwaits); [lia|].
    eexists _, w'. split; [reflexivity|].
    split_and!.
    + simpl. by rewrite Hgets.
    + simpl. by rewrite Hlen.
    + destruct evs as [|e evs]; [done|]. by rewrite !last_cons_cons.
    + intros [|i] wait Hw.
      * simpl in Hw. injection Hw as <-.
        replace (attempt + 1 + Z.of_nat 0)%Z with (attempt + 1)%Z by lia.
        apply wait_bounds; [lia|done|done].
      * simpl in Hw. apply Hwaits in Hw.
        by replace (attempt + 1 + Z.of_nat (S i))%Z
          with (attempt + 1 + 1 + Z.of_nat i)%Z by lia.
Qed.


End ScraperProperties.

(* ===================================================================== *)
(** * The enumerator in concrete worlds                                   *)
(* ===================================================================== *)

Section Worlds.
Import Domain_Scraper Fixtures.

#[global] Instance always_laws (o : outcome) : @RuntimeLaws unit (always o).
Proof. split. intros w. simpl. split; lra. Qed.

(** C2, as stated, fails: in a world where every page is fetched and holds
    the no-results marker, no text is appended. *)
Lemma marker_page_not_appended :
  ~ appends_every_fetched_page
      (fetch_postcode_data (H := always (Success marker)) 2000 tt).
Proof.
  set (st := fetch_postcode_data (H := always (Success marker)) 2000 tt).
  assert (st.1.1 = []) as Hhtml by (vm_compute; reflexivity).
  assert (head (responses st.1.2)
          = Some (search_url 2000 1 0 0 1, Some marker)) as Hhead
    by (vm_compute; reflexivity).
  destruct st as [[property_html steps] w]. cbn [fst snd] in *. subst.
  intros Hclaim. cbn [appends_every_fetched_page] in Hclaim.
  destruct (responses steps) as [|r rs]; [done|]. injection Hhead as ->.
  apply (Hclaim (search_url 2000 1 0 0 1) marker). by left.
Qed.



End Worlds.

(* ===================================================================== *)
(** * Properties of the persistence sink                                  *)
(* ===================================================================== *)

Section SinkProperties.
Context `{Sqlite.EngineLaws}.
Import Sqlite Domain_Parser.

Lemma non_numeric_not_digits (p : str) :
  forallb numeric_char p = false -> ascii_digits p = false.
Proof.
  intros Hp. destruct p as [|c p]; [done|]. unfold ascii_digits.
  apply not_true_is_false. intros Hd. rewrite <- not_true_iff_false in Hp.
  apply Hp. rewrite forallb_forall in *. intros x Hx. specialize (Hd x Hx).
  unfold numeric_char. by rewrite Hd.
Qed.

Lemma numeric_postcode (l : listing) :
  storable l -> fetch (numeric (postcode l)) = postcode_read (postcode l).
Proof.
  intros (_ & _ & _ & _ & _ & [[Hd Hr]|Hn]); unfold postcode_read.
  - by rewrite numeric_integer, Hd.
  - by rewrite numeric_text, non_numeric_not_digits.
Qed.

Lemma insert_one (db : gmap string table) (t : table) d l :
  db !! "Domain" = Some t -> columns t = domain_columns ->
  populated d l -> storable l ->
  exists r,
    execute insert_sql d db
    = Ok (<["Domain" := {| columns := domain_columns;
                           sequence := (sequence t + 1)%Z;
                           rows := rows t ++ [r] |}]> db, [])
    /\ List.map fetch r = row_read (sequence t + 1) l.
Proof.
  intros Hdb Hcols (H1 & H2 & H3 & H4 & H5 & H6 & H7 & H8 & H9 & H10) Hst.
  pose proof (numeric_postcode l Hst) as Hpost.
  destruct Hst as (S1 & S2 & S3 & S4 & S5 & _).
  unfold execute, insert_sql. rewrite Hdb.
  unfold has_column. rewrite Hcols.
  cbn [forallb existsb domain_columns create_table_sql cname String.eqb
       Ascii.eqb Bool.eqb andb orb length Nat.eqb].
  cbn [bind_all]. rewrite H1, H2, H3, H4, H5, H6, H7, H8, H9, H10.
  cbn [bind]. rewrite S1, S2, S3, S4, S5.
  unfold_result.
  eexists. split.
  - unfold insert_row. rewrite Hcols. reflexivity.
  - unfold new_row. rewrite Hcols.
    cbn [List.map domain_columns create_table_sql autoincrement cname ctype
         assoc String.eqb Ascii.eqb Bool.eqb store fetch].
    unfold row_read. by rewrite Hpost.
Qed.

Lemma insert_many (data : list (gmap string value)) (ls : list listing) :
  Forall2 populated data ls -> Forall storable ls ->
  forall (db : gmap string table) (t : table),
    db !! "Domain" = Some t -> columns t = domain_columns ->
    exists db',
      insert_data db data = Ok db'
      /\ select_domain db'
         = Ok (List.map (List.map fetch) (rows t)
               ++ imap (fun i l => row_read (sequence t + 1 + Z.of_nat i) l) ls).
Proof.
  unfold insert_data, select_domain.
  induction 1 as [|d l data ls Hpop _ IH]; intros Hst db t Hdb Hcols.
  - exists db. split; [done|]. cbn [execute]. rewrite Hdb. unfold_result.
    by rewrite app_nil_r.
  - inversion Hst as [|? ? Hl Hls]; subst.
    destruct (insert_one db t d l Hdb Hcols Hpop Hl) as (r & Hex & Hr).
    set (t' := {| columns := domain_columns; sequence := (sequence t + 1)%Z;
                  rows := rows t ++ [r] |}) in Hex.
    cbn [executemany]. rewrite Hex. unfold_result. cbn [fst].
    destruct (IH Hls (<["Domain" := t']> db) t') as (db' & Hins & Hsel);
      [apply lookup_insert_eq|reflexivity|].
    unfold_result. exists db'. split; [exact Hins|].
    rewrite Hsel. subst t'. cbn [rows sequence imap]. f_equal.
    rewrite List.map_app, <- app_assoc. cbn [List.map app]. rewrite Hr.
    do 2 f_equal.
    + f_equal. lia.
    + apply imap_ext. intros i x _. cbn. f_equal. lia.
Qed.


End SinkProperties.

Section Batches.
Import Sqlite Selectolax Domain_Parser Fixtures.

#[global] Instance digits_engine_laws : @EngineLaws digits_engine.
Proof.
  split; unfold numeric, digits_engine.
  - intros s -> ->. done.
  - intros s Hs. by rewrite non_numeric_not_digits.
Qed.



End Batches.

(* ===================================================================== *)
(** * More of the field extractor                                         *)
(* ===================================================================== *)

Section TextLemmas.
Context `{UnicodeLaws}.

(** Replacing a single character by nothing removes its occurrences. *)
Lemma replace_char (s : str) (c : N) :
  replace s [c] [] = List.filter (fun x => negb (x =? c)%N) s.
Proof.
  unfold replace. induction s as [|x s IH]; [done|].
  cbn [replace_go startswith List.filter length Nat.sub app].
  rewrite andb_true_r, N.eqb_sym.
  destruct (x =? c)%N; cbn [negb]; by rewrite IH.
Qed.

Lemma filter_contains (s : str) (c : N) :
  contains [c] (List.filter (fun x => negb (x =? c)%N) s) = false.
Proof.
  apply not_true_is_false. intros (pre & post & Heq)%contains_spec.
  assert (In c (List.filter (fun x => negb (x =? c)%N) s)) as Hin
    by (rewrite Heq; apply in_or_app; right; by left).
  apply filter_In in Hin as [_ Hc]. by rewrite N.eqb_refl in Hc.
Qed.

Lemma drop_while_Forall (P : N -> Prop) (p : N -> bool) (s : str) :
  Forall P s -> Forall P (drop_while p s).
Proof.
  induction 1 as [|c s Hc Hs IH]; [constructor|].
  cbn [drop_while]. destruct (p c); [done|by constructor].
Qed.

Lemma drop_while_suffix (p : N -> bool) (s : str) :
  exists a, s = a ++ drop_while p s /\ Forall (fun c => p c = true) a.
Proof.
  exists (take_while p s). split; [by rewrite take_drop_while|].
  apply take_while_Forall.
Qed.

(** A trimmed string neither starts nor ends with whitespace. *)
Lemma strip_ends (s : str) (c : N) :
  head (strip s) = Some c \/ last (strip s) = Some c -> is_space c = false.
Proof.
  unfold strip, rstrip, lstrip.
  set (t := drop_while is_space s).
  destruct (drop_while_suffix is_space (rev t)) as (a & Ha & _).
  set (t' := drop_while is_space (rev t)) in *.
  intros [Hh|Hl].
  - apply (drop_while_head is_space s). fold t.
    apply (f_equal (@rev N)) in Ha. rewrite rev_involutive, rev_app_distr in Ha.
    rewrite Ha. destruct (rev t'); [done|]. exact Hh.
  - apply (drop_while_head is_space (rev t)). fold t'.
    rewrite <- Hl. clear. generalize t'. intros l.
    rewrite <- (rev_involutive l) at 1.
    destruct (rev l) as [|x l'] using rev_ind; [done|].
    rewrite rev_app_distr. cbn [rev app head]. by rewrite last_snoc.
Qed.

Lemma isdigit_Forall (s : str) :
  isdigit s = true -> s ≠ [] /\ Forall (fun c => is_digit c = true) s.
Proof.
  destruct s as [|c s]; [done|]. unfold isdigit. intros Hs. split; [done|].
  apply List.Forall_forall. intros x Hx.
  rewrite forallb_forall in Hs. by apply Hs.
Qed.

Lemma digits_acc_nonneg (s : list N) (acc : Z) (b : bool) (v : Z) :
  (0 <= acc)%Z -> digits_acc acc b s = Some v -> (0 <= v)%Z.
Proof.
  revert acc b. induction s as [|c s IH]; intros acc b Hacc; cbn [digits_acc].
  - destruct b; [|done]. intros [= <-]. done.
  - destruct ((48 <=? c) && (c <=? 57))%N.
    + apply IH. lia.
    + destruct ((c =? 95)%N && b); [by apply IH|done].
Qed.

(** A digit character becomes an ASCII digit, a blank or a question mark. *)
Lemma to_ascii_digit (c : N) :
  is_digit c = true ->
  (48 <= to_ascii c <= 57)%N \/ to_ascii c = 32%N \/ to_ascii c = 63%N.
Proof.
  intros Hd. unfold to_ascii. destruct (c <? 127)%N eqn:Hc.
  - apply N.ltb_lt in Hc. rewrite ascii_is_digit in Hd by lia.
    destruct (ascii_decimal c) as [d|] eqn:Ed; [|done].
    apply ascii_decimal_Some in Ed. left. lia.
  - destruct (is_space c); [by right; left|].
    destruct (to_decimal c) as [d|] eqn:Ed; [|by right; right].
    apply decimal_range in Ed. left. lia.
Qed.

(** [int()] of a string that passes [isdigit()] is never negative. *)
Lemma int_of_str_nonneg (s : str) (n : Z) :
  isdigit s = true -> int_of_str s = Ok n -> (0 <= n)%Z.
Proof.
  intros [_ Hs]%isdigit_Forall. unfold int_of_str.
  set (t := rev _).
  assert (Forall (fun c => c ≠ 43%N /\ c ≠ 45%N) t) as Ht.
  { subst t. apply Forall_rev, drop_while_Forall, Forall_rev, drop_while_Forall.
    apply Forall_map. eapply Forall_impl; [exact Hs|].
    intros c Hc. cbn beta. destruct (to_ascii_digit c Hc) as [?|[?|?]]; lia. }
  destruct t as [|c b].
  - done.
  - apply Forall_cons in Ht as [[H43 H45] _].
    apply N.eqb_neq in H43, H45. rewrite H43, H45.
    destruct (digits_acc 0 false (c :: b)) as [v|] eqn:Ev; [|done].
    intros [= <-]. by apply (digits_acc_nonneg (c :: b) 0 false).
Qed.

Lemma int_value_nonneg (s : str) : (0 <= int_value s)%Z.
Proof.
  unfold int_value.
  assert (forall acc, (0 <= acc)%Z ->
            (0 <= fold_left (fun a c => (10 * a + digit_of c)%Z) s acc)%Z) as Hacc.
  { induction s as [|c s IH]; intros acc Hacc; cbn [fold_left]; [done|].
    apply IH. unfold digit_of. lia. }
  by apply Hacc.
Qed.

End TextLemmas.

Section MoreFeatureLemmas.
Context `{UnicodeLaws}.
Import re Domain_Parser.

Lemma filter_idem {A} (f : A -> bool) (l : list A) :
  List.filter f (List.filter f l) = List.filter f l.
Proof.
  induction l as [|x l IH]; [done|]. cbn [List.filter].
  destruct (f x) eqn:Hx; [|done]. cbn [List.filter]. by rewrite Hx, IH.
Qed.

Lemma decimal_digit (c : N) : is_decimal c = true -> is_digit c = true.
Proof.
  unfold is_decimal. destruct (to_decimal c) as [d|] eqn:Ed; [|done].
  intros _. by apply (decimal_is_digit c d).
Qed.

(** What [leading_int] returns where the chip has a leading token. *)
Lemma leading_int_result (chip : str) :
  leading_token chip ≠ [] ->
  match leading_int chip with
  | Ok (Some n) => (0 <= n)%Z
  | Ok None => True
  | Raise e =>
    isdigit (leading_token chip) = true /\ e = ValueError (leading_token chip)
  end.
Proof.
  intros Ht. unfold leading_int. rewrite (index0_split_ok chip Ht).
  unfold_result. destruct (isdigit (leading_token chip)) eqn:Hd; [|done].
  destruct (int_of_str (leading_token chip)) as [n|e] eqn:En.
  - by apply (int_of_str_nonneg (leading_token chip)).
  - split; [done|]. unfold int_of_str in En.
    repeat match type of En with
           | context [match ?x with _ => _ end] => destruct x
           end; by simplify_eq.
Qed.

Lemma feature_step_result (st : details) (chip : str) :
  nonneg st ->
  match feature_step st chip with
  | Ok st' => nonneg st'
  | Raise e =>
    isdigit (leading_token chip) = true /\ e = ValueError (leading_token chip)
  end.
Proof.
  intros Hst. rewrite feature_step_classified.
  destruct st as [[[bedrooms baths] parking] area].
  destruct (classify chip) as [f|] eqn:Ec; [|done].
  assert (f ≠ Area -> leading_token chip ≠ []) as Htok.
  { intros Hf. apply (keyword_token f); [done|].
    unfold classify in Ec. apply find_some in Ec. tauto. }
  destruct f.
  1-3: pose proof (leading_int_result chip (Htok ltac:(done))) as Hl;
       destruct (leading_int chip) as [[n|]|e]; unfold_result; [| |done];
       intros [] m Hm; cbn [get] in Hm; simplify_eq; try done;
       match goal with
       | |- (0 <= ?m)%Z =>
         first [ apply (Hst Bedrooms m); reflexivity
               | apply (Hst Baths m); reflexivity
               | apply (Hst Parking m); reflexivity
               | apply (Hst Area m); reflexivity ]
       end.
  intros [] m Hm; cbn [get] in Hm.
  - by apply (Hst Bedrooms m).
  - by apply (Hst Baths m).
  - by apply (Hst Parking m).
  - destruct (first_digit_run chip) as [|c r]; [done|]. simplify_eq.
    apply int_value_nonneg.
Qed.

Lemma for_features_result (chips : list str) (st : details) :
  nonneg st ->
  match for_features chips st with
  | Ok st' => nonneg st'
  | Raise e =>
    exists chip, In chip chips /\ isdigit (leading_token chip) = true
                 /\ e = ValueError (leading_token chip)
  end.
Proof.
  revert st. induction chips as [|chip chips IH]; intros st Hst; [done|].
  cbn [for_features]. pose proof (feature_step_result st chip Hst) as Hs.
  destruct (feature_step st chip) as [st1|e]; unfold_result.
  - specialize (IH st1 Hs). destruct (for_features chips st1) as [st'|e]; [done|].
    destruct IH as (c & Hc & Hd & He). exists c. split; [by right|done].
  - exists chip. split; [by left|done].
Qed.

End MoreFeatureLemmas.

Section MoreExtractorProperties.
Context `{UnicodeLaws}.
Import re Selectolax Domain_Parser.

Lemma parse_price_result (html : HTMLParser) :
  match parse_price html with
  | Ok (Some price) => (0 <= price)%Z
  | Ok None => True
  | Raise e =>
    exists elem,
      css_first html "div.css-rxp4mi div.css-1gkcyyc div.css-qrqvvg p.css-mgq8yx"
      = Some elem
      /\ let residue := strip (replace (replace (text elem) (u "$") []) (u ",") []) in
         isdigit residue = true /\ e = ValueError residue
  end.
Proof.
  unfold parse_price.
  destruct (css_first html _) as [elem|]; [|done].
  set (residue := strip _).
  destruct (isdigit residue) eqn:Hd; [|done]. unfold_result.
  destruct (int_of_str residue) as [n|e] eqn:En.
  - by apply (int_of_str_nonneg residue).
  - exists elem. split; [done|]. cbn zeta. fold residue. split; [done|].
    unfold int_of_str in En.
    repeat match type of En with
           | context [match ?x with _ => _ end] => destruct x
           end; by simplify_eq.
Qed.

Lemma parse_property_details_result (html : HTMLParser) :
  match parse_property_details html with
  | Ok st => nonneg st
  | Raise e =>
    exists wrapper chip,
      css_first html "div[data-testid='property-features-wrapper']" = Some wrapper
      /\ In chip (text <$> css wrapper "span[data-testid='property-features-feature']")
      /\ isdigit (leading_token chip) = true
      /\ e = ValueError (leading_token chip)
  end.
Proof.
  unfold parse_property_details.
  assert (nonneg (None, None, None, None)) as Hnone by (by intros []).
  destruct (css_first html _) as [wrapper|].
  - pose proof (for_features_result
                  (List.map text (css wrapper "span[data-testid='property-features-feature']"))
                  _ Hnone) as Hr.
    destruct (for_features _ _) as [st|e]; [done|].
    destruct Hr as (chip & Hin & Hd & He). by exists wrapper, chip.
  - done.
Qed.

End MoreExtractorProperties.

Section MoreRecordProperties.
Context `{UnicodeLaws}.
Import Selectolax Domain_Parser.

Lemma well_typed_of_str (k : string) (o : option str) :
  int_field k = false -> well_typed k (of_str o) = true.
Proof. intros Hk. destruct o; cbn [of_str of_int well_typed]; by rewrite ?Hk. Qed.

Lemma well_typed_of_int (k : string) (o : option Z) :
  int_field k = true -> well_typed k (of_int o) = true.
Proof. intros Hk. destruct o; cbn [of_str of_int well_typed]; by rewrite ?Hk. Qed.

Lemma extracted_insert (d : gmap string value) (k : string) (v : value) :
  In k domain_fields -> field_ok k v -> extracted d -> extracted (<[k := v]> d).
Proof.
  intros Hk Hv [Hkeys Hd]. split; [|by apply map_Forall_insert_2].
  intros k'. rewrite lookup_insert_is_Some', Hkeys.
  split; [intros [<-|?]; done|tauto].
Qed.

Lemma field_ok_of_str (k : string) (o : option str) :
  int_field k = false -> field_ok k (of_str o).
Proof.
  intros Hk. split; [by apply well_typed_of_str|]. by destruct o.
Qed.

Lemma field_ok_of_int (k : string) (o : option Z) :
  int_field k = true -> (forall n, o = Some n -> (0 <= n)%Z) ->
  field_ok k (of_int o).
Proof.
  intros Hk Ho. split; [by apply well_typed_of_int|].
  destruct o as [m|]; [|done]. intros n [= <-]. by apply Ho.
Qed.

Lemma default_record_extracted : extracted default_record.
Proof.
  split.
  - intros k. unfold default_record, domain_fields. cbn [insert_sql In].
    rewrite !lookup_insert_is_Some', lookup_empty.
    pose proof (@is_Some_None value). tauto.
  - unfold default_record.
    repeat (apply map_Forall_insert_2; [by split|]). apply map_Forall_empty.
Qed.

Lemma parse_html_fields (html : HTMLParser) :
  extracted (fst (parse_html html)).
Proof.
  pose proof (parse_price_result html) as Hprice.
  pose proof (parse_property_details_result html) as Hdetails.
  pose proof default_record_extracted as Hdefault.
  unfold parse_html, try_extract.
  destruct (parse_sale_info html) as [sale_type sale_date].
  assert (extracted
            (<["sale_date" := of_str sale_date]>
               (<["sale_type" := of_str sale_type]> default_record))) as Hsale
    by (do 2 (apply extracted_insert; [is_field| |]; [by apply field_ok_of_str|]); done).
  destruct (parse_price html) as [price|e]; [|done].
  match goal with
  | |- context [match parse_property_details html with _ => _ end] =>
    match goal with
    | |- context [match ?a with Some _ => _ | None => ?d end] =>
      assert (extracted
                match a with
                | Some elem =>
                  let '(address, postcode) := parse_address (text elem) in
                  <["postcode" := of_str postcode]> (<["address" := VStr address]> d)
                | None => d
                end) as Haddr
    end
  end.
  { assert (extracted
              (<["price" := of_int price]>
                 (<["sale_date" := of_str sale_date]>
                    (<["sale_type" := of_str sale_type]> default_record)))) as Hp.
    { apply extracted_insert; [is_field| |]; [|done]. apply field_ok_of_int; [done|].
      by intros n ->. }
    destruct (css_first html
                "div.css-qrqvvg a.address.is-two-lines.css-1y2bib4 h2.css-bqbbuf")
      as [elem|]; [|exact Hp].
    destruct (parse_address (text elem)) as [address postcode].
    apply extracted_insert; [is_field| |]; [by apply field_ok_of_str|].
    apply extracted_insert; [is_field| |]; [by split|]. exact Hp. }
  destruct (parse_property_details html) as [[[[bedrooms baths] parking] area]|e].
  - cbn [fst].
    apply extracted_insert; [is_field| |]; [by apply field_ok_of_str|].
    apply extracted_insert; [is_field| |];
      [apply field_ok_of_int; [done|]; intros n ->; by apply (Hdetails Area)|].
    apply extracted_insert; [is_field| |];
      [apply field_ok_of_int; [done|]; intros n ->; by apply (Hdetails Parking)|].
    apply extracted_insert; [is_field| |];
      [apply field_ok_of_int; [done|]; intros n ->; by apply (Hdetails Baths)|].
    apply extracted_insert; [is_field| |];
      [apply field_ok_of_int; [done|]; intros n ->; by apply (Hdetails Bedrooms)|].
    exact Haddr.
  - exact Haddr.
Qed.

Lemma parse_html_printed (html : HTMLParser) :
  match snd (parse_html html) with
  | [] => True
  | [Error_parsing_HTML e] => exists literal, e = ValueError literal
  | _ => False
  end.
Proof.
  pose proof (parse_price_result html) as Hprice.
  pose proof (parse_property_details_result html) as Hdetails.
  unfold parse_html, try_extract.
  destruct (parse_sale_info html) as [sale_type sale_date].
  destruct (parse_price html) as [price|e].
  - destruct (css_first html _) as [elem|];
      try destruct (parse_address (text elem)) as [address postcode];
      destruct (parse_property_details html) as [[[[bedrooms baths] parking] area]|e];
      cbn [fst snd]; try done;
      destruct Hdetails as (? & ? & _ & _ & _ & ->); by eexists.
  - cbn [snd]. destruct Hprice as (? & _ & _ & ->). by eexists.
Qed.

End MoreRecordProperties.

Section StoreLemmas.
Context `{Sqlite.Engine}.
Import Sqlite Domain_Parser.

Lemma executemany_app (q : stmt) (a b : list (gmap string value))
    (db : gmap string table) :
  executemany q (a ++ b) db = (db' ← executemany q a db; executemany q b db').
Proof.
  revert db. induction a as [|d a IH]; intros db; [done|].
  cbn [app executemany]. destruct (execute q d db) as [r|e]; unfold_result; [|done].
  apply IH.
Qed.

(** The INSERT statement on a table with the columns of the CREATE
    statement: the ten parameters are bound and the row is added. *)
Lemma execute_insert (db : gmap string table) (t : table) (d : gmap string value) :
  db !! "Domain" = Some t -> columns t = domain_columns ->
  execute insert_sql d db
  = (vals ← bind_all domain_fields d;
     mret (<["Domain" := insert_row t domain_fields vals]> db, [])).
Proof.
  intros Hdb Hcols. unfold execute, insert_sql. rewrite Hdb.
  unfold has_column. rewrite Hcols. reflexivity.
Qed.

Lemma bind_all_result (params : list string) (d : gmap string value) :
  match bind_all params d with
  | Ok vals =>
    Forall2 (fun k x => exists v, d !! k = Some v /\ bind v = Ok x) params vals
  | Raise e =>
    (e = ProgrammingError /\ exists k, In k params /\ d !! k = None)
    \/ (e = OverflowError
        /\ exists k n, In k params /\ d !! k = Some (VInt n) /\ int64 n = false)
  end.
Proof.
  induction params as [|k params IH]; [constructor|].
  cbn [bind_all]. destruct (d !! k) as [v|] eqn:Ek.
  - destruct (bind v) as [x|e] eqn:Ev; unfold_result.
    + destruct (bind_all params d) as [vals|e].
      * constructor; [by exists v|done].
      * destruct IH as [(-> & k' & Hk' & Hn)|(-> & k' & n & Hk' & Hn)].
        -- left. split; [done|]. exists k'. split; [by right|done].
        -- right. split; [done|]. exists k', n. split; [by right|done].
    + right. destruct v as [|n|s]; try discriminate. cbn [bind] in Ev.
      destruct (int64 n) eqn:En; [discriminate|]. injection Ev as <-.
      split; [done|]. exists k, n. split; [by left|done].
  - left. split; [done|]. exists k. split; [by left|done].
Qed.

(** The row ids of a batch: whatever the records hold, the rows added get
    the ids after the table's sequence, one each, in order. *)
Lemma executemany_insert (data : list (gmap string value)) :
  forall (db db' : gmap string table) (t : table),
    db !! "Domain" = Some t -> columns t = domain_columns ->
    executemany insert_sql data db = Ok db' ->
    exists t' new,
      db' = <["Domain" := t']> db
      /\ columns t' = domain_columns
      /\ sequence t' = (sequence t + Z.of_nat (length data))%Z
      /\ rows t' = rows t ++ new
      /\ head <$> new
         = (fun i => Some (Integer i)) <$> seqZ (sequence t + 1) (Z.of_nat (length data)).
Proof.
  induction data as [|d data IH]; intros db db' t Hdb Hcols.
  - intros [= <-]. exists t, []. split; [by rewrite insert_id|].
    split; [done|]. split; [cbn; lia|]. split; [by rewrite app_nil_r|done].
  - cbn [executemany]. rewrite (execute_insert db t d Hdb Hcols).
    destruct (bind_all domain_fields d) as [vals|e]; unfold_result; [|done].
    cbn [fst]. intros Hrest.
    destruct (IH (<["Domain" := insert_row t domain_fields vals]> db) db'
                 (insert_row t domain_fields vals))
      as (t' & new & -> & Hc & Hs & Hr & Hids);
      [apply lookup_insert_eq|by cbn|done|].
    exists t', (new_row t domain_fields vals :: new).
    split; [by rewrite insert_insert_eq|]. split; [done|].
    cbn [insert_row sequence rows] in *.
    split; [rewrite Hs; cbn [length]; lia|].
    split; [by rewrite Hr, <- app_assoc|].
    cbn [length].
    replace (Z.of_nat (S (length data))) with (Z.succ (Z.of_nat (length data))) by lia.
    rewrite seqZ_cons by lia. cbn [list_fmap]. rewrite Hids, Z.pred_succ.
    f_equal. unfold new_row. by rewrite Hcols.
Qed.

End StoreLemmas.

Section MoreSinkProperties.
Context `{Sqlite.Engine}.
Import Sqlite Domain_Parser.

Lemma bind_all_ext (params : list string) (d d' : gmap string value) :
  (forall k, In k params -> d !! k = d' !! k) ->
  bind_all params d = bind_all params d'.
Proof.
  induction params as [|k params IH]; intros Hd; [done|].
  cbn [bind_all]. rewrite <- (Hd k) by (by left).
  rewrite IH; [done|]. intros k' Hk'. apply Hd. by right.
Qed.

(** An extracted record binds unless one of its integers is 2^63 or more. *)
Lemma bind_all_extracted (d : gmap string value) :
  extracted d ->
  match bind_all domain_fields d with
  | Ok _ => forall k n, d !! k = Some (VInt n) -> (n < 2 ^ 63)%Z
  | Raise e =>
    e = OverflowError /\ exists k n, d !! k = Some (VInt n) /\ (2 ^ 63 <= n)%Z
  end.
Proof.
  intros [Hkeys Hok]. pose proof (bind_all_result domain_fields d) as Hr.
  destruct (bind_all domain_fields d) as [vals|e].
  - intros k n Hk.
    assert (In k domain_fields) as Hin by (apply Hkeys; by rewrite Hk).
    apply list_elem_of_In, list_elem_of_lookup in Hin as [i Hi].
    destruct (Forall2_lookup_l _ _ _ _ _ Hr Hi) as (x & _ & v & Hv & Hb).
    rewrite Hk in Hv. injection Hv as <-. cbn [bind] in Hb.
    unfold int64 in Hb. destruct (_ && _) eqn:Hn; [lia|done].
  - destruct Hr as [(_ & k & Hk & Hn)|(-> & k & n & Hk & Hn & Hi)].
    + apply Hkeys in Hk as [v Hv]. congruence.
    + split; [done|]. exists k, n. split; [done|].
      destruct (Hok k (VInt n) Hn) as [_ Hpos]. specialize (Hpos n eq_refl).
      unfold int64 in Hi. lia.
Qed.

Lemma insert_extracted (data : list (gmap string value)) :
  Forall extracted data ->
  forall (db : gmap string table) (t : table),
    db !! "Domain" = Some t -> columns t = domain_columns ->
    match insert_data db data with
    | Ok _ => forall d k n, In d data -> d !! k = Some (VInt n) -> (n < 2 ^ 63)%Z
    | Raise e =>
      e = OverflowError
      /\ exists d k n, In d data /\ d !! k = Some (VInt n) /\ (2 ^ 63 <= n)%Z
    end.
Proof.
  unfold insert_data.
  induction 1 as [|d data Hd _ IH]; intros db t Hdb Hcols.
  - cbn. by intros.
  - cbn [executemany]. rewrite (execute_insert db t d Hdb Hcols).
    pose proof (bind_all_extracted d Hd) as Hb.
    destruct (bind_all domain_fields d) as [vals|e]; unfold_result.
    + cbn [fst].
      specialize (IH (<["Domain" := insert_row t domain_fields vals]> db)
                     (insert_row t domain_fields vals)
                     ltac:(apply lookup_insert_eq) ltac:(by cbn)).
      destruct (executemany insert_sql data _) as [db'|e].
      * intros d' k n [<-|Hin]; [apply Hb|by apply IH].
      * destruct IH as (-> & d' & k & n & Hin & Hk). split; [done|].
        exists d', k, n. split; [by right|done].
    + destruct Hb as (-> & k & n & Hk). split; [done|].
      exists d, k, n. split; [by left|done].
Qed.

End MoreSinkProperties.

Section NullableRows.
Context `{Sqlite.EngineLaws}.
Import Sqlite Domain_Parser.

Lemma bind_all_fits (params : list string) (d : gmap string value) :
  (forall k, In k params -> is_Some (d !! k)) ->
  (forall k n, d !! k = Some (VInt n) -> int64 n = true) ->
  exists vals,
    bind_all params d = Ok vals
    /\ Forall2 (fun k x => exists v, d !! k = Some v /\ bind v = Ok x) params vals.
Proof.
  intros Hkeys Hfit. pose proof (bind_all_result params d) as Hr.
  destruct (bind_all params d) as [vals|e]; [by exists vals|].
  destruct Hr as [(_ & k & Hk & Hn)|(_ & k & n & _ & Hk & Hn)].
  - apply Hkeys in Hk as [v Hv]. congruence.
  - rewrite (Hfit k n Hk) in Hn. done.
Qed.

(** A field of a typed record that fits, stored under the affinity of its
    column and fetched. *)
Lemma read_back (k : string) (a : affinity) (d : gmap string value) (x : sqlval) :
  typed d -> fits d -> In k domain_fields ->
  a = (if int_field k || String.eqb k "postcode" then INTEGER else TEXT) ->
  (exists v, d !! k = Some v /\ bind v = Ok x) ->
  fetch (store a x) = as_read k (default VNone (d !! k)).
Proof.
  intros Htyped [Hints Hpost] Hin -> (v & Hv & Hb).
  unfold typed in Htyped. rewrite List.Forall_forall in Htyped.
  destruct (Htyped k Hin) as (v' & Hv' & Hty). rewrite Hv in Hv'. injection Hv' as <-.
  rewrite Hv. cbn [default]. destruct v as [|n|s]; cbn [bind well_typed] in *.
  - injection Hb as <-. by destruct (_ || _).
  - rewrite Hty. rewrite (Hints k n Hv) in Hb. injection Hb as <-. reflexivity.
  - injection Hb as <-. apply negb_true_iff in Hty. rewrite Hty.
    cbn [orb as_read default from_option id].
    destruct (String.eqb k "postcode") eqn:Hk; [|reflexivity].
    apply String.eqb_eq in Hk as ->. cbn [store]. unfold postcode_read.
    destruct (Hpost s Hv) as [[Hd Hr]|Hn].
    + by rewrite numeric_integer, Hd.
    + by rewrite numeric_text, non_numeric_not_digits.
Qed.

Lemma cons_eq {A} (a b : A) (l l' : list A) : a = b -> l = l' -> a :: l = b :: l'.
Proof. by intros -> ->. Qed.

Lemma insert_typed_one (db : gmap string table) (t : table) (d : gmap string value) :
  db !! "Domain" = Some t -> columns t = domain_columns ->
  typed d -> fits d ->
  exists r,
    execute insert_sql d db
    = Ok (<["Domain" := {| columns := domain_columns;
                           sequence := (sequence t + 1)%Z;
                           rows := rows t ++ [r] |}]> db, [])
    /\ List.map fetch r = row_of (sequence t + 1) d.
Proof.
  intros Hdb Hcols Htyped Hfits. rewrite (execute_insert db t d Hdb Hcols).
  destruct (bind_all_fits domain_fields d) as (vals & -> & Hvals).
  { intros k Hk. unfold typed in Htyped. rewrite List.Forall_forall in Htyped.
    destruct (Htyped k Hk) as (v & -> & _). by eexists. }
  { apply Hfits. }
  unfold_result. eexists. split.
  { unfold insert_row. rewrite Hcols. reflexivity. }
  unfold new_row. rewrite Hcols.
  unfold domain_fields in Hvals. cbn [insert_sql] in Hvals.
  repeat match type of Hvals with
         | Forall2 _ (_ :: _) _ =>
           let x := fresh "x" in let Hx := fresh "Hx" in
           apply Forall2_cons_inv_l in Hvals as (x & ? & Hx & Hvals & ->)
         end.
  apply Forall2_nil_inv_l in Hvals as ->.
  unfold row_of, domain_fields.
  cbn [List.map list_fmap fmap insert_sql domain_columns create_table_sql
       autoincrement cname ctype assoc String.eqb Ascii.eqb Bool.eqb].
  apply cons_eq; [done|].
  repeat (apply cons_eq;
          [apply read_back; [done|done|is_field|reflexivity|done]|]).
  done.
Qed.

End NullableRows.

Section MainLemmas.
Context `{UnicodeData} `{Sqlite.Engine} (document : str -> Selectolax.HTMLParser).
Import Sqlite Domain_Parser.

Lemma records_app (a b : list str) :
  records document (a ++ b) = records document a ++ records document b.
Proof. apply fmap_app. Qed.

Lemma for_rows_spec (rows : list str) (all_data : list (gmap string value))
    (out : list message) :
  for_rows document rows all_data out
  = (all_data ++ records document rows, out ++ errors document rows).
Proof.
  revert all_data out. induction rows as [|r rows IH]; intros all_data out.
  - cbn. by rewrite !app_nil_r.
  - cbn [for_rows]. destruct (parse_html (document r)) as [d printed] eqn:Er.
    rewrite IH. unfold records, errors. cbn [fmap list_fmap flat_map].
    rewrite Er. cbn [fst snd]. by rewrite <- !app_assoc.
Qed.

(** The loop over the chunks, entered with an empty list: the chunks before
    the first whose batch raises are inserted and committed, each as one
    batch; what is printed is their report and the lines of the failing
    chunk. *)
Lemma for_chunks_spec (chunks : list (list str)) (db : gmap string table)
    (out : list message) :
  let '(db', out', e) := for_chunks document chunks [] db out in
  exists done rest,
    chunks = done ++ rest
    /\ insert_data db (records document (concat done)) = Ok db'
    /\ out' = out ++ report document done
              ++ match e, rest with
                 | Some _, chunk :: _ => errors document chunk
                 | _, _ => []
                 end
    /\ match e with
       | None => rest = []
       | Some e =>
         exists chunk rest',
           rest = chunk :: rest'
           /\ insert_data db' (records document chunk) = Raise e
       end.
Proof.
  revert db out. induction chunks as [|chunk chunks IH]; intros db out.
  - cbn [for_chunks]. exists [], []. by rewrite !app_nil_r.
  - cbn [for_chunks]. rewrite for_rows_spec. cbn [app].
    destruct (insert_data db (records document chunk)) as [db1|e] eqn:Ei.
    + specialize (IH db1 ((out ++ errors document chunk)
                          ++ [Processed_a_chunk_of_size chunk_size])).
      destruct (for_chunks document chunks [] db1 _) as [[db' out'] e].
      destruct IH as (done & rest & -> & Hins & -> & He).
      exists (chunk :: done), rest. split; [done|]. split.
      * cbn [concat]. rewrite records_app. unfold insert_data in *.
        rewrite executemany_app, Ei. exact Hins.
      * split; [|done]. unfold report. cbn [flat_map].
        by rewrite <- !app_assoc.
    + exists [], (chunk :: chunks). split; [done|]. split; [done|].
      split; [reflexivity|]. by exists chunk, chunks.
Qed.

Lemma create_table_result (db : gmap string table) :
  create_table db
  = Ok (match db !! "Domain" with
        | Some _ => db
        | None => <["Domain" := {| columns := domain_columns; sequence := 0;
                                   rows := [] |}]> db
        end).
Proof.
  unfold create_table, create_table_sql. cbn [execute].
  by destruct (db !! "Domain").
Qed.

Lemma create_table_ready (db db0 : gmap string table) :
  domain_ready db -> create_table db = Ok db0 ->
  exists t, db0 !! "Domain" = Some t /\ columns t = domain_columns.
Proof.
  unfold domain_ready. rewrite create_table_result. intros Hr [= <-].
  destruct (db !! "Domain") as [t|] eqn:Hdb.
  - by exists t.
  - eexists. split; [apply lookup_insert_eq|done].
Qed.

Lemma main_spec (chunks : list (list str)) (db : gmap string table) :
  let '(db', out, e) := main document chunks db in
  exists db0 done rest,
    create_table db = Ok db0
    /\ chunks = done ++ rest
    /\ insert_data db0 (records document (concat done)) = Ok db'
    /\ out = report document done
             ++ match e, rest with
                | Some _, chunk :: _ => errors document chunk
                | _, _ => []
                end
    /\ match e with
       | None => rest = []
       | Some e =>
         exists chunk rest',
           rest = chunk :: rest'
           /\ insert_data db' (records document chunk) = Raise e
       end.
Proof.
  unfold main. rewrite create_table_result.
  set (db0 := match db !! "Domain" with Some _ => db | None => _ end).
  pose proof (for_chunks_spec chunks db0 []) as Hc.
  destruct (for_chunks document chunks [] db0 []) as [[db' out] e].
  destruct Hc as (done & rest & Hch & Hins & Hout & He).
  by exists db0, done, rest.
Qed.

End MainLemmas.

Section FetchLemmas.
Context `{Domain_Scraper.RuntimeLaws W}.
Import Domain_Scraper.

Lemma retry_trace_cons (url : str) (attempt : Z) (exc : http_exc) (wait : Q)
    (rounds : list (http_exc * Q)) :
  retry_trace url attempt ((exc, wait) :: rounds)
  = [Get url (Failure exc); Print_retry (attempt + 1) url wait exc; Sleep wait]
    ++ retry_trace url (attempt + 1) rounds.
Proof.
  unfold retry_trace. cbn [imap concat]. f_equal.
  - unfold retry_round. cbn [fst snd]. by rewrite Z.add_0_r.
  - f_equal. apply imap_ext. intros i y _. unfold compose, retry_round.
    by replace (attempt + Z.of_nat (S i) + 1)%Z with (attempt + 1 + Z.of_nat i + 1)%Z
      by lia.
Qed.

Lemma gets_app (a b : list event) : gets (a ++ b) = gets a ++ gets b.
Proof. apply omap_app. Qed.

Lemma sleeps_app (a b : list event) : sleeps (a ++ b) = sleeps a ++ sleeps b.
Proof. apply omap_app. Qed.

Lemma gets_retry_trace (url : str) (attempt : Z) (rounds : list (http_exc * Q)) :
  gets (retry_trace url attempt rounds) = replicate (length rounds) url.
Proof.
  revert attempt. induction rounds as [|[exc wait] rounds IH]; intros attempt; [done|].
  rewrite retry_trace_cons, gets_app, IH. done.
Qed.

Lemma sleeps_retry_trace (url : str) (attempt : Z) (rounds : list (http_exc * Q)) :
  sleeps (retry_trace url attempt rounds) = rounds.*2.
Proof.
  revert attempt. induction rounds as [|[exc wait] rounds IH]; intros attempt; [done|].
  rewrite retry_trace_cons, sleeps_app, IH. done.
Qed.

(** The trace of the retry loop in any world: some failed attempts, each
    with its message and its sleep, then the successful request or the
    message of failure. *)
Lemma fetch_loop_trace (fuel : nat) (url : str) (retries attempt : Z) (w : W) :
  (0 <= attempt)%Z ->
  let '(response_text, evs, _) := fetch_loop fuel url retries attempt w in
  exists rounds,
    evs = retry_trace url attempt rounds ++ [last_event url retries response_text]
    /\ (response_text = None -> length rounds = fuel)
    /\ (is_Some response_text -> length rounds < fuel)
    /\ (forall i x, rounds !! i = Some x ->
          (inject_Z (2 ^ (attempt + Z.of_nat i + 1)) <= x.2)%Q
          /\ (x.2 <= longest_wait (attempt + Z.of_nat i + 1))%Q).
Proof.
  revert attempt w. induction fuel as [|fuel IH]; intros attempt w Hatt.
  - cbn [fetch_loop]. exists []. split; [done|]. split; [done|].
    split; [by intros []|done].
  - cbn [fetch_loop]. destruct (client_get w url) as [[text|exc] w1].
    + exists []. split; [done|]. split; [done|]. split; [simpl; lia|done].
    + destruct (random w1) as [x w2] eqn:Ex.
      pose proof (random_range w1) as [Hlo Hhi]. rewrite Ex in Hlo, Hhi.
      cbn [fst] in Hlo, Hhi.
      specialize (IH (attempt + 1)%Z w2 ltac:(lia)).
      destruct (fetch_loop fuel url retries (attempt + 1) w2) as [[r evs] w'].
      destruct IH as (rounds & -> & Hnone & Hsome & Hwaits).
      pose proof (wait_bounds (attempt + 1) x ltac:(lia) Hlo Hhi) as Hwait.
      cbn zeta in Hwait. revert Hwait.
      generalize (float_add (float_of_int (2 ^ (attempt + 1)))
                            (float_mul x (round (1 # 10)))).
      intros wait Hwait.
      exists ((exc, wait) :: rounds).
      split; [rewrite retry_trace_cons; reflexivity|].
      split; [intros Hr; cbn [length]; by rewrite Hnone|].
      split; [intros Hr; cbn [length]; specialize (Hsome Hr); lia|].
      intros [|i] y Hy.
      * injection Hy as <-. cbn [snd]. by rewrite Z.add_0_r.
      * cbn in Hy. specialize (Hwaits i y Hy).
        by replace (attempt + Z.of_nat (S i) + 1)%Z
          with (attempt + 1 + Z.of_nat i + 1)%Z by lia.
Qed.

End FetchLemmas.

Section BackoffLemmas.

(** The sum of the delays 2^(a+1), ..., 2^(a+k), each with a jitter below
    [d]. *)
Lemma total_waits (waits : list Q) (a : Z) (d : Q) :
  (0 <= a)%Z ->
  (forall i x, waits !! i = Some x ->
     (inject_Z (2 ^ (a + Z.of_nat i + 1)) <= x)%Q
     /\ (x < inject_Z (2 ^ (a + Z.of_nat i + 1)) + d)%Q) ->
  (inject_Z (2 ^ (a + Z.of_nat (length waits) + 1)) - inject_Z (2 ^ (a + 1))
   <= total waits)%Q
  /\ (total waits
      <= inject_Z (2 ^ (a + Z.of_nat (length waits) + 1)) - inject_Z (2 ^ (a + 1))
         + inject_Z (Z.of_nat (length waits)) * d)%Q.
Proof.
  revert a. induction waits as [|x waits IH]; intros a Ha Hw.
  - cbn [length total fold_right]. rewrite Z.add_0_r. change (inject_Z (Z.of_nat 0)) with 0%Q.
    split; lra.
  - destruct (Hw 0%nat x eq_refl) as [Hlo Hhi]. rewrite Z.add_0_r in Hlo, Hhi.
    destruct (IH (a + 1)%Z ltac:(lia)) as [Hl Hu].
    { intros i y Hy. specialize (Hw (S i) y Hy).
      by replace (a + 1 + Z.of_nat i + 1)%Z with (a + Z.of_nat (S i) + 1)%Z by lia. }
    cbn [length total fold_right]. fold (total waits).
    replace (a + Z.of_nat (S (length waits)) + 1)%Z
      with (a + 1 + Z.of_nat (length waits) + 1)%Z by lia.
    assert (inject_Z (2 ^ (a + 1 + 1)) == 2 * inject_Z (2 ^ (a + 1)))%Q as Hp.
    { rewrite (Z.pow_add_r 2 (a + 1) 1) by lia. change (2 ^ 1)%Z with 2%Z.
      rewrite inject_Z_mult. change (inject_Z 2) with 2%Q. lra. }
    assert (inject_Z (Z.of_nat (S (length waits)))
            == inject_Z (Z.of_nat (length waits)) + 1)%Q as Hk.
    { rewrite Nat2Z.inj_succ. unfold Z.succ. rewrite inject_Z_plus.
      change (inject_Z 1) with 1%Q. lra. }
    rewrite Hk. split; lra.
Qed.

(** Delays that are each at most a bound add up to at most the sum of the
    bounds. *)
Lemma total_le (waits bounds : list Q) :
  Forall2 Qle waits bounds -> (total waits <= total bounds)%Q.
Proof.
  induction 1 as [|x y waits bounds Hxy _ IH]; cbn [total fold_right]; [lra|].
  fold (total waits) (total bounds). lra.
Qed.

End BackoffLemmas.

Section EnumeratorLemmas.
Context `{Domain_Scraper.Runtime W}.
Import Domain_Scraper.

Lemma responses_app (l1 l2 : list step) :
  responses (l1 ++ l2) = responses l1 ++ responses l2.
Proof. apply omap_app. Qed.

Lemma kept_texts_length (steps : list step) :
  length (kept_texts steps) <= length (responses steps).
Proof.
  induction steps as [|[url evs r|] steps IH]; [done| |done].
  change (responses (Fetch url evs r :: steps)) with ((url, r) :: responses steps).
  change (kept_texts (Fetch url evs r :: steps))
    with (match (if keeps r then r else None) with
          | Some y => y :: kept_texts steps
          | None => kept_texts steps
          end).
  destruct (keeps r); [destruct r|]; cbn [length]; lia.
Qed.

Lemma kept_texts_Forall (steps : list step) :
  Forall (fun text => text ≠ [] /\ contains marker text = false) (kept_texts steps).
Proof.
  induction steps as [|[url evs r|] steps IH]; [constructor| |done].
  change (kept_texts (Fetch url evs r :: steps))
    with (match (if keeps r then r else None) with
          | Some y => y :: kept_texts steps
          | None => kept_texts steps
          end).
  destruct (keeps r) eqn:Hk; [|done]. destruct r as [text|]; [|done].
  constructor; [|done]. unfold keeps in Hk. apply andb_true_iff in Hk as [Ht Hm].
  apply negb_true_iff in Hm. split; [by destruct text|done].
Qed.

Lemma requests_ok_length (postcode : Z) (c : Z * Z * Z) (new : list step) :
  requests_ok postcode (range 1 50) c new -> 1 <= length (responses new) <= 49.
Proof.
  destruct c as [[beds bath] park]. intros (k & Hk & Hk1 & Hurls & _).
  change (length (range 1 50)) with 49 in Hk.
  apply (f_equal length) in Hurls. rewrite !length_fmap, length_take in Hurls.
  change (length (range 1 50)) with 49 in Hurls.
  specialize (Hk1 ltac:(done)). lia.
Qed.

Lemma segments_length (postcode : Z) (cs : list (Z * Z * Z)) (segments : list (list step)) :
  Forall2 (requests_ok postcode (range 1 50)) cs segments ->
  length cs <= length (responses (concat segments)) <= 49 * length cs.
Proof.
  induction 1 as [|c new cs segments Hok _ IH]; [done|].
  cbn [concat length]. rewrite responses_app, length_app.
  apply requests_ok_length in Hok. lia.
Qed.

Lemma page_loop_fetched postcode beds bath park pages property_html steps w :
  Forall fetched steps ->
  Forall fetched
    (page_loop postcode beds bath park pages false (property_html, steps, w)).1.2.
Proof.
  revert property_html steps w.
  induction pages as [|page pages IH]; intros property_html steps w Hs; [done|].
  cbn [page_loop].
  destruct (fetch_property_data _ 5 w) as [[r evs] w1] eqn:Ef.
  assert (Forall fetched (steps ++ [Fetch (search_url postcode beds bath park page) evs r]))
    as Hs1.
  { apply Forall_app. split; [done|]. constructor; [|done]. by exists w, w1. }
  destruct (truthy r); [destruct (contains _ _)|].
  - cbn [fst snd]. apply Forall_app. split; [done|]. by constructor.
  - by apply IH.
  - by apply IH.
Qed.

Lemma enumerate_fetched postcode (cs : list (Z * Z * Z)) (st : state W) :
  Forall fetched st.1.2 ->
  Forall fetched
    (fold_left (fun st '(beds, bath, park) =>
                  page_loop postcode beds bath park (range 1 50) false st)
               cs st).1.2.
Proof.
  revert st. induction cs as [|[[beds bath] park] cs IH]; intros st Hst; [done|].
  cbn [fold_left]. apply IH. destruct st as [[property_html steps] w].
  by apply page_loop_fetched.
Qed.

End EnumeratorLemmas.

Section DistinctUrls.
Context `{Domain_Scraper.Runtime W}.
Import Domain_Scraper.

Lemma NoDup_fmap_inj {A B} (f : A -> B) (l : list A) (x y : A) :
  NoDup (f <$> l) -> x ∈ l -> y ∈ l -> f x = f y -> x = y.
Proof.
  induction l as [|a l IH]; [by intros _ ?%elem_of_nil|].
  rewrite fmap_cons, NoDup_cons. intros [Ha Hl] Hx Hy Hf.
  apply elem_of_cons in Hx as [->|Hx], Hy as [->|Hy]; [done| | |by apply IH].
  - destruct Ha. rewrite Hf. by apply list_elem_of_fmap_2.
  - destruct Ha. rewrite <- Hf. by apply list_elem_of_fmap_2.
Qed.

Lemma combination_part_length (c : Z * Z * Z) :
  c ∈ combinations -> length (combination_part c) = 113.
Proof.
  assert (forallb (fun c => length (combination_part c) =? 113) combinations = true)
    as Hall by (vm_compute; reflexivity).
  rewrite forallb_forall in Hall. intros Hc%list_elem_of_In.
  by apply Nat.eqb_eq, Hall.
Qed.

Lemma combination_part_NoDup : NoDup (combination_part <$> combinations).
Proof. apply (bool_decide_unpack _). vm_compute. exact I. Qed.

Lemma page_NoDup : NoDup (str_of_int <$> range 1 50).
Proof. apply (bool_decide_unpack _). vm_compute. exact I. Qed.

Lemma search_url_parts (postcode beds bath park page : Z) :
  search_url postcode beds bath park page
  = combination_part (beds, bath, park)
    ++ str_of_int postcode ++ u "&page=" ++ str_of_int page.
Proof. unfold search_url, combination_part. by rewrite <- !app_assoc. Qed.

(** Two requests of the enumerator with the same URL are for the same
    combination and the same page. *)
Lemma search_url_inj (postcode : Z) (c c' : Z * Z * Z) (page page' : Z) :
  c ∈ combinations -> c' ∈ combinations ->
  page ∈ range 1 50 -> page' ∈ range 1 50 ->
  search_url postcode c.1.1 c.1.2 c.2 page
  = search_url postcode c'.1.1 c'.1.2 c'.2 page' ->
  c = c' /\ page = page'.
Proof.
  intros Hc Hc' Hp Hp'. destruct c as [[beds bath] park], c' as [[beds' bath'] park'].
  cbn [fst snd]. rewrite !search_url_parts. intros Heq.
  apply app_inj_1 in Heq as [Hpart Hrest];
    [|by rewrite !combination_part_length].
  apply (NoDup_fmap_inj _ _ _ _ combination_part_NoDup Hc Hc') in Hpart.
  split; [done|].
  do 2 apply app_inv_head in Hrest.
  by apply (NoDup_fmap_inj _ _ _ _ page_NoDup Hp Hp').
Qed.

Lemma segment_urls (postcode : Z) (c : Z * Z * Z) (new : list step) (url : str) :
  requests_ok postcode (range 1 50) c new -> url ∈ (responses new).*1 ->
  exists page, page ∈ range 1 50 /\ url = search_url postcode c.1.1 c.1.2 c.2 page.
Proof.
  destruct c as [[beds bath] park]. intros (k & _ & _ & -> & _).
  intros (page & -> & Hp)%list_elem_of_fmap. exists page. split; [|done].
  eapply (subseteq_take k). exact Hp.
Qed.

Lemma segments_urls (postcode : Z) (cs : list (Z * Z * Z)) (segments : list (list step))
    (url : str) :
  Forall2 (requests_ok postcode (range 1 50)) cs segments ->
  url ∈ (responses (concat segments)).*1 ->
  exists c page, c ∈ cs /\ page ∈ range 1 50
                 /\ url = search_url postcode c.1.1 c.1.2 c.2 page.
Proof.
  induction 1 as [|c new cs segments Hok _ IH]; [by intros ?%elem_of_nil|].
  cbn [concat]. rewrite responses_app, fmap_app, elem_of_app. intros [Hu|Hu].
  - destruct (segment_urls postcode c new url Hok Hu) as (page & Hp & ->).
    exists c, page. split; [by left|done].
  - destruct (IH Hu) as (c' & page & Hc' & Hp & ->).
    exists c', page. split; [by right|done].
Qed.

Lemma segments_NoDup (postcode : Z) (cs : list (Z * Z * Z)) (segments : list (list step)) :
  Forall2 (requests_ok postcode (range 1 50)) cs segments ->
  NoDup cs -> (forall c, c ∈ cs -> c ∈ combinations) ->
  NoDup (responses (concat segments)).*1.
Proof.
  induction 1 as [|c new cs segments Hok Hall IH]; intros Hnd Hsub; [constructor|].
  apply NoDup_cons in Hnd as [Hc Hnd].
  cbn [concat]. rewrite responses_app, fmap_app. apply NoDup_app. split; [|split].
  - pose proof Hok as Hok'. destruct c as [[beds bath] park].
    destruct Hok' as (k & _ & _ & -> & _).
    apply NoDup_fmap_2_strong.
    + intros page page' Hp%(subseteq_take k) Hp'%(subseteq_take k) Heq.
      apply (search_url_inj postcode (beds, bath, park) (beds, bath, park));
        [apply Hsub; by left|apply Hsub; by left|done|done|done].
    + apply (sublist_NoDup _ (range 1 50)); [|apply sublist_take].
      apply (NoDup_fmap_1 str_of_int), page_NoDup.
  - intros url Hu Hu'.
    destruct (segment_urls postcode c new url Hok Hu) as (page & Hp & ->).
    destruct (segments_urls postcode cs segments _ Hall Hu') as (c' & page' & Hc' & Hp' & Heq).
    apply search_url_inj in Heq as [-> _];
      [done|apply Hsub; by left|apply Hsub; by right|done|done].
  - apply IH; [done|]. intros c' Hc'. apply Hsub. by right.
Qed.

End DistinctUrls.

Section ValuerGeneralLemmas.
Import Supplementary_Tables.

Lemma split_on_head (sep : N) (cur line : str) :
  head (split_on sep cur line)
  = Some (cur ++ take_while (fun c => negb (c =? sep)%N) line).
Proof.
  revert cur. induction line as [|c line IH]; intros cur.
  - cbn. by rewrite app_nil_r.
  - cbn [split_on take_while]. destruct (c =? sep)%N; cbn [negb head].
    + by rewrite app_nil_r.
    + by rewrite IH, <- app_assoc.
Qed.

Lemma first_field_B (line : str) :
  bool_decide (take_while (fun c => negb (c =? 59)%N) line = u "B") = B_record line.
Proof.
  unfold B_record. apply eq_true_iff_eq.
  rewrite bool_decide_eq_true, orb_true_iff, bool_decide_eq_true, startswith_spec.
  change (u "B") with [66%N]. change (u "B;") with [66%N; 59%N]. split.
  - intros Ht. pose proof (take_drop_while (fun c => negb (c =? 59)%N) line) as Hl.
    rewrite Ht in Hl. destruct (drop_while _ line) as [|c post] eqn:Ed.
    + left. by rewrite <- Hl.
    + right. exists post. rewrite <- Hl.
      assert (negb (c =? 59)%N = false) as Hc
        by (apply (drop_while_head (fun c => negb (c =? 59)%N) line c);
            by rewrite Ed).
      apply negb_false_iff, N.eqb_eq in Hc as ->. done.
  - intros [->|[post ->]]; reflexivity.
Qed.

Lemma for_lines_filter (lines : list str) (filtered_data : list (list str)) :
  for_lines lines filtered_data
  = Ok (filtered_data ++ (split_on 59 [] <$> List.filter B_record lines)).
Proof.
  revert filtered_data. induction lines as [|line lines IH]; intros filtered_data.
  - cbn. by rewrite app_nil_r.
  - cbn [for_lines List.filter]. rewrite <- first_field_B.
    pose proof (split_on_head 59 [] line) as Hh. cbn [app] in Hh.
    destruct (split_on 59 [] line) as [|first row] eqn:Es; [done|].
    cbn [head] in Hh. injection Hh as ->. cbn [index0].
    unfold mbind, result_bind.
    destruct (bool_decide _).
    + rewrite IH, fmap_cons, Es. by rewrite <- app_assoc.
    + apply IH.
Qed.

Lemma for_files_filter (files : list (list str)) (filtered_data : list (list str)) :
  for_files files filtered_data
  = Ok (filtered_data ++ (split_on 59 [] <$> List.filter B_record (concat files))).
Proof.
  revert filtered_data. induction files as [|file files IH]; intros filtered_data.
  - cbn. by rewrite app_nil_r.
  - cbn [for_files concat]. rewrite for_lines_filter. unfold mbind, result_bind.
    rewrite IH, List.filter_app, fmap_app. by rewrite <- app_assoc.
Qed.

End ValuerGeneralLemmas.

(* ===================================================================== *)
(** * What else the extractor guarantees                                  *)
(* ===================================================================== *)

Section ExtractorGuarantees.
Context `{UnicodeLaws}.
Import re Selectolax Domain_Parser.

(** X2. Whenever [parse_address] returns a postcode, it is not empty, has at
    most four characters, all of them digit characters, and it ends the
    address returned, or is followed there by one final newline only; when
    the address returned has four characters or more the postcode has
    exactly four. *)
Theorem parse_address_postcode_shape (address postcode : str) :
  snd (parse_address address) = Some postcode ->
  postcode ≠ [] /\ length postcode <= 4
  /\ Forall (fun c => is_digit c = true) postcode
  /\ (exists pre, fst (parse_address address) = pre ++ postcode
                  \/ fst (parse_address address) = pre ++ postcode ++ [10%N])
  /\ (4 <= length (fst (parse_address address)) -> length postcode = 4).
Proof.
  unfold parse_address. cbn [fst snd].
  set (s := replace address (u "Â") []).
  destruct (isdigit (slice_last 4 s)) eqn:Hd.
  - intros [= <-]. apply isdigit_Forall in Hd as [Hne Hall].
    unfold slice_last in *. split; [done|]. rewrite length_drop.
    split; [lia|]. split; [done|]. split; [|lia].
    exists (take (length s - 4) s). left. by rewrite take_drop.
  - destruct (search postcode_regex s) as [[i m]|] eqn:Es; [|done].
    intros [= <-]. unfold search in Es.
    apply search_from_Some in Es as (pre & post & Hs & _ & Hm & _).
    apply match_here_sound, matches_postcode in Hm as (Hlen & Hdec & Hend & _).
    split; [by destruct m|]. split; [lia|]. split.
    + eapply Forall_impl; [exact Hdec|]. intros c. apply decimal_digit.
    + split; [|done]. exists pre. destruct Hend as [Hend|Hend].
      * left. rewrite Hs. f_equal.
        rewrite <- (app_nil_r m) in Hend at 2. by apply app_inv_head in Hend as ->; rewrite app_nil_r.
      * right. rewrite Hs. f_equal. by apply app_inv_head in Hend as ->.
Qed.

(** X3. [parse_price] never returns a negative price, and the only exception
    it can raise is the [ValueError] of [int()] on a residue that
    [isdigit()] accepted: no other step of it fails.  (The interpreter's
    limit on the length of a decimal literal is not part of the model.) *)
Theorem parse_price_contract (html : HTMLParser) :
  match parse_price html with
  | Ok (Some price) => (0 <= price)%Z
  | Ok None => True
  | Raise e =>
    exists elem,
      css_first html "div.css-rxp4mi div.css-1gkcyyc div.css-qrqvvg p.css-mgq8yx"
      = Some elem
      /\ let residue := strip (replace (replace (text elem) (u "$") []) (u ",") []) in
         isdigit residue = true /\ e = ValueError residue
  end.
Proof. apply parse_price_result. Qed.

(** X4. [parse_property_details] never indexes an empty token list: a chip
    that holds one of the keywords has a leading token.  The only exception
    it can raise is the [ValueError] of [int()] on the leading token of one
    of its chips, a token [isdigit()] accepted; and no detail it returns is
    negative.  (The interpreter's limit on the length of a decimal literal
    is not part of the model.) *)
Theorem parse_property_details_contract (html : HTMLParser) :
  match parse_property_details html with
  | Ok st => forall f n, get f st = Some n -> (0 <= n)%Z
  | Raise e =>
    exists wrapper chip,
      css_first html "div[data-testid='property-features-wrapper']" = Some wrapper
      /\ In chip (text <$> css wrapper "span[data-testid='property-features-feature']")
      /\ isdigit (leading_token chip) = true
      /\ e = ValueError (leading_token chip)
  end.
Proof. apply parse_property_details_result. Qed.

(** X5. Chips that hold none of the four keywords play no part: the loop
    over the chips gives the same details, or raises the same exception, as
    the loop over the chips that hold a keyword. *)
Theorem for_features_ignores_unclassified (chips : list str) (st : details) :
  for_features chips st
  = for_features (List.filter (fun chip => is_some (classify chip)) chips) st.
Proof.
  revert st. induction chips as [|chip chips IH]; intros st; [done|].
  cbn [for_features List.filter].
  destruct (classify chip) as [f|] eqn:Ec; cbn [is_some].
  - cbn [for_features]. destruct (feature_step st chip); unfold_result; [apply IH|done].
  - rewrite feature_step_classified, Ec.
    destruct st as [[[? ?] ?] ?]. unfold_result. apply IH.
Qed.

(** X6. The sale type [parse_sale_info] returns is trimmed: it neither
    starts nor ends with a whitespace character, whether a date was taken
    out of the text or not. *)
Theorem parse_sale_info_trimmed (html : HTMLParser) (sale_type : str) (c : N) :
  fst (parse_sale_info html) = Some sale_type ->
  head sale_type = Some c \/ last sale_type = Some c -> is_space c = false.
Proof.
  unfold parse_sale_info. destruct (css_first html _) as [elem|]; [|done].
  destruct (search _ _) as [[i d]|]; cbn [fst]; intros [= <-]; apply strip_ends.
Qed.

(** X7. The record [parse_html] returns has the ten fields and no other
    key, whether the extraction failed or not; every field is null or of
    its type (an integer for the price and the four counts, a string for
    the others), and no integer is negative.  At most one line is printed,
    and the error it reports is a [ValueError]. *)
Theorem parse_html_record_shape (html : HTMLParser) :
  let '(record, printed) := parse_html html in
  (forall k, is_Some (record !! k) <-> In k domain_fields)
  /\ (forall k v, record !! k = Some v ->
        well_typed k v = true /\ forall n, v = VInt n -> (0 <= n)%Z)
  /\ match printed with
     | [] => True
     | [Error_parsing_HTML e] => exists literal, e = ValueError literal
     | _ => False
     end.
Proof.
  pose proof (parse_html_fields html) as [Hkeys Hok].
  pose proof (parse_html_printed html) as Hp.
  destruct (parse_html html) as [record printed]. cbn [fst snd] in *.
  split; [exact Hkeys|]. split; [exact Hok|exact Hp].
Qed.

End ExtractorGuarantees.

Section AddressProperties.
Context `{UnicodeData}.
Import Domain_Parser.

(** X1. [parse_address] removes every "Â" (code point 194) from the address
    and nothing else: the address returned is the input without those
    characters, in order; it holds no "Â"; and parsing it again changes
    nothing. *)
Theorem parse_address_removes_circumflex (address : str) :
  fst (parse_address address) = List.filter (fun c => negb (c =? 194)%N) address
  /\ contains (u "Â") (fst (parse_address address)) = false
  /\ parse_address (fst (parse_address address)) = parse_address address.
Proof.
  unfold parse_address. cbn [fst]. change (u "Â") with [194%N].
  rewrite !replace_char, filter_idem. split; [done|]. split; [|done].
  apply filter_contains.
Qed.

End AddressProperties.

Section ExtractorWitnesses.
Import Selectolax Domain_Parser Fixtures.

(** The address "Ultimo 2007" has the postcode "2007", of the shape X2
    gives. *)
Lemma parse_address_postcode_shape_witness :
  let postcode := u "2007" in
  postcode ≠ [] /\ length postcode <= 4
  /\ Forall (fun c => is_digit (UnicodeData := latin1) c = true) postcode
  /\ (exists pre,
        fst (parse_address (H := latin1) (u "Ultimo 2007")) = pre ++ postcode
        \/ fst (parse_address (H := latin1) (u "Ultimo 2007"))
           = pre ++ postcode ++ [10%N])
  /\ (4 <= length (fst (parse_address (H := latin1) (u "Ultimo 2007"))) ->
      length postcode = 4).
Proof.
  assert (snd (parse_address (H := latin1) (u "Ultimo 2007")) = Some (u "2007"))
    as Hp by (vm_compute; reflexivity).
  exact (parse_address_postcode_shape (H0 := latin1_laws)
           (u "Ultimo 2007") (u "2007") Hp).
Defined.

(** The price "$1,250,000²" raises, a [ValueError] as X3 says. *)
Lemma parse_price_contract_witness :
  match parse_price (H := latin1) card_superscript_price with
  | Ok (Some price) => (0 <= price)%Z
  | Ok None => True
  | Raise e =>
    exists elem,
      css_first card_superscript_price
        "div.css-rxp4mi div.css-1gkcyyc div.css-qrqvvg p.css-mgq8yx" = Some elem
      /\ let residue :=
           strip (H := latin1) (replace (replace (text elem) (u "$") []) (u ",") []) in
         isdigit (H := latin1) residue = true /\ e = ValueError residue
  end.
Proof.
  exact (parse_price_contract (H0 := latin1_laws) card_superscript_price).
Defined.

(** The chip "² Beds" raises, a [ValueError] as X4 says. *)
Lemma parse_property_details_contract_witness :
  match parse_property_details (H := latin1) card_superscript_beds with
  | Ok st => forall f n, get f st = Some n -> (0 <= n)%Z
  | Raise e =>
    exists wrapper chip,
      css_first card_superscript_beds
        "div[data-testid='property-features-wrapper']" = Some wrapper
      /\ In chip (text <$> css wrapper "span[data-testid='property-features-feature']")
      /\ isdigit (H := latin1) (leading_token (H := latin1) chip) = true
      /\ e = ValueError (leading_token (H := latin1) chip)
  end.
Proof.
  exact (parse_property_details_contract (H0 := latin1_laws) card_superscript_beds).
Defined.

(** The chip "Pool" plays no part, as X5 says. *)
Lemma for_features_ignores_unclassified_witness :
  for_features (H := latin1) [u "Pool"; u "3 Beds"] (None, None, None, None)
  = for_features (H := latin1)
      (List.filter (fun chip => is_some (classify chip))
                   [u "Pool"; u "3 Beds"])
      (None, None, None, None).
Proof.
  exact (for_features_ignores_unclassified (H0 := latin1_laws)
           [u "Pool"; u "3 Beds"] (None, None, None, None)).
Defined.

(** The sale type of "  Sold at auction 12 Jan 2023  " starts with "S", no
    whitespace, as X6 says. *)
Lemma parse_sale_info_trimmed_witness :
  is_space (UnicodeData := latin1) 83 = false.
Proof.
  assert (fst (parse_sale_info (H := latin1) card_padded_sale)
          = Some (u "Sold at auction")) as Hs by (vm_compute; reflexivity).
  exact (parse_sale_info_trimmed (H := latin1) card_padded_sale
           (u "Sold at auction") 83 Hs (or_introl eq_refl)).
Defined.

(** The record of a full card has the shape X7 gives. *)
Lemma parse_html_record_shape_witness :
  let '(record, printed) := parse_html (H := latin1) (card_full (u "$1,250,000")) in
  (forall k, is_Some (record !! k) <-> In k domain_fields)
  /\ (forall k v, record !! k = Some v ->
        well_typed k v = true /\ forall n, v = VInt n -> (0 <= n)%Z)
  /\ match printed with
     | [] => True
     | [Error_parsing_HTML e] => exists literal, e = ValueError literal
     | _ => False
     end.
Proof.
  exact (parse_html_record_shape (H0 := latin1_laws) (card_full (u "$1,250,000"))).
Defined.

End ExtractorWitnesses.

(* ===================================================================== *)
(** * What else the sink guarantees                                       *)
(* ===================================================================== *)

Section SinkGuarantees.
Context `{Sqlite.Engine}.
Import Sqlite Domain_Parser.

(** X9. Whatever the records hold, a batch that [insert_data] accepts adds
    one row per record to the Domain table, in order, with the row ids that
    follow the table's sequence, which it advances by the number of
    records; the columns stay, and every other table is left as it was. *)
Theorem insert_data_row_ids (data : list (gmap string value))
    (db db' : gmap string table) (t : table) :
  db !! "Domain" = Some t -> columns t = domain_columns ->
  insert_data db data = Ok db' ->
  exists t' new,
    db' !! "Domain" = Some t'
    /\ columns t' = domain_columns
    /\ sequence t' = (sequence t + Z.of_nat (length data))%Z
    /\ rows t' = rows t ++ new
    /\ head <$> new
       = (fun i => Some (Integer i)) <$> seqZ (sequence t + 1) (Z.of_nat (length data))
    /\ forall name, name ≠ "Domain" -> db' !! name = db !! name.
Proof.
  intros Hdb Hcols Hins.
  destruct (executemany_insert data db db' t Hdb Hcols Hins)
    as (t' & new & -> & Hc & Hs & Hr & Hids).
  exists t', new. split; [apply lookup_insert_eq|]. split; [done|].
  split; [done|]. split; [done|]. split; [done|].
  intros name Hname. by apply lookup_insert_ne.
Qed.


(** X13. Batches compose: inserting the records of [a ++ b] as one batch
    does what inserting [a] and then [b] does, the exception included. *)
Theorem insert_data_batches_compose (a b : list (gmap string value))
    (db : gmap string table) :
  insert_data db (a ++ b) = (db' ← insert_data db a; insert_data db' b).
Proof. apply executemany_app. Qed.

End SinkGuarantees.

Section PipelineGuarantees.
Context `{UnicodeLaws} `{Sqlite.Engine}.
Import Sqlite Selectolax Domain_Parser.


End PipelineGuarantees.

Section NullableGuarantees.
Context `{UnicodeData} `{Sqlite.EngineLaws}.
Import Sqlite Selectolax Domain_Parser.



End NullableGuarantees.

(* ===================================================================== *)
(** * The chunk loop of [main]                                            *)
(* ===================================================================== *)

Section MainGuarantees.
Context `{UnicodeLaws} `{Sqlite.Engine} (document : str -> Selectolax.HTMLParser).
Import Sqlite Domain_Parser.

(** X14. Chunking is transparent.  On a database with no Domain table, or
    one with the columns of the CREATE statement (any other Domain table
    makes the INSERT fail as soon as it is prepared), [main] ends as
    creating the table and inserting the records of all rows as one batch
    does: on success with the same database, on failure with the same
    exception.  The list of records is cleared after every chunk, so no
    row is inserted twice.  On success the output is, chunk by chunk, the
    lines of the chunk's rows and then its progress line. *)
Theorem main_is_one_batch (chunks : list (list str)) (db : gmap string table) :
  domain_ready db ->
  let one_batch :=
    db0 ← create_table db;
    insert_data db0 (records document (concat chunks)) in
  match main document chunks db with
  | (db', out, None) => one_batch = Ok db' /\ out = report document chunks
  | (_, _, Some e) => one_batch = Raise e
  end.
Proof.
  intros _. cbn zeta. pose proof (main_spec document chunks db) as Hm.
  destruct (main document chunks db) as [[db' out] e].
  destruct Hm as (db0 & done & rest & -> & -> & Hins & -> & He).
  unfold mbind, result_bind. destruct e as [e|].
  - destruct He as (chunk & rest' & -> & Hraise).
    rewrite concat_app, records_app. cbn [concat]. rewrite records_app.
    unfold insert_data in *. rewrite executemany_app, Hins.
    unfold mbind, result_bind. by rewrite executemany_app, Hraise.
  - subst rest. rewrite !app_nil_r. done.
Qed.


End MainGuarantees.

Section SinkWitnesses.
Import Sqlite Selectolax Domain_Parser Fixtures.

Lemma fresh_db_domain : fresh_db !! "Domain" = Some fresh_table.
Proof. apply lookup_insert_eq. Qed.

Lemma default_record_null :
  map_Forall (fun _ v => v = VNone) default_record.
Proof.
  unfold default_record.
  repeat (apply map_Forall_insert_2; [done|]). apply map_Forall_empty.
Qed.

Lemma record_sparse_typed : typed record_sparse.
Proof.
  unfold typed, domain_fields. cbn [insert_sql].
  rewrite !Forall_cons, Forall_nil. split_and!; try exact I;
    (eexists; split; [vm_compute; reflexivity|reflexivity]).
Qed.

Lemma record_sparse_fits : fits record_sparse.
Proof.
  split.
  - assert (map_Forall (fun _ v => forall n, v = VInt n -> int64 n = true)
              record_sparse) as Hall.
    { unfold record_sparse.
      apply map_Forall_insert_2; [by intros n [= <-]|].
      apply map_Forall_insert_2; [done|].
      eapply map_Forall_impl; [exact default_record_null|].
      by intros k v ->. }
    intros k n Hk. by apply (Hall k (VInt n) Hk).
  - intros p Hp. vm_compute in Hp. discriminate.
Qed.

Lemma card_empty_finds_nothing (q : string) : css_first card_empty q = None.
Proof.
  unfold card_empty, card. cbn [css_first].
  repeat match goal with
         | |- context [String.eqb ?a ?b] => destruct (String.eqb a b)
         end; reflexivity.
Qed.

(** A batch of two records into a fresh table gets the row ids 1 and 2, as
    X9 says. *)
Lemma insert_data_row_ids_witness :
  let data := [record_sparse; default_record] in
  let db' :=
    match insert_data (H := digits_engine) fresh_db data with
    | Ok db' => db'
    | Raise _ => fresh_db
    end in
  exists t' new,
    db' !! "Domain" = Some t'
    /\ columns t' = domain_columns
    /\ sequence t' = (sequence fresh_table + Z.of_nat (length data))%Z
    /\ rows t' = rows fresh_table ++ new
    /\ head <$> new
       = (fun i => Some (Integer i))
           <$> seqZ (sequence fresh_table + 1) (Z.of_nat (length data))
    /\ forall name, name ≠ "Domain" -> db' !! name = fresh_db !! name.
Proof.
  intros data db'.
  assert (insert_data (H := digits_engine) fresh_db data = Ok db') as Hins
    by (vm_compute; reflexivity).
  exact (insert_data_row_ids (H := digits_engine) data fresh_db db' fresh_table
           fresh_db_domain eq_refl Hins).
Defined.





(** Three rows in two chunks are inserted as one batch would, as X14
    says. *)
Lemma main_is_one_batch_witness :
  let one_batch :=
    db0 ← create_table (H := digits_engine) ∅;
    insert_data (H := digits_engine) db0
      (records (H := latin1) priced (concat chunks_fine)) in
  match main (H := latin1) (H0 := digits_engine) priced chunks_fine ∅ with
  | (db', out, None) =>
    one_batch = Ok db' /\ out = report (H := latin1) priced chunks_fine
  | (_, _, Some e) => one_batch = Raise e
  end.
Proof.
  exact (main_is_one_batch (H := latin1) (H1 := digits_engine)
           priced chunks_fine ∅ I).
Defined.


End SinkWitnesses.

(* ===================================================================== *)
(** * What else the fetch client and the enumerator guarantee             *)
(* ===================================================================== *)

Section FetchGuarantees.
Context `{Domain_Scraper.RuntimeLaws W}.
Import Domain_Scraper.

(** X16. The trace of a fetch, in any world and for at most 33 retries:
    some failed attempts, each a request to the URL, the retry message
    with the number of the attempt, and a sleep of at least 2^i seconds
    and at most the float 2^i + 0.1, which is less than 2^i + 0.100001;
    then either the request that succeeded, whose text is returned with no
    sleep after it, or, after exactly [retries] failures, the message of
    failure and null.  So a fetch never makes more than [retries]
    requests, none to another URL, and with [retries] at most 0 it makes
    none. *)
Theorem fetch_property_data_trace (url : str) (retries : Z) (w : W) :
  (retries <= 33)%Z ->
  let '(response_text, evs, _) := fetch_property_data url retries w in
  exists rounds,
    evs = retry_trace url 0 rounds ++ [last_event url retries response_text]
    /\ (response_text = None <-> length rounds = Z.to_nat retries)
    /\ gets evs
       = replicate (length rounds + match response_text with Some _ => 1 | None => 0 end) url
    /\ length (gets evs) <= Z.to_nat retries
    /\ (forall i x, rounds !! i = Some x ->
          (inject_Z (2 ^ (Z.of_nat i + 1)) <= x.2)%Q
          /\ (x.2 <= longest_wait (Z.of_nat i + 1))%Q
          /\ (x.2 < inject_Z (2 ^ (Z.of_nat i + 1)) + (100001 # 1000000))%Q).
Proof.
  intros Hretries. unfold fetch_property_data.
  pose proof (fetch_loop_trace (Z.to_nat retries) url retries 0 w ltac:(lia)) as Ht.
  destruct (fetch_loop _ url retries 0 w) as [[r evs] w'].
  destruct Ht as (rounds & -> & Hnone & Hsome & Hwaits).
  exists rounds. split; [done|].
  assert (gets (retry_trace url 0 rounds ++ [last_event url retries r])
          = replicate (length rounds + match r with Some _ => 1 | None => 0 end) url) as Hgets.
  { rewrite gets_app, gets_retry_trace, replicate_add. by destruct r. }
  assert (length rounds <= Z.to_nat retries) as Hlen.
  { destruct r as [text|]; [specialize (Hsome ltac:(by eexists)); lia|].
    rewrite Hnone by done. lia. }
  split; [|split; [exact Hgets|split]].
  - split; [exact Hnone|]. intros Hl. destruct r as [text|]; [|done].
    specialize (Hsome ltac:(by eexists)). lia.
  - rewrite Hgets, length_replicate. destruct r as [text|].
    + specialize (Hsome ltac:(by eexists)). lia.
    + rewrite Hnone by done. lia.
  - intros i x Hx. pose proof (lookup_lt_Some _ _ _ Hx) as Hi.
    destruct (Hwaits i x Hx) as [Hlo Hhi]. rewrite Z.add_0_l in Hlo, Hhi.
    split; [done|]. split; [done|].
    eapply Qle_lt_trans; [exact Hhi|].
    eapply Qlt_le_trans; [apply longest_wait_bound; lia|].
    generalize (inject_Z (2 ^ (Z.of_nat i + 1))). intros p. lra.
Qed.

(** X17. The time a fetch sleeps, for at most 33 retries: after k failed
    attempts it has slept at least 2^(k+1) - 2 seconds and at most that
    plus k times 0.100001, and k is at most [retries]; with the default of
    5 retries a fetch never sleeps more than 62.5 seconds and 5/2^51, the
    sum of the floats 2.1, 4.1, 8.1, 16.1 and 32.1. *)
Theorem fetch_property_data_backoff (url : str) (retries : Z) (w : W) :
  (retries <= 33)%Z ->
  let '(_, evs, _) := fetch_property_data url retries w in
  let k := length (sleeps evs) in
  k <= Z.to_nat retries
  /\ (inject_Z (2 ^ (Z.of_nat k + 1)) - 2 <= total (sleeps evs))%Q
  /\ (total (sleeps evs)
      <= inject_Z (2 ^ (Z.of_nat k + 1)) - 2
         + inject_Z (Z.of_nat k) * (100001 # 1000000))%Q
  /\ (retries = 5%Z -> (total (sleeps evs) <= (125 # 2) + (5 # 2 ^ 51))%Q).
Proof.
  intros Hretries. unfold fetch_property_data.
  pose proof (fetch_loop_trace (Z.to_nat retries) url retries 0 w ltac:(lia)) as Ht.
  destruct (fetch_loop _ url retries 0 w) as [[r evs] w'].
  destruct Ht as (rounds & -> & Hnone & Hsome & Hwaits). cbn zeta.
  assert (sleeps (retry_trace url 0 rounds ++ [last_event url retries r])
          = rounds.*2) as ->.
  { rewrite sleeps_app, sleeps_retry_trace. destruct r; by rewrite app_nil_r. }
  rewrite length_fmap.
  assert (length rounds <= Z.to_nat retries) as Hlen.
  { destruct r as [text|]; [specialize (Hsome ltac:(by eexists)); lia|].
    rewrite Hnone by done. lia. }
  destruct (total_waits rounds.*2 0 (100001 # 1000000) ltac:(lia)) as [Hlo Hhi].
  { intros i x Hx. apply list_lookup_fmap_Some in Hx as (y & -> & Hy).
    pose proof (lookup_lt_Some _ _ _ Hy) as Hi.
    destruct (Hwaits i y Hy) as [Hl Hu]. split; [done|].
    eapply Qle_lt_trans; [exact Hu|].
    eapply Qlt_le_trans; [apply longest_wait_bound; lia|].
    generalize (inject_Z (2 ^ (0 + Z.of_nat i + 1))). intros p. lra. }
  rewrite length_fmap in Hlo, Hhi. cbn [Z.add] in Hlo, Hhi.
  change (inject_Z (2 ^ 1)) with 2%Q in Hlo, Hhi.
  split; [done|]. split; [done|]. split; [done|].
  intros ->. change (Z.to_nat 5) with 5 in Hlen. clear Hlo Hhi.
  eapply Qle_trans.
  - apply (total_le _ ((fun i => longest_wait (Z.of_nat i + 1))
                         <$> seq 0 (length rounds))).
    apply Forall2_same_length_lookup_2.
    + by rewrite !length_fmap, length_seq.
    + intros i x y Hx Hy. apply list_lookup_fmap_Some in Hx as (z & -> & Hz).
      apply list_lookup_fmap_Some in Hy as (j & -> & Hj).
      apply lookup_seq in Hj as [-> _]. by apply (Hwaits i z Hz).
  - destruct (length rounds) as [|[|[|[|[|[|n]]]]]]; [..|lia];
      vm_compute; discriminate.
Qed.

End FetchGuarantees.

Section EnumeratorGuarantees.
Context `{Domain_Scraper.Runtime W}.
Import Domain_Scraper.

(** X18. A run of the enumerator fetches at least 180 pages, one for each
    of the 5 x 6 x 6 combinations, and at most 8820, 49 for each; the list
    it returns is no longer than the number of pages fetched. *)
Theorem fetch_postcode_data_fetch_count (postcode : Z) (w : W) :
  let '(property_html, steps, _) := fetch_postcode_data postcode w in
  180 <= length (responses steps) <= 49 * 180
  /\ length property_html <= length (responses steps).
Proof.
  unfold fetch_postcode_data. rewrite enumerate_combinations.
  destruct (fold_segments postcode combinations [] [] w)
    as (segments & w' & -> & Hall).
  cbn [app]. apply segments_length in Hall.
  change (length combinations) with 180 in Hall.
  split; [lia|]. apply kept_texts_length.
Qed.

(** X19. No text in the list the enumerator returns is empty, and none
    holds the no-results marker. *)
Theorem fetch_postcode_data_texts (postcode : Z) (w : W) :
  Forall (fun text => text ≠ [] /\ contains marker text = false)
         (fetch_postcode_data postcode w).1.1.
Proof.
  unfold fetch_postcode_data. rewrite enumerate_combinations.
  destruct (fold_segments postcode combinations [] [] w)
    as (segments & w' & -> & _).
  cbn [fst app]. apply kept_texts_Forall.
Qed.

(** X21. The enumerator never fetches the same URL twice for a postcode:
    the URLs of its fetches are pairwise distinct, the search URL being
    different for different combinations and pages. *)
Theorem fetch_postcode_data_urls_distinct (postcode : Z) (w : W) :
  NoDup (responses (fetch_postcode_data postcode w).1.2).*1.
Proof.
  unfold fetch_postcode_data. rewrite enumerate_combinations.
  destruct (fold_segments postcode combinations [] [] w)
    as (segments & w' & -> & Hall).
  cbn [fst snd app]. apply (segments_NoDup postcode combinations); [done| |done].
  apply (NoDup_fmap_1 combination_part), combination_part_NoDup.
Qed.

End EnumeratorGuarantees.

Section RequestGuarantees.
Context `{Domain_Scraper.RuntimeLaws W}.
Import Domain_Scraper.

Lemma fetched_requests (s : step) :
  fetched s ->
  match s with
  | Fetch url evs response_text =>
    exists n, 1 <= n <= 5 /\ gets evs = replicate n url
              /\ (response_text = None -> n = 5)
  | _ => True
  end.
Proof.
  destruct s as [url evs r|]; [|done]. intros (w0 & w1 & Hf).
  unfold fetch_property_data in Hf.
  pose proof (fetch_loop_trace (Z.to_nat 5) url 5 0 w0 ltac:(lia)) as Ht.
  rewrite Hf in Ht. destruct Ht as (rounds & -> & Hnone & Hsome & _).
  change (Z.to_nat 5) with 5 in *.
  exists (length rounds + match r with Some _ => 1 | None => 0 end).
  split; [|split].
  - destruct r as [text|]; [specialize (Hsome ltac:(by eexists)); lia|].
    rewrite Hnone by done. lia.
  - rewrite gets_app, gets_retry_trace, replicate_add. by destruct r.
  - intros ->. rewrite Hnone by done. lia.
Qed.

Lemma requests_length (steps : list step) :
  Forall fetched steps ->
  length (responses steps) <= length (requests steps) <= 5 * length (responses steps).
Proof.
  induction 1 as [|s steps Hs _ IH]; [done|].
  apply fetched_requests in Hs. destruct s as [url evs r|].
  - change (responses (Fetch url evs r :: steps)) with ((url, r) :: responses steps).
    change (requests (Fetch url evs r :: steps)) with (gets evs ++ requests steps).
    destruct Hs as (n & Hn & -> & _).
    rewrite length_app, length_replicate. cbn [length]. lia.
  - exact IH.
Qed.

(** X20. Every fetch of the enumerator is a call of the fetch client with
    the default of 5 retries: it makes between 1 and 5 HTTP requests, all
    to its own URL, and returns null only after 5 of them.  So a run makes
    at least 180 and at most 44100 HTTP requests. *)
Theorem fetch_postcode_data_requests (postcode : Z) (w : W) :
  let steps := (fetch_postcode_data postcode w).1.2 in
  Forall (fun s => match s with
                   | Fetch url evs response_text =>
                     exists n, 1 <= n <= 5 /\ gets evs = replicate n url
                               /\ (response_text = None -> n = 5)
                   | _ => True
                   end) steps
  /\ 180 <= length (requests steps) <= 5 * (49 * 180).
Proof.
  cbn zeta.
  assert (Forall fetched (fetch_postcode_data postcode w).1.2) as Hf.
  { unfold fetch_postcode_data. rewrite enumerate_combinations.
    by apply enumerate_fetched. }
  split.
  - eapply Forall_impl; [exact Hf|]. apply fetched_requests.
  - apply requests_length in Hf. revert Hf.
    unfold fetch_postcode_data. rewrite enumerate_combinations.
    destruct (fold_segments postcode combinations [] [] w)
      as (segments & w' & -> & Hall).
    cbn [fst snd app]. apply segments_length in Hall.
    change (length combinations) with 180 in Hall. lia.
Qed.

End RequestGuarantees.

Section ScraperWitnesses.
Import Domain_Scraper Fixtures.

(** Where every request succeeds the trace is the one request, as X16
    says. *)
Lemma fetch_property_data_trace_witness :
  let '(response_text, evs, _) :=
    fetch_property_data (H := always (Success (u "page"))) (u "url") 5 tt in
  exists rounds,
    evs = retry_trace (u "url") 0 rounds ++ [last_event (u "url") 5 response_text]
    /\ (response_text = None <-> length rounds = Z.to_nat 5)
    /\ gets evs
       = replicate (length rounds + match response_text with Some _ => 1 | None => 0 end) (u "url")
    /\ length (gets evs) <= Z.to_nat 5
    /\ (forall i x, rounds !! i = Some x ->
          (inject_Z (2 ^ (Z.of_nat i + 1)) <= x.2)%Q
          /\ (x.2 <= longest_wait (Z.of_nat i + 1))%Q
          /\ (x.2 < inject_Z (2 ^ (Z.of_nat i + 1)) + (100001 # 1000000))%Q).
Proof.
  exact (fetch_property_data_trace (H0 := always_laws (Success (u "page")))
           (u "url") 5 tt ltac:(lia)).
Defined.

(** Where every request fails the five sleeps add up to 62 seconds, within
    the bounds X17 gives. *)
Lemma fetch_property_data_backoff_witness :
  let '(_, evs, _) :=
    fetch_property_data (H := always (Failure RequestError)) (u "url") 5 tt in
  let k := length (sleeps evs) in
  k <= Z.to_nat 5
  /\ (inject_Z (2 ^ (Z.of_nat k + 1)) - 2 <= total (sleeps evs))%Q
  /\ (total (sleeps evs)
      <= inject_Z (2 ^ (Z.of_nat k + 1)) - 2
         + inject_Z (Z.of_nat k) * (100001 # 1000000))%Q
  /\ (5%Z = 5%Z -> (total (sleeps evs) <= (125 # 2) + (5 # 2 ^ 51))%Q).
Proof.
  exact (fetch_property_data_backoff (H0 := always_laws (Failure RequestError))
           (u "url") 5 tt ltac:(lia)).
Defined.

(** Where every page holds the marker each fetch is one request, as X20
    says. *)
Lemma fetch_postcode_data_requests_witness :
  let steps :=
    (fetch_postcode_data (H := always (Success marker)) 2000 tt).1.2 in
  Forall (fun s => match s with
                   | Fetch url evs response_text =>
                     exists n, 1 <= n <= 5 /\ gets evs = replicate n url
                               /\ (response_text = None -> n = 5)
                   | _ => True
                   end) steps
  /\ 180 <= length (requests steps) <= 5 * (49 * 180).
Proof.
  exact (fetch_postcode_data_requests (H0 := always_laws (Success marker)) 2000 tt).
Defined.

End ScraperWitnesses.

(* ===================================================================== *)
(** * The Valuer General files                                            *)
(* ===================================================================== *)

Section ValuerGeneral.
Import Supplementary_Tables.


End ValuerGeneral.
